(** * gcsa2, files.cpp: input graphs, path graphs and their shard files

    A shallow embedding of [src/files.cpp]: the text and binary k-mer readers,
    the binary writer, [markSinkNode], [InputGraph], [PathGraph] and
    [PathGraphBuilder], followed by the properties of the specification that
    concern them.

    Conventions.
    - [size_type] values are integers in [Z]; the arithmetic of the source
      that can wrap around is written with [wrap] (reduction modulo 2^64).
    - A file is a sequence of bytes ([ascii]); text and binary files share the
      representation, as they do on disk.
    - [std::exit(EXIT_FAILURE)] is the outcome [Exit]; everything printed on
      [std::cerr] is recorded, in order, as a list of [Diagnostic]s.
    - What [files.h] and the other translation units declare (the packed key,
      node encoding, record layouts, sorting, temporary names) is not part of
      the sources at hand; it is collected in the class [Collaborators]. *)

From Stdlib Require Import ZArith Ascii String Lia.
From stdpp Require Import base tactics option list strings gmap sorting.

Local Open Scope Z_scope.

(** ** Machine integers and characters *)

(** [~(size_type)0], the largest [size_type] value. *)
Definition SIZE_MAX : Z := 2 ^ 64 - 1.

(** Unsigned 64-bit wrap-around. *)
Definition wrap (z : Z) : Z := z mod 2 ^ 64.

Definition TAB : ascii := "009"%char.
Definition NEWLINE : ascii := "010"%char.
Definition COMMA : ascii := ","%char.

(** ** Diagnostics written to [std::cerr] *)

Inductive Diagnostic : Type :=
| TokenizeTokenCount
| TokenizeLineWas (line : list ascii)
| ReadTextInvalidLength (len : Z)
| ReadTextLengthMismatch (len expected : Z)
| ReadBinaryInvalidFlags (section flags : Z)
| ReadBinaryInvalidLength (section len : Z)
| ReadBinaryLengthMismatch (section len expected : Z)
| WriteKMersCannotOpen (filename : string)
| InputGraphInvalidFile (file : nat)
| InputGraphCannotOpen (filename : string)
| CheckKInvalidLength (filename : string)
| CheckKExpected (expected got : Z)
| PathGraphCannotOpenOutput (filename : string)
| PathGraphInvalidFile (file : nat)
| PathGraphCannotOpen (filename : string)
| BuilderCannotOpenOutput (filename : string).

(** ** Outcomes of a call

    [Done a s]: the call returns [a] in state [s].  [Exit s]: the process was
    terminated by [std::exit(EXIT_FAILURE)] in state [s].  [Undefined]: the
    call left the behaviour the model defines (an access past the end of a
    vector, a byte count that does not fit the signed stream types).
    [OutOfFuel]: a loop used up the iteration bound
    it was given; the functions below give every loop a bound it cannot
    reach. *)

Inductive outcome (S A : Type) : Type :=
| Done (a : A) (s : S)
| Exit (s : S)
| Undefined
| OutOfFuel.

Arguments Done {S A} a s.
Arguments Exit {S A} s.
Arguments Undefined {S A}.
Arguments OutOfFuel {S A}.

Definition M (S A : Type) : Type := S -> outcome S A.

Definition ret {S A} (a : A) : M S A := fun s => Done a s.

Definition bind {S A B} (m : M S A) (k : A -> M S B) : M S B :=
  fun s =>
    match m s with
    | Done a s' => k a s'
    | Exit s' => Exit s'
    | Undefined => Undefined
    | OutOfFuel => OutOfFuel
    end.

Definition exit_failure {S A} : M S A := fun s => Exit s.

Notation "'let*' x ':=' m 'in' k" := (bind m (fun x => k))
  (at level 10, x name, m at level 100, k at level 200).

(** Whether an outcome is the termination of the process. *)
Definition exits {S A} (o : outcome S A) : Prop :=
  match o with Exit _ => True | _ => False end.

(** ** Records of the data model *)

(** Modelled from the spec: struct [KMer] is declared in [files.h], which is
    not among the sources; the specification's data model gives it a key, the
    two node positions and the [sorted] mark, set by [makeSorted]. *)
Record KMer : Type := mkKMer { key : Z; from : Z; to : Z; sorted : bool }.

Definition makeSorted (k : KMer) : KMer :=
  {| key := key k; from := from k; to := to k; sorted := true |}.

Module GraphFileHeader.
Record t : Type := mk { flags : Z; kmer_count : Z; kmer_length : Z }.

(** [GraphFileHeader::GraphFileHeader()] *)
Definition empty : t := {| flags := 0; kmer_count := 0; kmer_length := 0 |}.

(** [GraphFileHeader::GraphFileHeader(size_type kmers, size_type length)] *)
Definition make (kmers length : Z) : t :=
  {| flags := 0; kmer_count := kmers; kmer_length := length |}.
End GraphFileHeader.

(** ** Input streams

    An [std::istream] over a sequence of bytes: what is left to read and the
    [eofbit].  Once the end has been hit every later extraction fails and
    leaves the stream as it is. *)
Record istream : Type := mkIstream { buf : list ascii; eofbit : bool }.

Definition istream_of (content : list ascii) : istream :=
  {| buf := content; eofbit := false |}.

(** [in.read(p, n)]: the bytes stored at [p] and the stream afterwards.  A
    short read stores what is there and sets [eofbit]. *)
Definition istream_read (n : nat) (inp : istream) : list ascii * istream :=
  if eofbit inp then ([], inp)
  else if decide (n ≤ length (buf inp))%nat
       then (take n (buf inp), {| buf := drop n (buf inp); eofbit := false |})
       else (buf inp, {| buf := []; eofbit := true |}).

(** [in.seekg(n, std::ios_base::cur)] for [0 <= n]: moving past the end is
    allowed, the next extraction then hits the end.  A seek that the stream
    refuses, which sets [failbit] alone, is not modelled. *)
Definition istream_seekg (n : nat) (inp : istream) : istream :=
  if eofbit inp then inp
  else {| buf := drop n (buf inp); eofbit := false |}.

(** The characters up to the first [delim] and what follows that [delim];
    [None] for the second component when no [delim] was found. *)
Fixpoint split_at_delim (delim : ascii) (s : list ascii)
  : list ascii * option (list ascii) :=
  match s with
  | [] => ([], None)
  | c :: s' =>
      if decide (c = delim) then ([], Some s')
      else let '(t, r) := split_at_delim delim s' in (c :: t, r)
  end.

(** [std::getline(in, line)] on a file stream. Reaching the end of the file
    before a newline sets [eofbit]. *)
Definition istream_getline (inp : istream) : list ascii * istream :=
  if eofbit inp then ([], inp)
  else match split_at_delim NEWLINE (buf inp) with
       | (line, Some rest) => (line, {| buf := rest; eofbit := false |})
       | (line, None) => (line, {| buf := []; eofbit := true |})
       end.

(** [std::getline(ss, token, delim)] on a string stream, as a condition:
    [None] when it converts to [false] (nothing was left to extract),
    otherwise the token and the characters left in the stream. *)
Definition ss_getline (delim : ascii) (ss : list ascii)
  : option (list ascii * list ascii) :=
  match ss with
  | [] => None
  | _ => let '(token, r) := split_at_delim delim ss in
         Some (token, default [] r)
  end.

(** [while(std::getline(ss, token, delim)) { tokens.push_back(token); }] *)
Fixpoint getline_loop (fuel : nat) (delim : ascii) (ss : list ascii)
  : list (list ascii) :=
  match fuel with
  | O => []
  | S fuel' =>
      match ss_getline delim ss with
      | None => []
      | Some (token, ss') => token :: getline_loop fuel' delim ss'
      end
  end.

(** All the tokens of a string: the loop above with a bound it cannot reach,
    every successful extraction consuming at least one character. *)
Definition getline_all (delim : ascii) (s : list ascii) : list (list ascii) :=
  getline_loop (S (length s)) delim s.

(** ** External collaborators

    The declarations of [files.h] and the services of the other translation
    units, as far as [files.cpp] uses them.  The byte functions give the
    object representation that [in.read] and [out.write] copy from and
    to the objects. *)
Class Collaborators : Type := {
  (** [Key::MAX_LENGTH] *)
  MAX_LENGTH : Z;
  (** [InputGraph::UNKNOWN] and [PathGraph::UNKNOWN] *)
  UNKNOWN : Z;
  (** [Key::label], [Key::merge], [Key::replace] on [key_type] *)
  Key_label : Z -> Z;
  Key_merge : Z -> Z -> Z;
  Key_replace : Z -> Z -> Z;
  (** [Node::id], [Node::offset] on [node_type] *)
  Node_id : Z -> Z;
  Node_offset : Z -> Z;
  (** [KMer::KMer(tokens, alpha, successor)] and [KMer::KMer()] *)
  KMer_from_tokens : list (list ascii) -> nat -> KMer;
  KMer_default : KMer;
  (** [sizeof(KMer)] and the object representation of a [KMer] *)
  sizeof_KMer : nat;
  KMer_bytes : KMer -> list ascii;
  KMer_of_bytes : list ascii -> KMer;
  (** [sizeof(GraphFileHeader)] and its object representation *)
  sizeof_header : nat;
  header_bytes : GraphFileHeader.t -> list ascii;
  header_of_bytes : list ascii -> GraphFileHeader.t;
  (** [parallelQuickSort] on a vector of [KMer]s *)
  sort_kmers : list KMer -> list KMer;
  (** [PathNode] with [PathNode::dummyRankVector()], [PathNode(kmer, labels)],
      [serialize(out, labels)] and [PathNode(in, labels)] *)
  PathNode : Type;
  PathNode_dummyRankVector : list Z;
  PathNode_from_KMer : KMer -> list Z -> PathNode * list Z;
  PathNode_serialize : PathNode -> list Z -> list ascii;
  PathNode_read : istream -> list Z -> PathNode * istream * list Z;
  (** [parallelQuickSort] with a [PathFirstComparator] over the labels *)
  sort_paths : list Z -> list PathNode -> list PathNode;
  (** [tempFile(prefix)]: the name handed out at the n-th request *)
  tempFile : string -> nat -> string
}.

(** ** The readers and the writer *)

(** The state of a reader: the vector it fills and what it has printed. *)
Record Reading : Type := mkReading { kmers : list KMer; printed : list Diagnostic }.

Definition print_r {A} (ds : list Diagnostic) (a : A) : M Reading A :=
  fun st => Done a {| kmers := kmers st; printed := printed st ++ ds |}.

Definition set_kmers (v : list KMer) : M Reading unit :=
  fun st => Done tt {| kmers := v; printed := printed st |}.

(** [v.resize(n)] with value [d] for the new elements. *)
Definition resize {A} (n : nat) (d : A) (v : list A) : list A :=
  take n v ++ replicate (n - length v) d.

(** [tokenize(line, tokens)]: the returned flag, [tokens] afterwards and the
    lines printed. *)
Definition tokenize (line : list ascii) (tokens : list (list ascii))
  : bool * list (list ascii) * list Diagnostic :=
  let tokens := tokens ++ getline_all TAB line in
  if decide (length tokens ≠ 5%nat)
  then (false, tokens, [TokenizeTokenCount; TokenizeLineWas line])
  else
    let destinations := default [] (tokens !! 4%nat) in
    let tokens := resize 4 [] tokens in
    (true, tokens ++ getline_all COMMA destinations, []).

Section Readers.
Context `{Collaborators}.

(** The body of the [for] loop of [readText]: one record per successor. *)
Definition push_successors (tokens : list (list ascii)) : M Reading unit :=
  fun st =>
    Done tt {| kmers := kmers st ++
                        map (KMer_from_tokens tokens) (seq 4 (length tokens - 4));
               printed := printed st |}.

Fixpoint readText_loop (fuel : nat) (inp : istream) (kmer_length : Z)
  : M Reading Z :=
  match fuel with
  | O => fun _ => OutOfFuel
  | S fuel' =>
      let '(line, inp) := istream_getline inp in
      if eofbit inp then ret kmer_length
      else
        let '(ok, tokens, diags) := tokenize line [] in
        let* _ := print_r diags tt in
        if negb ok then readText_loop fuel' inp kmer_length
        else
          let len := Z.of_nat (length (default [] (tokens !! 0%nat))) in
          let* kmer_length :=
            if decide (kmer_length = SIZE_MAX) then
              if decide (len = 0 ∨ MAX_LENGTH < len)
              then let* _ := print_r [ReadTextInvalidLength len] tt in exit_failure
              else ret len
            else if decide (len ≠ kmer_length)
                 then let* _ := print_r [ReadTextLengthMismatch len kmer_length] tt in
                      exit_failure
                 else ret kmer_length in
          let* _ := push_successors tokens in
          readText_loop fuel' inp kmer_length
  end.

(** [readText(in, kmers, append)]; every iteration that does not leave the
    loop consumes a newline, which bounds the iterations. *)
Definition readText (inp : istream) (append : bool) : M Reading Z :=
  let* _ := (if append then ret tt else set_kmers []) in
  readText_loop (S (length (buf inp))) inp SIZE_MAX.

(** [n] consecutive blocks of [size] bytes. *)
Fixpoint chunks (n size : nat) (bytes : list ascii) : list (list ascii) :=
  match n with
  | O => []
  | S n' => take size bytes :: chunks n' size (drop size bytes)
  end.

Definition KMers_bytes (v : list KMer) : list ascii := concat (map KMer_bytes v).

Definition KMers_of_bytes (n : nat) (bytes : list ascii) : list KMer :=
  map KMer_of_bytes (chunks n sizeof_KMer bytes).

(** The three statements that load the records of one section:
    [kmers.resize(old_size + header.kmer_count)] and [in.read] of
    [header.kmer_count * sizeof(KMer)] bytes at [kmers.data() + old_size].
    The bytes read replace the front of the object representation of the new
    elements.  Allocation is taken to succeed. *)
Definition read_section_records (kmer_count : Z) (inp : istream) : M Reading istream :=
  fun st =>
    let old_size := length (kmers st) in
    let new_size := Z.to_nat (wrap (Z.of_nat old_size + kmer_count)) in
    let v := resize new_size KMer_default (kmers st) in
    let n := wrap (kmer_count * Z.of_nat sizeof_KMer) in
    if decide (2 ^ 63 ≤ n) then Undefined
    else
      let '(bytes, inp) := istream_read (Z.to_nat n) inp in
      let fresh := drop old_size v in
      if decide (length bytes ≤ length fresh * sizeof_KMer)%nat
      then Done inp
             {| kmers := take old_size v ++
                         KMers_of_bytes (length fresh)
                           (bytes ++ drop (length bytes) (KMers_bytes fresh));
                printed := printed st |}
      else Undefined.

Fixpoint readBinary_loop (fuel : nat) (inp : istream) (kmer_length section : Z)
  : M Reading Z :=
  match fuel with
  | O => fun _ => OutOfFuel
  | S fuel' =>
      let '(bytes, inp) := istream_read sizeof_header inp in
      let header := header_of_bytes bytes in
      if eofbit inp then ret kmer_length
      else if decide (GraphFileHeader.flags header ≠ 0)
      then let* _ := print_r [ReadBinaryInvalidFlags section
                                (GraphFileHeader.flags header)] tt in
           exit_failure
      else
        let len := GraphFileHeader.kmer_length header in
        let* kmer_length :=
          if decide (kmer_length = SIZE_MAX) then
            if decide (len = 0 ∨ MAX_LENGTH < len)
            then let* _ := print_r [ReadBinaryInvalidLength section len] tt in
                 exit_failure
            else ret len
          else if decide (len ≠ kmer_length)
               then let* _ := print_r [ReadBinaryLengthMismatch section len
                                         kmer_length] tt in
                    exit_failure
               else ret kmer_length in
        let* inp := read_section_records (GraphFileHeader.kmer_count header) inp in
        readBinary_loop fuel' inp kmer_length (wrap (section + 1))
  end.

(** [readBinary(in, kmers, append)]; with [0 < sizeof(GraphFileHeader)]
    every iteration that does not leave the loop consumes a header. *)
Definition readBinary (inp : istream) (append : bool) : M Reading Z :=
  let* _ := (if append then ret tt else set_kmers []) in
  readBinary_loop (S (length (buf inp))) inp SIZE_MAX 0.

(** [writeBinary(out, kmers, kmer_length)]: the bytes of [out] afterwards. *)
Definition writeBinary (out : list ascii) (v : list KMer) (kmer_length : Z)
  : list ascii :=
  let header := GraphFileHeader.make (Z.of_nat (length v)) kmer_length in
  out ++ header_bytes header ++
  take (Z.to_nat (wrap (GraphFileHeader.kmer_count header * Z.of_nat sizeof_KMer)))
    (KMers_bytes v).

(** [parseKMer(kmer_line)]: the k-mer length and the number of successors. *)
Definition parseKMer (kmer_line : list ascii) : Z * Z :=
  match ss_getline TAB kmer_line with
  | None => (UNKNOWN, 0)
  | Some (token, ss) =>
      let first := Z.of_nat (length token) in
      match ss_getline TAB ss with
      | None => (first, 0)
      | Some (_, ss) =>
      match ss_getline TAB ss with
      | None => (first, 0)
      | Some (_, ss) =>
      match ss_getline TAB ss with
      | None => (first, 0)
      | Some (_, ss) =>
      match ss_getline TAB ss with
      | None => (first, 0)
      | Some (extensions, _) =>
          (first, wrap (Z.of_nat (length (getline_all COMMA extensions))))
      end end end end
  end.

(** The first loop of [markSinkNode]. *)
Fixpoint find_sink_node (v : list KMer) : Z :=
  match v with
  | [] => UNKNOWN
  | k :: v' =>
      if decide (Key_label (key k) = 0) then Node_id (from k)
      else find_sink_node v'
  end.

(** [markSinkNode(kmers)] *)
Definition markSinkNode (v : list KMer) : list KMer :=
  let sink_node := find_sink_node v in
  map (fun k => if decide (Node_id (to k) = sink_node ∧ 0 < Node_offset (to k))
                then makeSorted k else k) v.

End Readers.

(** ** The process environment

    The files by name, the names that cannot be opened for writing, what has
    been printed on [std::cerr], and how many temporary names have been handed
    out.  A file that is not in [fs] cannot be opened for reading. *)
Record World : Type := mkWorld {
  fs : gmap string (list ascii);
  unwritable : gset string;
  cerr : list Diagnostic;
  temp_count : nat
}.

(** The world after [ds] has been printed. *)
Definition printing (w : World) (ds : list Diagnostic) : World :=
  {| fs := fs w; unwritable := unwritable w;
     cerr := cerr w ++ ds; temp_count := temp_count w |}.

Definition print (ds : list Diagnostic) : M World unit :=
  fun w => Done tt (printing w ds).

Definition set_file (name : string) (content : list ascii) (w : World) : World :=
  {| fs := <[name := content]> (fs w); unwritable := unwritable w;
     cerr := cerr w; temp_count := temp_count w |}.

(** [std::ifstream::open]: the stream, or [None] when [!input]. *)
Definition open_in (name : string) : M World (option istream) :=
  fun w => Done (istream_of <$> fs w !! name) w.

(** Opening an [std::ofstream]: [false] when [!out]; otherwise the file
    exists and is empty. *)
Definition open_out (name : string) : M World bool :=
  fun w => if decide (name ∈ unwritable w) then Done false w
           else Done true (set_file name [] w).

(** What has been written to an open output file once it is closed. *)
Definition write_out (name : string) (content : list ascii) : M World unit :=
  fun w => Done tt (set_file name content w).

(** [remove(filename)] *)
Definition remove_file (name : string) : M World unit :=
  fun w => Done tt {| fs := delete name (fs w); unwritable := unwritable w;
                      cerr := cerr w; temp_count := temp_count w |}.

(** Runs a reader on a vector, its diagnostics going to [std::cerr]. *)
Definition run_reader {A} (m : M Reading A) (v : list KMer) : M World (A * list KMer) :=
  fun w =>
    match m {| kmers := v; printed := cerr w |} with
    | Done a st => Done (a, kmers st)
                     {| fs := fs w; unwritable := unwritable w;
                        cerr := printed st; temp_count := temp_count w |}
    | Exit st => Exit {| fs := fs w; unwritable := unwritable w;
                          cerr := printed st; temp_count := temp_count w |}
    | Undefined => Undefined
    | OutOfFuel => OutOfFuel
    end.

(** ** InputGraph *)

Module InputGraph.
Record t : Type := mk {
  binary : bool;
  kmer_count : Z;
  kmer_length : Z;
  filenames : list string;
  sizes : list Z
}.

Definition BINARY_EXTENSION : string := ".graph".
Definition TEXT_EXTENSION : string := ".gcsa2".

Definition files (g : t) : nat := length (filenames g).
Definition size (g : t) : Z := kmer_count g.
Definition k (g : t) : Z := kmer_length g.

Definition filename (g : t) (file : nat) : string :=
  default EmptyString (filenames g !! file).

Definition set_kmer_length (g : t) (new_k : Z) : t :=
  {| binary := binary g; kmer_count := kmer_count g; kmer_length := new_k;
     filenames := filenames g; sizes := sizes g |}.

(** [this->kmer_count += n; this->sizes[file] += n;] *)
Definition add_kmer_count (g : t) (n : Z) : t :=
  {| binary := binary g; kmer_count := wrap (kmer_count g + n);
     kmer_length := kmer_length g; filenames := filenames g; sizes := sizes g |}.

Definition add_size (g : t) (file : nat) (n : Z) : t :=
  {| binary := binary g; kmer_count := kmer_count g;
     kmer_length := kmer_length g; filenames := filenames g;
     sizes := alter (fun s => wrap (s + n)) file (sizes g) |}.

Section Methods.
Context `{Collaborators}.

(** [InputGraph::open(input, file)] *)
Definition open (g : t) (file : nat) : M World istream :=
  if decide (files g ≤ file)%nat
  then let* _ := print [InputGraphInvalidFile file] in exit_failure
  else
    let* input := open_in (filename g file) in
    match input with
    | None => let* _ := print [InputGraphCannotOpen (filename g file)] in
              exit_failure
    | Some inp => ret inp
    end.

(** [InputGraph::checkK(new_k, file)] *)
Definition checkK (g : t) (new_k : Z) (file : nat) : M World unit :=
  if decide (new_k ≠ k g)
  then let* _ := print [CheckKInvalidLength (filename g file);
                        CheckKExpected (k g) new_k] in
       exit_failure
  else ret tt.

(** [InputGraph::setK(new_k, file)] *)
Definition setK (g : t) (new_k : Z) (file : nat) : M World t :=
  let g := if decide (k g = UNKNOWN) then set_kmer_length g new_k else g in
  let* _ := checkK g new_k file in
  ret g.

(** The loop of the constructor over the sections of a binary file.  The
    offset given to [seekg] is signed: a byte count of 2^63 or more is
    outside the model. *)
Fixpoint scan_binary (fuel : nat) (input : istream) (file : nat) (g : t)
  : M World t :=
  match fuel with
  | O => fun _ => OutOfFuel
  | S fuel' =>
      let '(bytes, input) := istream_read sizeof_header input in
      let header := header_of_bytes bytes in
      if eofbit input then ret g
      else
        let g := add_kmer_count g (GraphFileHeader.kmer_count header) in
        let* g := setK g (GraphFileHeader.kmer_length header) file in
        let g := add_size g file (GraphFileHeader.kmer_count header) in
        let n := wrap (GraphFileHeader.kmer_count header * Z.of_nat sizeof_KMer) in
        if decide (2 ^ 63 ≤ n) then fun _ => Undefined
        else scan_binary fuel' (istream_seekg (Z.to_nat n) input) file g
  end.

(** The loop of the constructor over the lines of a text file. *)
Fixpoint scan_text (fuel : nat) (input : istream) (file : nat) (g : t)
  : M World t :=
  match fuel with
  | O => fun _ => OutOfFuel
  | S fuel' =>
      let '(line, input) := istream_getline input in
      if eofbit input then ret g
      else
        let temp := parseKMer line in
        let* g := setK g temp.1 file in
        let g := add_size (add_kmer_count g temp.2) file temp.2 in
        scan_text fuel' input file g
  end.

(** One iteration of the constructor's loop over the files. *)
Definition scan_file (g : t) (file : nat) : M World t :=
  let* input := open g file in
  if binary g then scan_binary (S (length (buf input))) input file g
  else scan_text (S (length (buf input))) input file g.

Fixpoint scan_files (todo : list nat) (g : t) : M World t :=
  match todo with
  | [] => ret g
  | file :: todo' => let* g := scan_file g file in scan_files todo' g
  end.

(** [InputGraph::InputGraph(file_count, base_names, binary_format)] *)
Definition create (base_names : list string) (binary_format : bool) : M World t :=
  let g := {| binary := binary_format; kmer_count := 0; kmer_length := UNKNOWN;
              filenames :=
                map (fun b => b +:+ (if binary_format then BINARY_EXTENSION
                                     else TEXT_EXTENSION)) base_names;
              sizes := replicate (length base_names) 0 |} in
  scan_files (seq 0 (files g)) g.

(** [InputGraph::read(kmers, file, append)] *)
Definition read_file (g : t) (v : list KMer) (file : nat) (append : bool)
  : M World (list KMer) :=
  let v := if append then v else [] in
  let* input := open g file in
  let* r := run_reader (if binary g then readBinary input append
                        else readText input append) v in
  let* _ := checkK g r.1 file in
  ret (if append then r.2 else markSinkNode r.2).

Fixpoint read_files (g : t) (todo : list nat) (v : list KMer)
  : M World (list KMer) :=
  match todo with
  | [] => ret v
  | file :: todo' => let* v := read_file g v file true in read_files g todo' v
  end.

(** [InputGraph::read(kmers)] *)
Definition read (g : t) : M World (list KMer) :=
  let* v := read_files g (seq 0 (files g)) [] in
  ret (markSinkNode v).

(** The first loop of [InputGraph::read(keys)]: [kmers[i]] for
    [i < sizes[file]] must exist. *)
Fixpoint read_file_keys (g : t) (todo : list nat) (keys : list Z)
  : M World (list Z) :=
  match todo with
  | [] => ret keys
  | file :: todo' =>
      let* v := read_file g [] file false in
      let n := Z.to_nat (default 0 (sizes g !! file)) in
      if decide (n ≤ length v)%nat
      then read_file_keys g todo' (keys ++ map key (take n v))
      else fun _ => Undefined
  end.

(** The merging loop of [InputGraph::read(keys)], [n] iterations from
    [j]: the index [i] and the vector afterwards. *)
Fixpoint merge_keys (n j i : nat) (keys : list Z) : nat * list Z :=
  match n with
  | O => (i, keys)
  | S n' =>
      let ki := default 0 (keys !! i) in
      let kj := default 0 (keys !! j) in
      if decide (Key_label ki = Key_label kj)
      then merge_keys n' (S j) i (<[i := Key_merge ki kj]> keys)
      else merge_keys n' (S j) (S i) (<[S i := kj]> keys)
  end.

(** [InputGraph::read(keys)]; [key_type] is an unsigned integer, sorted
    by [<]. *)
Definition read_keys (g : t) : M World (list Z) :=
  let* keys := read_file_keys g (seq 0 (files g)) [] in
  let keys := merge_sort Z.le keys in
  let '(i, keys) := merge_keys (length keys - 1) 1 0 keys in
  ret (resize (i + 1) 0 keys).

End Methods.
End InputGraph.

(** [writeKMers(base_name, kmers, kmer_length)] *)
Definition writeKMers `{Collaborators} (base_name : string) (v : list KMer)
    (kmer_length : Z) : M World unit :=
  let filename := base_name +:+ InputGraph.BINARY_EXTENSION in
  let* output := open_out filename in
  if negb output
  then let* _ := print [WriteKMersCannotOpen filename] in ret tt
  else write_out filename (writeBinary [] v kmer_length).

(** ** PathGraph *)

Module PathGraph.
Record t : Type := mk {
  filenames : list string;
  sizes : list Z;
  rank_counts : list Z;
  path_count : Z;
  rank_count : Z;
  order : Z;
  unique : Z;
  unsorted : Z;
  nondeterministic : Z
}.

Definition PREFIX : string := ".gcsa".

Definition files (g : t) : nat := length (filenames g).
Definition size (g : t) : Z := path_count g.
Definition ranks (g : t) : Z := rank_count g.
Definition k (g : t) : Z := order g.

Definition filename (g : t) (file : nat) : string :=
  default EmptyString (filenames g !! file).

(** [tempFile(PREFIX)]: the next temporary name. *)
Definition temp_file `{Collaborators} : M World string :=
  fun w => Done (tempFile PREFIX (temp_count w))
             {| fs := fs w; unwritable := unwritable w; cerr := cerr w;
                temp_count := S (temp_count w) |}.

Section Methods.
Context `{Collaborators}.

(** The bookkeeping at the head of the constructor's loop body. *)
Definition add_shard (g : t) (temp_file : string) (size : Z) : t :=
  {| filenames := filenames g ++ [temp_file];
     sizes := sizes g ++ [size];
     rank_counts := rank_counts g ++ [wrap (2 * size)];
     path_count := wrap (path_count g + size);
     rank_count := wrap (rank_count g + wrap (2 * size));
     order := order g; unique := unique g; unsorted := unsorted g;
     nondeterministic := nondeterministic g |}.

(** The conversion loop over the sorted k-mers of one file: the bytes
    written to the shard. *)
Fixpoint serialize_kmers (key_rank : Z -> Z) (v : list KMer)
    (temp_labels : list Z) : list ascii :=
  match v with
  | [] => []
  | kmer :: v' =>
      let kmer := {| key := Key_replace (key kmer) (key_rank (Key_label (key kmer)));
                     from := from kmer; to := to kmer; sorted := sorted kmer |} in
      let '(temp, temp_labels) := PathNode_from_KMer kmer temp_labels in
      PathNode_serialize temp temp_labels ++ serialize_kmers key_rank v' []
  end.

(** One iteration of the constructor's loop over the files of the source.
    [source.read(kmers, file)] is the single-file read without appending. *)
Definition create_shard (source : InputGraph.t) (key_rank : Z -> Z)
    (g : t) (file : nat) : M World t :=
  let* temp_file := temp_file in
  let g := add_shard g temp_file (default 0 (InputGraph.sizes source !! file)) in
  let* out := open_out temp_file in
  if negb out
  then let* _ := print [PathGraphCannotOpenOutput temp_file] in exit_failure
  else
    let* v := InputGraph.read_file source [] file false in
    let v := sort_kmers v in
    let* _ := write_out temp_file
                (serialize_kmers key_rank v PathNode_dummyRankVector) in
    ret g.

Fixpoint create_shards (source : InputGraph.t) (key_rank : Z -> Z)
    (todo : list nat) (g : t) : M World t :=
  match todo with
  | [] => ret g
  | file :: todo' =>
      let* g := create_shard source key_rank g file in
      create_shards source key_rank todo' g
  end.

(** [PathGraph::PathGraph(source, key_exists)]; [key_rank] is the rank
    support built over [key_exists]. *)
Definition create (source : InputGraph.t) (key_rank : Z -> Z) : M World t :=
  let g := {| filenames := []; sizes := []; rank_counts := [];
              path_count := 0; rank_count := 0; order := InputGraph.k source;
              unique := UNKNOWN; unsorted := UNKNOWN;
              nondeterministic := UNKNOWN |} in
  create_shards source key_rank (seq 0 (InputGraph.files source)) g.

(** The loop of the second constructor: a temporary name for every file. *)
Fixpoint temp_files (n : nat) : M World (list string) :=
  match n with
  | O => ret []
  | S n' => let* name := temp_file in
            let* names := temp_files n' in
            ret (name :: names)
  end.

(** [PathGraph::PathGraph(file_count, path_order)] *)
Definition create_empty (file_count : nat) (path_order : Z) : M World t :=
  let* names := temp_files file_count in
  ret {| filenames := names; sizes := replicate file_count 0;
         rank_counts := replicate file_count 0;
         path_count := 0; rank_count := 0; order := path_order;
         unique := 0; unsorted := 0; nondeterministic := 0 |}.

Fixpoint remove_files (names : list string) : M World unit :=
  match names with
  | [] => ret tt
  | name :: names' => let* _ := remove_file name in remove_files names'
  end.

(** [PathGraph::clear()] *)
Definition clear (g : t) : M World t :=
  let* _ := remove_files (filenames g) in
  ret {| filenames := []; sizes := []; rank_counts := [];
         path_count := 0; rank_count := 0; order := 0;
         unique := UNKNOWN; unsorted := UNKNOWN;
         nondeterministic := UNKNOWN |}.

(** [PathGraph::swap(another)]: [*this] and [another] afterwards. *)
Definition swap (g another : t) : t * t :=
  ({| filenames := filenames another; sizes := sizes another;
      rank_counts := rank_counts another;
      path_count := path_count another; rank_count := rank_count another;
      order := order another;
      unique := unique another; unsorted := unsorted another;
      nondeterministic := nondeterministic another |},
   {| filenames := filenames g; sizes := sizes g;
      rank_counts := rank_counts g;
      path_count := path_count g; rank_count := rank_count g;
      order := order g;
      unique := unique g; unsorted := unsorted g;
      nondeterministic := nondeterministic g |}).

(** [PathGraph::open(input, file)] *)
Definition open (g : t) (file : nat) : M World istream :=
  if decide (files g ≤ file)%nat
  then let* _ := print [PathGraphInvalidFile file] in exit_failure
  else
    let* input := open_in (filename g file) in
    match input with
    | None => let* _ := print [PathGraphCannotOpen (filename g file)] in
              exit_failure
    | Some inp => ret inp
    end.

(** [for(i = 0; i < path_count; i++) paths.push_back(PathNode(input, labels))],
    [n] iterations. *)
Fixpoint read_paths (n : nat) (input : istream) (paths : list PathNode)
    (labels : list Z) : list PathNode * list Z :=
  match n with
  | O => (paths, labels)
  | S n' =>
      let '(node, input, labels) := PathNode_read input labels in
      read_paths n' input (paths ++ [node]) labels
  end.

(** [PathGraph::read(paths, labels, file, append)] *)
Definition read_file (g : t) (paths : list PathNode) (labels : list Z)
    (file : nat) (append : bool) : M World (list PathNode * list Z) :=
  let paths := if append then paths else [] in
  let labels := if append then labels else [] in
  let* input := open g file in
  ret (read_paths (Z.to_nat (path_count g)) input paths labels).

Fixpoint read_files (g : t) (todo : list nat) (paths : list PathNode)
    (labels : list Z) : M World (list PathNode * list Z) :=
  match todo with
  | [] => ret (paths, labels)
  | file :: todo' =>
      let* r := read_file g paths labels file true in
      read_files g todo' r.1 r.2
  end.

(** [PathGraph::read(paths, labels)] *)
Definition read (g : t) : M World (list PathNode * list Z) :=
  let* r := read_files g (seq 0 (files g)) [] [] in
  ret (sort_paths r.2 r.1, r.2).

End Methods.
End PathGraph.

(** ** PathGraphBuilder *)

Module PathGraphBuilder.
(** The graph under construction and the names of the open output files. *)
Record t : Type := mk { graph : PathGraph.t; files : list string }.

Section Methods.
Context `{Collaborators}.

Fixpoint open_files (names : list string) : M World unit :=
  match names with
  | [] => ret tt
  | name :: names' =>
      let* out := open_out name in
      if negb out
      then let* _ := print [BuilderCannotOpenOutput name] in exit_failure
      else open_files names'
  end.

(** [PathGraphBuilder::PathGraphBuilder(file_count, path_order)] *)
Definition create (file_count : nat) (path_order : Z) : M World t :=
  let* g := PathGraph.create_empty file_count path_order in
  let* _ := open_files (PathGraph.filenames g) in
  ret {| graph := g; files := PathGraph.filenames g |}.

(** [PathGraphBuilder::close()] *)
Definition close (b : t) : t := {| graph := graph b; files := [] |}.
End Methods.
End PathGraphBuilder.

(** ** A reference instantiation of the collaborators

    Little-endian 64-bit fields without padding, a three-bit alphabet packed
    above sixteen bits of predecessor and successor marks, node positions
    written [id:offset] with a ten-bit offset, and path records that carry two
    ranks.  It serves to run the model on concrete files. *)
Module Reference.

Fixpoint le_bytes (n : nat) (z : Z) : list ascii :=
  match n with
  | O => []
  | S n' => ascii_of_N (Z.to_N (z mod 256)) :: le_bytes n' (z / 256)
  end.

Fixpoint le_value (bytes : list ascii) : Z :=
  match bytes with
  | [] => 0
  | b :: bytes' => Z.of_N (N_of_ascii b) + 256 * le_value bytes'
  end.

Definition field (i : nat) (bytes : list ascii) : Z :=
  le_value (take 8 (drop (8 * i) bytes)).

Definition header_le_bytes (h : GraphFileHeader.t) : list ascii :=
  le_bytes 8 (GraphFileHeader.flags h) ++
  le_bytes 8 (GraphFileHeader.kmer_count h) ++
  le_bytes 8 (GraphFileHeader.kmer_length h).

Definition header_of_le_bytes (bytes : list ascii) : GraphFileHeader.t :=
  {| GraphFileHeader.flags := field 0 bytes;
     GraphFileHeader.kmer_count := field 1 bytes;
     GraphFileHeader.kmer_length := field 2 bytes |}.

Definition kmer_le_bytes (k : KMer) : list ascii :=
  le_bytes 8 (key k) ++ le_bytes 8 (from k) ++ le_bytes 8 (to k) ++
  [if sorted k then "001"%char else "000"%char].

Definition kmer_of_le_bytes (bytes : list ascii) : KMer :=
  {| key := field 0 bytes; from := field 1 bytes; to := field 2 bytes;
     sorted := bool_decide (drop 24 bytes ≠ ["000"%char]) |}.

Definition comp (c : ascii) : Z :=
  if decide (c = "A"%char) then 1 else if decide (c = "C"%char) then 2
  else if decide (c = "G"%char) then 3 else if decide (c = "T"%char) then 4
  else if decide (c = "N"%char) then 5 else 0.

Definition encode_label (label : list ascii) : Z :=
  foldl (fun v c => Z.lor (Z.shiftl v 3) (comp c)) 0 label.

Definition chars (s : list ascii) : Z :=
  foldl (fun v c => if decide (c = COMMA) then v
                    else Z.lor v (Z.shiftl 1 (comp c))) 0 s.

Fixpoint decimal (acc : Z) (s : list ascii) : Z :=
  match s with
  | [] => acc
  | c :: s' =>
      let d := Z.of_N (N_of_ascii c) - 48 in
      if decide (0 ≤ d ≤ 9) then decimal (10 * acc + d) s' else acc
  end.

Definition encode_node (s : list ascii) : Z :=
  let '(id, offset) := split_at_delim ":"%char s in
  Z.lor (Z.shiftl (decimal 0 id) 10) (decimal 0 (default [] offset)).

Definition kmer_of_tokens (tokens : list (list ascii)) (successor : nat) : KMer :=
  let token i := default [] (tokens !! i) in
  {| key := Z.lor (Z.shiftl (encode_label (token 0%nat)) 16)
              (Z.lor (Z.shiftl (chars (token 2%nat)) 8) (chars (token 3%nat)));
     from := encode_node (token 1%nat);
     to := encode_node (token successor);
     sorted := false |}.

Record path_node : Type := mk_path_node {
  node_from : Z; node_to : Z; node_sorted : bool; node_ranks : list Z
}.

Definition path_node_of_kmer (k : KMer) (labels : list Z) : path_node * list Z :=
  let label := Z.shiftr (key k) 16 in
  ({| node_from := from k; node_to := to k; node_sorted := sorted k;
      node_ranks := [label; label] |},
   labels ++ [label; label]).

Definition path_node_bytes (node : path_node) (labels : list Z) : list ascii :=
  le_bytes 8 (node_from node) ++ le_bytes 8 (node_to node) ++
  le_bytes 8 (if node_sorted node then 1 else 0) ++
  le_bytes 8 (Z.of_nat (length (node_ranks node))) ++
  concat (map (le_bytes 8) (node_ranks node)).

Definition path_node_read (input : istream) (labels : list Z)
  : path_node * istream * list Z :=
  let '(head, input) := istream_read 32 input in
  let n := Z.to_nat (field 3 head) in
  let '(body, input) := istream_read (8 * n) input in
  let ranks := map (fun i => field i body) (seq 0 n) in
  ({| node_from := field 0 head; node_to := field 1 head;
      node_sorted := bool_decide (field 2 head ≠ 0); node_ranks := ranks |},
   input, labels ++ ranks).

Definition temp_name (prefix : string) (n : nat) : string :=
  prefix +:+ String (ascii_of_nat (48 + n)) EmptyString.

(** The orders handed to the sort: k-mers by key, path records by their
    first rank. *)
Definition KMer_le (a b : KMer) : Prop := key a ≤ key b.

Definition PathNode_le (a b : path_node) : Prop :=
  default 0 (head (node_ranks a)) ≤ default 0 (head (node_ranks b)).

#[local] Instance KMer_le_dec : RelDecision KMer_le :=
  fun a b => decide (key a ≤ key b).

#[local] Instance PathNode_le_dec : RelDecision PathNode_le :=
  fun a b => decide (default 0 (head (node_ranks a)) ≤ default 0 (head (node_ranks b))).

Definition collaborators : Collaborators :=
  {| MAX_LENGTH := 16;
     UNKNOWN := SIZE_MAX;
     Key_label := fun key => Z.shiftr key 16;
     Key_merge := fun key1 key2 => Z.lor key1 (Z.land key2 65535);
     Key_replace := fun key v => Z.lor (Z.shiftl v 16) (Z.land key 65535);
     Node_id := fun node => Z.shiftr node 10;
     Node_offset := fun node => Z.land node 1023;
     KMer_from_tokens := kmer_of_tokens;
     KMer_default := {| key := 0; from := 0; to := 0; sorted := false |};
     sizeof_KMer := 25;
     KMer_bytes := kmer_le_bytes;
     KMer_of_bytes := kmer_of_le_bytes;
     sizeof_header := 24;
     header_bytes := header_le_bytes;
     header_of_bytes := header_of_le_bytes;
     sort_kmers := merge_sort KMer_le;
     PathNode := path_node;
     PathNode_dummyRankVector := [0; 0];
     PathNode_from_KMer := path_node_of_kmer;
     PathNode_serialize := path_node_bytes;
     PathNode_read := path_node_read;
     sort_paths := fun labels paths => merge_sort PathNode_le paths;
     tempFile := temp_name |}.

(** A world with the given files, nothing printed yet. *)
Definition world (files : list (string * list ascii)) (locked : list string) : World :=
  {| fs := list_to_map files; unwritable := list_to_set locked;
     cerr := []; temp_count := 0 |}.

(** The bytes of a text: its lines, each ended by a newline; the fields of
    a line joined by tabs. *)
Definition line_of (fields : list string) : list ascii :=
  match fields with
  | [] => []
  | f :: fields' =>
      list_ascii_of_string f ++
      concat (map (fun f => TAB :: list_ascii_of_string f) fields')
  end.

Definition text_of (lines : list (list string)) : list ascii :=
  concat (map (fun l => line_of l ++ [NEWLINE]) lines).

End Reference.

(** * The vocabulary of the properties *)

Definition sum_sizes (l : list Z) : Z := foldr Z.add 0 l.

(** The vector a reader starts from. *)
Definition start (append : bool) (st : Reading) : Reading :=
  {| kmers := if append then kmers st else []; printed := printed st |}.

Definition printing_r (st : Reading) (ds : list Diagnostic) : Reading :=
  {| kmers := kmers st; printed := printed st ++ ds |}.

(** The bytes of a sequence of complete lines. *)
Definition lines_bytes (lines : list (list ascii)) : list ascii :=
  concat (map (fun line => line ++ [NEWLINE]) lines).

(** What [tokenize] prints for the lines it rejects. *)
Definition rejections (lines : list (list ascii)) : list Diagnostic :=
  concat (map (fun line => [TokenizeTokenCount; TokenizeLineWas line]) lines).

(** The object representation restores the value it was taken from. *)
Definition header_layout_ok `{Collaborators} (h : GraphFileHeader.t) : Prop :=
  length (header_bytes h) = sizeof_header ∧ header_of_bytes (header_bytes h) = h.

Definition KMer_layout_ok `{Collaborators} (k : KMer) : Prop :=
  length (KMer_bytes k) = sizeof_KMer ∧ KMer_of_bytes (KMer_bytes k) = k.

(** The bytes of a binary shard made of sections: a header and its payload
    each. *)
Definition section_bytes `{Collaborators}
    (s : GraphFileHeader.t * list ascii) : list ascii :=
  header_bytes s.1 ++ s.2.

Definition sections_bytes `{Collaborators}
    (ss : list (GraphFileHeader.t * list ascii)) : list ascii :=
  concat (map section_bytes ss).

(** A section whose header is restored by its object representation and
    whose payload has the size the header declares, a size that fits the
    signed stream offsets. *)
Definition section_ok `{Collaborators} (s : GraphFileHeader.t * list ascii) : Prop :=
  header_layout_ok s.1 ∧
  0 ≤ GraphFileHeader.kmer_count s.1 ∧
  GraphFileHeader.kmer_count s.1 * Z.of_nat sizeof_KMer < 2 ^ 63 ∧
  length s.2 = Z.to_nat (GraphFileHeader.kmer_count s.1 * Z.of_nat sizeof_KMer).

(** What the constructor's scan observes of a section or of a line: the
    length and the number of k-mers. *)
Definition section_observation (s : GraphFileHeader.t * list ascii) : Z * Z :=
  (GraphFileHeader.kmer_length s.1, GraphFileHeader.kmer_count s.1).

(** A shard file with its observations, in either format. *)
Definition shard_observations `{Collaborators} (binary_format : bool)
    (content : list ascii) (obs : list (Z * Z)) : Prop :=
  if binary_format
  then exists ss, Forall section_ok ss ∧ content = sections_bytes ss ∧
                  obs = map section_observation ss
  else exists lines, Forall (fun line => NEWLINE ∉ line) lines ∧
                     content = lines_bytes lines ∧ obs = map parseKMer lines.

(** The observations of all shards in the order of the scan, each with the
    number of its file. *)
Definition tagged (shards : list (list (Z * Z))) : list (nat * (Z * Z)) :=
  concat (imap (fun file obs => map (pair file) obs) shards).

(** The effect of the scan on the graph, observation by observation. *)
Fixpoint absorb `{Collaborators} (g : InputGraph.t) (obs : list (nat * (Z * Z)))
  : M World InputGraph.t :=
  match obs with
  | [] => ret g
  | (file, (len, n)) :: obs' =>
      let* g := InputGraph.setK g len file in
      absorb (InputGraph.add_size (InputGraph.add_kmer_count g n) file n) obs'
  end.

(** The shard files of a graph, from file number [start] on, hold the given
    observations. *)
Definition shards_hold `{Collaborators} (g : InputGraph.t) (w : World) (start : nat)
    (shards : list (list (Z * Z))) : Prop :=
  forall i obs, shards !! i = Some obs ->
    (start + i < InputGraph.files g)%nat ∧
    exists content, fs w !! InputGraph.filename g (start + i) = Some content ∧
                    shard_observations (InputGraph.binary g) content obs.

(** The state of the length in a reader's loop when a section or line of
    length [len] is let through: nothing established yet and [len] valid, or
    [len] the established length. *)
Definition lets_through `{Collaborators} (kmer_length len : Z) : Prop :=
  (kmer_length = SIZE_MAX ∧ 0 < len ≤ MAX_LENGTH) ∨
  (kmer_length ≠ SIZE_MAX ∧ len = kmer_length).

(** Whether [tokenize] rejects a line, and the length of the first field of
    a line it accepts. *)
Definition rejected (line : list ascii) : Prop :=
  length (getline_all TAB line) ≠ 5%nat.

Definition accepted_with (len : Z) (line : list ascii) : Prop :=
  length (getline_all TAB line) = 5%nat ∧
  Z.of_nat (length (default [] (getline_all TAB line !! 0%nat))) = len.

#[local] Instance rejected_dec (line : list ascii) : Decision (rejected line) :=
  decide (length (getline_all TAB line) ≠ 5%nat).

(** Modelled on the words of the specification: adjacent keys with equal
    label are coalesced by [Key::merge], [cur] being the key in hand. *)
Fixpoint coalesce `{Collaborators} (cur : Z) (keys : list Z) : list Z :=
  match keys with
  | [] => [cur]
  | k :: keys' =>
      if decide (Key_label cur = Key_label k)
      then coalesce (Key_merge cur k) keys'
      else cur :: coalesce k keys'
  end.

(** The test of the second loop of [markSinkNode]. *)
Definition past_sink `{Collaborators} (sink_node : Z) (k : KMer) : Prop :=
  Node_id (to k) = sink_node ∧ 0 < Node_offset (to k).

(** The fields that [setK], [add_kmer_count] and [add_size] leave alone. *)
Definition same_files (g g' : InputGraph.t) : Prop :=
  InputGraph.binary g' = InputGraph.binary g ∧
  InputGraph.filenames g' = InputGraph.filenames g ∧
  length (InputGraph.sizes g') = length (InputGraph.sizes g).

Definition kmer_count_is_sum (g : InputGraph.t) : Prop :=
  InputGraph.kmer_count g = wrap (sum_sizes (InputGraph.sizes g)) ∧
  Forall (fun s => 0 ≤ s) (InputGraph.sizes g).

Definition path_counts_are_sums (g : PathGraph.t) : Prop :=
  PathGraph.path_count g = wrap (sum_sizes (PathGraph.sizes g)) ∧
  PathGraph.rank_count g = wrap (sum_sizes (PathGraph.rank_counts g)).

(** Every shard has twice as many ranks as paths, and so has the graph. *)
Definition two_ranks_per_path (g : PathGraph.t) : Prop :=
  PathGraph.rank_counts g = map (fun s => wrap (2 * s)) (PathGraph.sizes g) ∧
  PathGraph.rank_count g = wrap (2 * PathGraph.path_count g).

(** The world after a temporary name has been handed out. *)
Definition named (w : World) : World :=
  {| fs := fs w; unwritable := unwritable w; cerr := cerr w;
     temp_count := S (temp_count w) |}.

(** The bytes that successive calls of [writeBinary] with the same length
    leave in a stream: one section for every vector. *)
Definition written `{Collaborators} (L : Z) (vs : list (list KMer)) : list ascii :=
  foldl (fun out v => writeBinary out v L) [] vs.

(** Vectors that [writeBinary] and [readBinary] move without loss: the
    object representations restore the header and the records, and the byte
    count of each vector fits the signed stream sizes. *)
Definition writable_vector `{Collaborators} (L : Z) (v : list KMer) : Prop :=
  header_layout_ok (GraphFileHeader.make (Z.of_nat (length v)) L) ∧
  Forall KMer_layout_ok v ∧
  Z.of_nat (length v) * Z.of_nat sizeof_KMer < 2 ^ 63.

(** The records [readText] loads for a line: none for a line [tokenize]
    rejects, one for every successor token otherwise. *)
Definition records_of_line `{Collaborators} (line : list ascii) : list KMer :=
  let '(ok, tokens, _) := tokenize line [] in
  if ok then map (KMer_from_tokens tokens) (seq 4 (length tokens - 4)) else [].

(** A world differs from another by what was printed only. *)
Definition only_printed (w w' : World) : Prop :=
  exists ds, w' = printing w ds.

(** The state a computation stops in, by returning or by [exit]. *)
Definition final {S A} (o : outcome S A) : option S :=
  match o with
  | Done _ s | Exit s => Some s
  | Undefined | OutOfFuel => None
  end.

(** A computation that, when it stops, has changed nothing of the world but
    what was printed: no file, no permission, no temporary name. *)
Definition keeps_files {A} (m : M World A) : Prop :=
  forall w w', final (m w) = Some w' -> only_printed w w'.


(** * Example files, for the reference collaborators *)

(** A binary shard of two records of length 4, for the reference
    collaborators, and a world that holds it as [a.graph]. *)
Definition two_kmers : list KMer :=
  [ {| key := 65537; from := 2048; to := 3073; sorted := false |};
    {| key := 131074; from := 3072; to := 4096; sorted := false |} ].

Definition two_kmers_world : World :=
  Reference.world
    [("a.graph"%string, writeBinary (H := Reference.collaborators) [] two_kmers 4)] [].

(** Two binary shards of one record each, [a.graph] and [b.graph]. *)
Definition two_shards_world : World :=
  Reference.world
    [("a.graph"%string,
      writeBinary (H := Reference.collaborators) [] (take 1 two_kmers) 4);
     ("b.graph"%string,
      writeBinary (H := Reference.collaborators) [] (drop 1 two_kmers) 4)] [].

(** A text whose first accepted line has a first field of 17 characters,
    after a line of two fields. *)
Definition long_label_line : list ascii :=
  Reference.line_of ["ACGTACGTACGTACGTA"; "1"; "A"; "C"; "2"]%string.

Definition two_field_line : list ascii := Reference.line_of ["AC"; "X"]%string.

(** Two text shards for the reference collaborators: a line of two fields
    alone, and the same line after a well-formed line of length 3. *)
Definition short_line_world : World :=
  Reference.world
    [("a.gcsa2"%string, Reference.text_of [["AC"; "X"]]%string)] [].

Definition short_line_after_kmer_world : World :=
  Reference.world
    [("a.gcsa2"%string,
      Reference.text_of [["ACG"; "1"; "A"; "C"; "2"]; ["AC"; "X"]]%string)] [].

(** Two binary shards for the reference collaborators whose single headers
    declare the lengths 2^64 - 1 and 5, without records; and two shards that
    declare the lengths 4 (two records) and 5 (no record). *)
Definition unknown_then_5_world : World :=
  Reference.world
    [("a.graph"%string,
      Reference.header_le_bytes (GraphFileHeader.make 0 SIZE_MAX));
     ("b.graph"%string,
      Reference.header_le_bytes (GraphFileHeader.make 0 5))] [].

Definition lengths_4_and_5_world : World :=
  Reference.world
    [("a.graph"%string, writeBinary (H := Reference.collaborators) [] two_kmers 4);
     ("b.graph"%string, writeBinary (H := Reference.collaborators) [] [] 5)] [].

(** Lines of five and of six fields for the reference collaborators, the
    fifth field naming two successors; a text shard [t.gcsa2] of two lines of
    length 3 with three successors in all; and a world in which the first
    temporary name of a path graph cannot be written. *)
Definition two_successor_line : list ascii :=
  Reference.line_of ["ACG"; "1"; "A"; "C"; "2,3"]%string.

Definition six_field_line : list ascii :=
  Reference.line_of ["ACG"; "1"; "A"; "C"; "2,3"; "x"]%string.

Definition one_successor_line : list ascii :=
  Reference.line_of ["CGT"; "2"; "A"; "C"; "4"]%string.

Definition two_lines_world : World :=
  Reference.world
    [("t.gcsa2"%string, lines_bytes [two_successor_line; one_successor_line])] [].

Definition empty_shard_world : World :=
  Reference.world [("a.graph"%string, [])] [].

Definition locked_temp_world : World :=
  Reference.world [] [".gcsa1"%string].


(** * Properties *)

(** ** Arithmetic and list facts used throughout *)

Lemma wrap_wrap z : wrap (wrap z) = wrap z.
Proof. unfold wrap. apply Z.mod_mod. lia. Qed.

Lemma wrap_range z : 0 ≤ wrap z < 2 ^ 64.
Proof. unfold wrap. apply Z.mod_pos_bound. lia. Qed.

Lemma wrap_small z : 0 ≤ z < 2 ^ 64 -> wrap z = z.
Proof. unfold wrap. intros. apply Z.mod_small. lia. Qed.

Lemma wrap_add_l a b : wrap (wrap a + b) = wrap (a + b).
Proof. unfold wrap. apply Zplus_mod_idemp_l. Qed.

Lemma wrap_add_r a b : wrap (a + wrap b) = wrap (a + b).
Proof. unfold wrap. apply Zplus_mod_idemp_r. Qed.

Lemma wrap_double a : wrap (2 * wrap a) = wrap (2 * a).
Proof. unfold wrap. apply Zmult_mod_idemp_r. Qed.

Lemma sum_sizes_cons x l : sum_sizes (x :: l) = x + sum_sizes l.
Proof. done. Qed.

Lemma sum_sizes_app l1 l2 : sum_sizes (l1 ++ l2) = sum_sizes l1 + sum_sizes l2.
Proof. induction l1 as [|x l1 IH]; simpl; [done | rewrite IH; lia]. Qed.

Lemma sum_sizes_replicate_0 n : sum_sizes (replicate n 0) = 0.
Proof. induction n as [|n IH]; simpl; [done | by rewrite IH]. Qed.

Lemma sum_sizes_alter (f : Z -> Z) i l x :
  l !! i = Some x ->
  sum_sizes (alter f i l) = sum_sizes l - x + f x.
Proof.
  revert i. induction l as [|y l IH]; intros [|i] Hi; simplify_eq/=; [lia|].
  rewrite (IH _ Hi). lia.
Qed.

(** ** Sink marking *)

Section SinkMarking.
Context `{Collaborators}.

Lemma find_sink_node_first (v : list KMer) i k :
  v !! i = Some k -> Key_label (key k) = 0 ->
  (forall j k', (j < i)%nat -> v !! j = Some k' -> Key_label (key k') ≠ 0) ->
  find_sink_node v = Node_id (from k).
Proof.
  revert i. induction v as [|x v IH]; intros i Hi Hk Hfirst; [done|].
  destruct i as [|i]; simplify_eq/=.
  - by rewrite decide_True.
  - rewrite decide_False; [|by apply (Hfirst 0%nat); [lia|]].
    apply (IH i); [done..|]. intros j k' Hj Hk'. apply (Hfirst (S j)); [lia|done].
Qed.

Lemma find_sink_node_none (v : list KMer) :
  Forall (fun k => Key_label (key k) ≠ 0) v -> find_sink_node v = UNKNOWN.
Proof. induction 1 as [|x v Hx _ IH]; simpl; [done | by rewrite decide_False]. Qed.

Lemma find_sink_node_ext (f : KMer -> KMer) (v : list KMer) :
  (forall k, key (f k) = key k ∧ from (f k) = from k) ->
  find_sink_node (map f v) = find_sink_node v.
Proof.
  intros Hf. induction v as [|x v IH]; simpl; [done|].
  destruct (Hf x) as [-> ->]. by rewrite IH.
Qed.

Lemma find_sink_node_markSinkNode (v : list KMer) :
  find_sink_node (markSinkNode v) = find_sink_node v.
Proof.
  unfold markSinkNode. apply find_sink_node_ext. intros k. by case_decide.
Qed.

Lemma markSinkNode_lookup (v : list KMer) i k :
  v !! i = Some k ->
  markSinkNode v !! i =
    Some (if decide (past_sink (find_sink_node v) k) then makeSorted k else k).
Proof. intros Hi. unfold markSinkNode. by rewrite list_lookup_fmap, Hi. Qed.

Lemma markSinkNode_idempotent (v : list KMer) :
  markSinkNode (markSinkNode v) = markSinkNode v.
Proof.
  unfold markSinkNode at 1. rewrite find_sink_node_markSinkNode.
  unfold markSinkNode. rewrite <- list_fmap_compose. apply list_fmap_ext.
  intros _ k _. simpl. repeat case_decide; done.
Qed.

End SinkMarking.

(** C7. [markSinkNode] takes the sink node id from the first record whose
    label is empty; afterwards a record is marked [sorted] exactly when it was
    marked before or its destination has the sink's id and a nonzero offset,
    and nothing else in the records changes; the result depends on the records
    alone, and marking a second time changes nothing. *)
Theorem markSinkNode_marks_past_sink `{Collaborators} (v : list KMer) :
  (forall i k, v !! i = Some k -> Key_label (key k) = 0 ->
     (forall j k', (j < i)%nat -> v !! j = Some k' -> Key_label (key k') ≠ 0) ->
     find_sink_node v = Node_id (from k)) ∧
  length (markSinkNode v) = length v ∧
  (forall i k, v !! i = Some k ->
     exists k', markSinkNode v !! i = Some k' ∧
       key k' = key k ∧ from k' = from k ∧ to k' = to k ∧
       (sorted k' = true <->
        sorted k = true ∨
        (Node_id (to k) = find_sink_node v ∧ 0 < Node_offset (to k)))) ∧
  markSinkNode (markSinkNode v) = markSinkNode v.
Proof.
  split_and!.
  - apply find_sink_node_first.
  - unfold markSinkNode. by rewrite length_map.
  - intros i k Hi. eexists. split; [by apply markSinkNode_lookup|].
    unfold past_sink. case_decide; simpl; split_and!; try done; tauto.
  - apply markSinkNode_idempotent.
Qed.

(** ** Reasoning about outcomes *)

Lemma bind_Done_inv {S A B} (m : M S A) (f : A -> M S B) s b s' :
  bind m f s = Done b s' -> exists a s1, m s = Done a s1 ∧ f a s1 = Done b s'.
Proof. unfold bind. destruct (m s) as [a s1| | |]; [eauto | done..]. Qed.

Lemma bind_Done {S A B} (m : M S A) (f : A -> M S B) s a s1 :
  m s = Done a s1 -> bind m f s = f a s1.
Proof. unfold bind. by intros ->. Qed.

Lemma bind_Exit {S A B} (m : M S A) (f : A -> M S B) s s1 :
  m s = Exit s1 -> bind m f s = Exit s1.
Proof. unfold bind. by intros ->. Qed.

Lemma ret_Done_inv {S A} (a b : A) (s s' : S) :
  ret a s = Done b s' -> a = b ∧ s = s'.
Proof. unfold ret. by intros [= -> ->]. Qed.

Lemma print_exit_not_Done {S A} (p : M S unit) (s : S) (a : A) (s' : S) :
  (let* _ := p in exit_failure) s = Done a s' -> False.
Proof. unfold bind, exit_failure. by destruct (p s). Qed.

(** ** The counters of an input graph *)

Section InputGraphCounters.
Context `{Collaborators}.

Lemma setK_Done_inv g new_k file w g' w' :
  InputGraph.setK g new_k file w = Done g' w' ->
  w' = w ∧ InputGraph.k g' = new_k ∧
  (InputGraph.k g = UNKNOWN ∨ InputGraph.k g = new_k) ∧
  g' = (if decide (InputGraph.k g = UNKNOWN)
        then InputGraph.set_kmer_length g new_k else g).
Proof.
  unfold InputGraph.setK, InputGraph.checkK. intros Hrun.
  apply bind_Done_inv in Hrun as (u & w1 & Hcheck & Hret).
  apply ret_Done_inv in Hret as [<- <-].
  case_decide as Hne; [by apply print_exit_not_Done in Hcheck|].
  apply ret_Done_inv in Hcheck as [_ <-].
  split_and!; [done|done| |done].
  case_decide; [by left | by right].
Qed.

Lemma counted_section g g1 file n :
  (file < length (InputGraph.sizes g))%nat ->
  kmer_count_is_sum g ->
  InputGraph.sizes g1 = InputGraph.sizes g ->
  InputGraph.kmer_count g1 = wrap (InputGraph.kmer_count g + n) ->
  kmer_count_is_sum (InputGraph.add_size g1 file n).
Proof.
  unfold kmer_count_is_sum. intros Hfile [Hsum Hpos] Hsizes Hcount. simpl.
  destruct (lookup_lt_is_Some_2 _ _ Hfile) as [x Hx]. rewrite Hsizes. split.
  - rewrite (sum_sizes_alter _ _ _ _ Hx), Hcount, Hsum, wrap_add_l.
    replace (sum_sizes (InputGraph.sizes g) - x + wrap (x + n))
      with ((sum_sizes (InputGraph.sizes g) - x) + wrap (x + n)) by lia.
    rewrite wrap_add_r. f_equal. lia.
  - apply Forall_alter; [done|]. intros y _ _. apply wrap_range.
Qed.

Lemma same_files_refl g : same_files g g.
Proof. by repeat split. Qed.

Lemma same_files_add_size g g1 file n :
  same_files g g1 -> same_files g (InputGraph.add_size g1 file n).
Proof.
  unfold same_files. simpl. rewrite length_alter. tauto.
Qed.

Lemma scan_binary_counts fuel : forall input file g w g' w',
  InputGraph.scan_binary fuel input file g w = Done g' w' ->
  (file < length (InputGraph.sizes g))%nat ->
  kmer_count_is_sum g ->
  kmer_count_is_sum g' ∧ same_files g g'.
Proof.
  induction fuel as [|fuel IH]; intros input file g w g' w' Hrun Hfile Hsum;
    [done|].
  simpl in Hrun.
  destruct (istream_read sizeof_header input) as [bytes input1].
  destruct (eofbit input1).
  { apply ret_Done_inv in Hrun as [<- _]. split; [done | apply same_files_refl]. }
  apply bind_Done_inv in Hrun as (g1 & w1 & HsetK & Hrun).
  apply setK_Done_inv in HsetK as (-> & _ & _ & Hg1).
  case_decide; [done|].
  set (n := GraphFileHeader.kmer_count (header_of_bytes bytes)) in *.
  assert (InputGraph.sizes g1 = InputGraph.sizes g ∧
          InputGraph.kmer_count g1 = wrap (InputGraph.kmer_count g + n) ∧
          same_files g g1) as (Hs & Hc & Hsame).
  { subst g1. case_decide; by repeat split. }
  apply IH in Hrun as [Hsum' Hsame'].
  - split; [done|]. destruct Hsame' as (? & ? & Hlen).
    simpl in *. rewrite length_alter in Hlen. destruct Hsame as (? & ? & ?).
    repeat split; congruence.
  - simpl. rewrite length_alter. by rewrite Hs.
  - by apply (counted_section g).
Qed.

Lemma scan_text_counts fuel : forall input file g w g' w',
  InputGraph.scan_text fuel input file g w = Done g' w' ->
  (file < length (InputGraph.sizes g))%nat ->
  kmer_count_is_sum g ->
  kmer_count_is_sum g' ∧ same_files g g'.
Proof.
  induction fuel as [|fuel IH]; intros input file g w g' w' Hrun Hfile Hsum;
    [done|].
  simpl in Hrun.
  destruct (istream_getline input) as [line input1].
  destruct (eofbit input1).
  { apply ret_Done_inv in Hrun as [<- _]. split; [done | apply same_files_refl]. }
  apply bind_Done_inv in Hrun as (g1 & w1 & HsetK & Hrun).
  apply setK_Done_inv in HsetK as (-> & _ & _ & Hg1).
  set (n := (parseKMer line).2) in *.
  assert (InputGraph.sizes g1 = InputGraph.sizes g ∧
          InputGraph.kmer_count g1 = InputGraph.kmer_count g ∧
          same_files g g1) as (Hs & Hc & Hsame).
  { subst g1. case_decide; by repeat split. }
  apply IH in Hrun as [Hsum' Hsame'].
  - split; [done|]. destruct Hsame' as (? & ? & Hlen).
    simpl in *. rewrite length_alter in Hlen. destruct Hsame as (? & ? & ?).
    repeat split; congruence.
  - simpl. rewrite length_alter. by rewrite Hs.
  - apply (counted_section g); [done..|]. simpl. by rewrite Hc.
Qed.

Lemma scan_file_counts g file w g' w' :
  InputGraph.scan_file g file w = Done g' w' ->
  (file < length (InputGraph.sizes g))%nat ->
  kmer_count_is_sum g ->
  kmer_count_is_sum g' ∧ same_files g g'.
Proof.
  unfold InputGraph.scan_file. intros Hrun.
  apply bind_Done_inv in Hrun as (input & w1 & _ & Hrun).
  destruct (InputGraph.binary g);
    eauto using scan_binary_counts, scan_text_counts.
Qed.

Lemma scan_files_counts todo : forall g w g' w',
  InputGraph.scan_files todo g w = Done g' w' ->
  Forall (fun file => (file < length (InputGraph.sizes g))%nat) todo ->
  kmer_count_is_sum g ->
  kmer_count_is_sum g' ∧ same_files g g'.
Proof.
  induction todo as [|file todo IH]; intros g w g' w' Hrun Htodo Hsum.
  - apply ret_Done_inv in Hrun as [<- _]. split; [done | apply same_files_refl].
  - simpl in Hrun. apply bind_Done_inv in Hrun as (g1 & w1 & Hfile & Hrun).
    apply Forall_cons in Htodo as [Hlt Htodo].
    apply scan_file_counts in Hfile as [Hsum1 Hsame1]; [|done..].
    assert (length (InputGraph.sizes g1) = length (InputGraph.sizes g)) as Hlen
      by apply Hsame1.
    apply IH in Hrun as [Hsum' Hsame']; [|by rewrite Hlen|done].
    split; [done|]. destruct Hsame1 as (? & ? & ?), Hsame' as (? & ? & ?).
    repeat split; congruence.
Qed.

Lemma InputGraph_create_counts base_names binary_format w g w' :
  InputGraph.create base_names binary_format w = Done g w' ->
  kmer_count_is_sum g ∧ length (InputGraph.sizes g) = length base_names.
Proof.
  unfold InputGraph.create. intros Hrun.
  apply scan_files_counts in Hrun as [Hsum (_ & _ & Hlen)].
  - split; [done|]. simpl in Hlen. by rewrite length_replicate in Hlen.
  - simpl. unfold InputGraph.files. simpl.
    rewrite length_map, length_replicate. apply Forall_forall.
    intros file Hin. apply elem_of_seq in Hin. lia.
  - unfold kmer_count_is_sum. simpl. rewrite sum_sizes_replicate_0.
    split; [done|]. by apply Forall_replicate.
Qed.

End InputGraphCounters.

(** ** The counters of a path graph *)

Section PathGraphCounters.
Context `{Collaborators}.

Lemma add_shard_sums g name size :
  path_counts_are_sums g -> path_counts_are_sums (PathGraph.add_shard g name size).
Proof.
  intros [Hp Hr]. split; simpl; rewrite !sum_sizes_app; simpl.
  - rewrite Hp, wrap_add_l. f_equal. lia.
  - rewrite Hr, wrap_add_l. f_equal. lia.
Qed.

Lemma add_shard_two_ranks g name size :
  two_ranks_per_path g -> two_ranks_per_path (PathGraph.add_shard g name size).
Proof.
  intros [Hs Hr]. split; simpl.
  - by rewrite Hs, map_app.
  - rewrite Hr, wrap_add_l, wrap_add_r, wrap_double. f_equal. lia.
Qed.

Lemma create_shard_Done_inv source key_rank g file w g' w' :
  PathGraph.create_shard source key_rank g file w = Done g' w' ->
  g' = PathGraph.add_shard g (tempFile PathGraph.PREFIX (temp_count w))
         (default 0 (InputGraph.sizes source !! file)).
Proof.
  unfold PathGraph.create_shard. intros Hrun.
  apply bind_Done_inv in Hrun as (name & w1 & Hname & Hrun).
  injection Hname as <- <-.
  apply bind_Done_inv in Hrun as (out & w2 & _ & Hrun).
  destruct out; simpl in Hrun; [|by apply print_exit_not_Done in Hrun].
  apply bind_Done_inv in Hrun as (v & w3 & _ & Hrun).
  apply bind_Done_inv in Hrun as (u & w4 & _ & Hrun).
  by apply ret_Done_inv in Hrun as [<- _].
Qed.

(** What the constructor's loop keeps: any property of the graph that adding
    a shard keeps, and the sizes it copies from the source. *)
Lemma create_shards_Done_inv (P : PathGraph.t -> Prop) source key_rank todo :
  (forall g name size, P g -> P (PathGraph.add_shard g name size)) ->
  forall g w g' w',
    PathGraph.create_shards source key_rank todo g w = Done g' w' ->
    P g ->
    P g' ∧
    PathGraph.sizes g' =
      PathGraph.sizes g ++
      map (fun file => default 0 (InputGraph.sizes source !! file)) todo.
Proof.
  intros Hadd. induction todo as [|file todo IH]; intros g w g' w' Hrun HP.
  - apply ret_Done_inv in Hrun as [<- _]. by rewrite app_nil_r.
  - simpl in Hrun. apply bind_Done_inv in Hrun as (g1 & w1 & Hshard & Hrun).
    apply create_shard_Done_inv in Hshard as ->.
    apply IH in Hrun as [HP' Hsizes]; [|by apply Hadd].
    split; [done|]. rewrite Hsizes. simpl. by rewrite <- app_assoc.
Qed.

Lemma PathGraph_create_sizes source key_rank w g w' :
  PathGraph.create source key_rank w = Done g w' ->
  PathGraph.sizes g = InputGraph.sizes source ∨
  length (InputGraph.sizes source) ≠ InputGraph.files source.
Proof.
  unfold PathGraph.create. intros Hrun.
  apply (create_shards_Done_inv (fun _ => True)) in Hrun as [_ Hsizes]; [|done..].
  simpl in Hsizes.
  destruct (decide (length (InputGraph.sizes source) = InputGraph.files source))
    as [Hlen|]; [left | by right].
  rewrite Hsizes, <- Hlen. apply list_eq. intros i.
  rewrite list_lookup_fmap.
  destruct (InputGraph.sizes source !! i) as [s|] eqn:Hi.
  - rewrite lookup_seq_lt by (by eapply lookup_lt_Some). simpl. by rewrite Hi.
  - rewrite lookup_seq_ge by (by apply lookup_ge_None). done.
Qed.

Lemma PathGraph_create_counts source key_rank w g w' :
  PathGraph.create source key_rank w = Done g w' ->
  path_counts_are_sums g ∧ two_ranks_per_path g.
Proof.
  unfold PathGraph.create. intros Hrun.
  apply (create_shards_Done_inv
           (fun g => path_counts_are_sums g ∧ two_ranks_per_path g))
    in Hrun as [HP _]; [done| |by repeat split].
  intros g0 name size [? ?]. eauto using add_shard_sums, add_shard_two_ranks.
Qed.

Lemma remove_files_Done names : forall w,
  exists w', PathGraph.remove_files names w = Done tt w' ∧ cerr w' = cerr w.
Proof.
  induction names as [|name names IH]; intros w; simpl; [by eexists|].
  unfold bind, remove_file. destruct (IH
    {| fs := delete name (fs w); unwritable := unwritable w; cerr := cerr w;
       temp_count := temp_count w |}) as (w' & -> & Hcerr). by eexists.
Qed.

Lemma clear_sums g w :
  exists g' w', PathGraph.clear g w = Done g' w' ∧ path_counts_are_sums g' ∧
                PathGraph.sizes g' = [] ∧ PathGraph.path_count g' = 0.
Proof.
  unfold PathGraph.clear.
  destruct (remove_files_Done (PathGraph.filenames g) w) as (w' & Hrm & _).
  eexists _, w'. split; [by rewrite (bind_Done _ _ _ _ _ Hrm)|]. by repeat split.
Qed.

Lemma swap_sums g another :
  path_counts_are_sums g -> path_counts_are_sums another ->
  path_counts_are_sums (PathGraph.swap g another).1 ∧
  path_counts_are_sums (PathGraph.swap g another).2.
Proof. by intros [? ?] [? ?]. Qed.

End PathGraphCounters.

Lemma sum_sizes_nonneg l : Forall (fun s => 0 ≤ s) l -> 0 ≤ sum_sizes l.
Proof. induction 1; simpl; lia. Qed.

(** C9. After the construction of an [InputGraph], [kmer_count] is the sum
    of the per-file [sizes] in [size_type] arithmetic, and the exact sum when
    that sum is below 2^64.  After the construction of a [PathGraph] from an
    input graph, [path_count] is the sum of the per-shard [sizes] and
    [rank_count] the sum of the per-shard [rank_counts], in the same sense;
    [clear] always returns and leaves a graph for which this holds, and
    [swap] hands it over to both graphs. *)
Theorem counts_are_sums_of_shard_counts `{Collaborators} :
  (forall base_names binary_format w g w',
     InputGraph.create base_names binary_format w = Done g w' ->
     InputGraph.kmer_count g = wrap (sum_sizes (InputGraph.sizes g)) ∧
     (sum_sizes (InputGraph.sizes g) < 2 ^ 64 ->
      InputGraph.kmer_count g = sum_sizes (InputGraph.sizes g))) ∧
  (forall source key_rank w g w',
     PathGraph.create source key_rank w = Done g w' ->
     PathGraph.path_count g = wrap (sum_sizes (PathGraph.sizes g)) ∧
     PathGraph.rank_count g = wrap (sum_sizes (PathGraph.rank_counts g)) ∧
     (Forall (fun s => 0 ≤ s) (InputGraph.sizes source) ->
      length (InputGraph.sizes source) = InputGraph.files source ->
      (sum_sizes (PathGraph.sizes g) < 2 ^ 64 ->
       PathGraph.path_count g = sum_sizes (PathGraph.sizes g)) ∧
      (sum_sizes (PathGraph.rank_counts g) < 2 ^ 64 ->
       PathGraph.rank_count g = sum_sizes (PathGraph.rank_counts g)))) ∧
  (forall g w, exists g' w',
     PathGraph.clear g w = Done g' w' ∧ path_counts_are_sums g') ∧
  (forall g another,
     path_counts_are_sums g -> path_counts_are_sums another ->
     path_counts_are_sums (PathGraph.swap g another).1 ∧
     path_counts_are_sums (PathGraph.swap g another).2).
Proof.
  split_and!.
  - intros base_names binary_format w g w' Hrun.
    apply InputGraph_create_counts in Hrun as [[Hsum Hpos] _].
    split; [done|]. intros Hlt. rewrite Hsum. apply wrap_small.
    split; [by apply sum_sizes_nonneg | done].
  - intros source key_rank w g w' Hrun.
    pose proof (PathGraph_create_sizes _ _ _ _ _ Hrun) as Hsizes.
    apply PathGraph_create_counts in Hrun as [[Hp Hr] [Hranks _]].
    split_and!; [done..|]. intros Hpos Hlen.
    destruct Hsizes as [Hsizes|]; [|done]. split; intros Hlt.
    + rewrite Hp. apply wrap_small. split; [|done].
      apply sum_sizes_nonneg. by rewrite Hsizes.
    + rewrite Hr. apply wrap_small. split; [|done].
      apply sum_sizes_nonneg. rewrite Hranks. apply Forall_fmap, Forall_forall.
      intros s _. apply wrap_range.
  - intros g w. destruct (clear_sums g w) as (g' & w' & ? & ? & _). eauto.
  - apply swap_sums.
Qed.

Lemma counts_are_sums_of_shard_counts_witness :
  match InputGraph.create (H := Reference.collaborators) ["a"%string] true
          two_kmers_world with
  | Done g _ =>
      InputGraph.kmer_count g = wrap (sum_sizes (InputGraph.sizes g)) ∧
      InputGraph.kmer_count g = 2
  | _ => False
  end.
Proof.
  destruct (InputGraph.create (H := Reference.collaborators) ["a"%string] true
              two_kmers_world) as [g w'| | |] eqn:Hrun;
    [|vm_compute in Hrun; discriminate..].
  split.
  - exact (proj1 (proj1 (counts_are_sums_of_shard_counts
                           (H := Reference.collaborators)) _ _ _ _ _ Hrun)).
  - vm_compute in Hrun. by injection Hrun as <- _.
Defined.


(** ** Reading a path graph shard *)

Section PathGraphRead.
Context `{Collaborators}.

Lemma read_paths_length n : forall input paths labels,
  length (PathGraph.read_paths n input paths labels).1 = (length paths + n)%nat.
Proof.
  induction n as [|n IH]; intros input paths labels; simpl; [lia|].
  destruct (PathNode_read input labels) as [[node input'] labels'].
  rewrite IH, length_app. simpl. lia.
Qed.

(** A shard that can be opened is read in [path_count] steps, whatever its
    own size is. *)
Lemma PathGraph_read_file_length g paths labels file append w r w' :
  PathGraph.read_file g paths labels file append w = Done r w' ->
  length r.1 =
    (length (if append then paths else []) + Z.to_nat (PathGraph.path_count g))%nat.
Proof.
  unfold PathGraph.read_file. intros Hrun.
  apply bind_Done_inv in Hrun as (input & w1 & _ & Hrun).
  apply ret_Done_inv in Hrun as [<- _]. apply read_paths_length.
Qed.

Lemma PathGraph_read_files_length g todo : forall paths labels w r w',
  PathGraph.read_files g todo paths labels w = Done r w' ->
  length r.1 =
    (length paths + length todo * Z.to_nat (PathGraph.path_count g))%nat.
Proof.
  induction todo as [|file todo IH]; intros paths labels w r w' Hrun; simpl in *.
  - apply ret_Done_inv in Hrun as [<- _]. simpl. lia.
  - apply bind_Done_inv in Hrun as (r1 & w1 & Hfile & Hrun).
    apply PathGraph_read_file_length in Hfile. apply IH in Hrun.
    rewrite Hrun, Hfile. lia.
Qed.

End PathGraphRead.

(** C1 (the code departs from it). For the path graph of two shards of one
    record each, [sizes] is [1; 1] and [path_count] is 2; reading shard 0 alone
    appends 2 records, not [sizes[0] = 1], and reading all shards yields 4
    records, not [path_count = 2]: the loop of the single-shard read runs to
    [path_count]. *)
Theorem PathGraph_read_file_runs_to_path_count :
  match (let* source := InputGraph.create (H := Reference.collaborators)
                          ["a"%string; "b"%string] true in
         let* g := PathGraph.create (H := Reference.collaborators) source
                     (fun label => label) in
         let* shard := PathGraph.read_file (H := Reference.collaborators)
                         g [] [] 0 false in
         let* all := PathGraph.read (H := Reference.collaborators) g in
         ret (g, shard, all)) two_shards_world with
  | Done (g, shard, all) _ =>
      PathGraph.sizes g = [1; 1] ∧ PathGraph.path_count g = 2 ∧
      length shard.1 = 2%nat ∧ length all.1 = 4%nat
  | _ => False
  end.
Proof. vm_compute. by repeat split. Qed.

(** ** The keys of an input graph without k-mers *)

(** C2 (the code departs from it). For an input graph over no files, and
    for the reference graph over one empty file, [InputGraph::read(keys)]
    returns the one-element sequence [0], not the empty sequence: the final
    [keys.resize(i + 1)] runs with [i = 0] also when nothing was read. *)
Theorem InputGraph_read_keys_without_kmers `{Collaborators} :
  (forall binary_format w,
     (let* g := InputGraph.create [] binary_format in InputGraph.read_keys g) w
     = Done [0] w) ∧
  (let* g := InputGraph.create (H := Reference.collaborators) ["a"%string] true in
   InputGraph.read_keys (H := Reference.collaborators) g)
    (Reference.world [("a.graph"%string, [])] [])
  = Done [0] (Reference.world [("a.graph"%string, [])] []).
Proof. split; [by intros binary_format w | by vm_compute]. Qed.

(** ** Files that cannot be opened *)

Section OpenFailures.
Context `{Collaborators}.

Lemma InputGraph_open_missing g file w :
  (file < InputGraph.files g)%nat ->
  fs w !! InputGraph.filename g file = None ->
  InputGraph.open g file w =
    Exit (printing w [InputGraphCannotOpen (InputGraph.filename g file)]).
Proof.
  intros Hfile Hmissing. unfold InputGraph.open.
  rewrite decide_False by lia.
  unfold bind, open_in. by rewrite Hmissing.
Qed.

Lemma PathGraph_open_missing g file w :
  (file < PathGraph.files g)%nat ->
  fs w !! PathGraph.filename g file = None ->
  PathGraph.open g file w =
    Exit (printing w [PathGraphCannotOpen (PathGraph.filename g file)]).
Proof.
  intros Hfile Hmissing. unfold PathGraph.open.
  rewrite decide_False by lia.
  unfold bind, open_in. by rewrite Hmissing.
Qed.

Lemma create_shard_unwritable source key_rank g file w :
  tempFile PathGraph.PREFIX (temp_count w) ∈ unwritable w ->
  PathGraph.create_shard source key_rank g file w =
    Exit (printing (named w)
            [PathGraphCannotOpenOutput (tempFile PathGraph.PREFIX (temp_count w))]).
Proof.
  intros Hlocked. unfold PathGraph.create_shard, PathGraph.temp_file.
  unfold bind at 1. unfold bind at 1. unfold open_out. simpl.
  by rewrite decide_True.
Qed.

Lemma PathGraph_create_unwritable source key_rank w :
  (0 < InputGraph.files source)%nat ->
  tempFile PathGraph.PREFIX (temp_count w) ∈ unwritable w ->
  PathGraph.create source key_rank w =
    Exit (printing (named w)
            [PathGraphCannotOpenOutput (tempFile PathGraph.PREFIX (temp_count w))]).
Proof.
  intros Hfiles Hlocked. unfold PathGraph.create.
  destruct (InputGraph.files source) as [|n]; [lia|]. simpl.
  apply bind_Exit. by apply create_shard_unwritable.
Qed.

Lemma writeKMers_unwritable base_name v kmer_length w :
  base_name +:+ InputGraph.BINARY_EXTENSION ∈ unwritable w ->
  writeKMers base_name v kmer_length w =
    Done tt (printing w
               [WriteKMersCannotOpen (base_name +:+ InputGraph.BINARY_EXTENSION)]).
Proof.
  intros Hlocked. unfold writeKMers, bind, open_out.
  by rewrite decide_True.
Qed.

End OpenFailures.

(** C3, as the claim states it, fails for [writeKMers]: when its output file
    cannot be opened it prints its diagnostic and returns; the process goes
    on and nothing is written. *)
Lemma writeKMers_unopenable_output_returns :
  let w := Reference.world [] ["out.graph"%string] in
  writeKMers (H := Reference.collaborators) "out" two_kmers 4 w =
    Done tt (printing w [WriteKMersCannotOpen "out.graph"]) ∧
  ¬ exits (writeKMers (H := Reference.collaborators) "out" two_kmers 4 w).
Proof. by vm_compute. Qed.

(** C3, amended. When the file cannot be opened, [InputGraph::open] and
    [PathGraph::open] terminate the process after their diagnostic, and so
    does the [PathGraph] constructor for the output file of a shard (in its
    loop body, hence in the constructor when the first shard's file is the
    one); [writeKMers] prints its diagnostic and returns without writing. *)
Theorem unopenable_file_is_fatal_but_for_writeKMers `{Collaborators} :
  (forall g file w,
     (file < InputGraph.files g)%nat ->
     fs w !! InputGraph.filename g file = None ->
     InputGraph.open g file w =
       Exit (printing w [InputGraphCannotOpen (InputGraph.filename g file)])) ∧
  (forall g file w,
     (file < PathGraph.files g)%nat ->
     fs w !! PathGraph.filename g file = None ->
     PathGraph.open g file w =
       Exit (printing w [PathGraphCannotOpen (PathGraph.filename g file)])) ∧
  (forall source key_rank g file w,
     tempFile PathGraph.PREFIX (temp_count w) ∈ unwritable w ->
     PathGraph.create_shard source key_rank g file w =
       Exit (printing (named w)
               [PathGraphCannotOpenOutput
                  (tempFile PathGraph.PREFIX (temp_count w))])) ∧
  (forall source key_rank w,
     (0 < InputGraph.files source)%nat ->
     tempFile PathGraph.PREFIX (temp_count w) ∈ unwritable w ->
     PathGraph.create source key_rank w =
       Exit (printing (named w)
               [PathGraphCannotOpenOutput
                  (tempFile PathGraph.PREFIX (temp_count w))])) ∧
  (forall base_name v kmer_length w,
     base_name +:+ InputGraph.BINARY_EXTENSION ∈ unwritable w ->
     writeKMers base_name v kmer_length w =
       Done tt (printing w
                  [WriteKMersCannotOpen
                     (base_name +:+ InputGraph.BINARY_EXTENSION)])).
Proof.
  split_and!.
  - apply InputGraph_open_missing.
  - apply PathGraph_open_missing.
  - apply create_shard_unwritable.
  - apply PathGraph_create_unwritable.
  - apply writeKMers_unwritable.
Qed.

Lemma unopenable_file_is_fatal_but_for_writeKMers_witness :
  let g := {| InputGraph.binary := true; InputGraph.kmer_count := 2;
              InputGraph.kmer_length := 4;
              InputGraph.filenames := ["a.graph"%string; "missing.graph"%string];
              InputGraph.sizes := [2; 0] |} in
  InputGraph.open g 1 two_kmers_world =
    Exit (printing two_kmers_world [InputGraphCannotOpen "missing.graph"]) ∧
  PathGraph.create (H := Reference.collaborators) g (fun label => label)
    (Reference.world [] [".gcsa0"%string]) =
    Exit (printing (named (Reference.world [] [".gcsa0"%string]))
            [PathGraphCannotOpenOutput ".gcsa0"]).
Proof.
  cbv zeta. split.
  - apply (proj1 (unopenable_file_is_fatal_but_for_writeKMers
                    (H := Reference.collaborators)));
      [unfold InputGraph.files; simpl; lia | by vm_compute].
  - apply (proj1 (proj2 (proj2 (proj2
             (unopenable_file_is_fatal_but_for_writeKMers
                (H := Reference.collaborators))))));
      [unfold InputGraph.files; simpl; lia | by vm_compute].
Defined.

(** ** Streams *)

Lemma istream_read_app (pre rest : list ascii) :
  istream_read (length pre) {| buf := pre ++ rest; eofbit := false |} =
    (pre, {| buf := rest; eofbit := false |}).
Proof.
  unfold istream_read. simpl. rewrite decide_True by (rewrite length_app; lia).
  by rewrite take_app_length, drop_app_length.
Qed.

Lemma istream_read_at_end n :
  (0 < n)%nat ->
  istream_read n {| buf := []; eofbit := false |} =
    ([], {| buf := []; eofbit := true |}).
Proof. intros Hn. unfold istream_read. simpl. by rewrite decide_False by lia. Qed.

Lemma split_at_delim_app delim (line rest : list ascii) :
  delim ∉ line ->
  split_at_delim delim (line ++ delim :: rest) = (line, Some rest).
Proof.
  induction line as [|c line IH]; intros Hline; simpl.
  - by rewrite decide_True.
  - apply not_elem_of_cons in Hline as [Hc Hline].
    rewrite decide_False by done. by rewrite IH.
Qed.

Lemma istream_getline_line (line rest : list ascii) :
  NEWLINE ∉ line ->
  istream_getline {| buf := line ++ NEWLINE :: rest; eofbit := false |} =
    (line, {| buf := rest; eofbit := false |}).
Proof. intros Hline. unfold istream_getline. simpl. by rewrite split_at_delim_app. Qed.

Lemma length_concat_blocks (size : nat) (blocks : list (list ascii)) :
  Forall (fun b => length b = size) blocks ->
  length (concat blocks) = (length blocks * size)%nat.
Proof.
  induction 1 as [|b blocks Hb _ IH]; simpl; [done|].
  rewrite length_app, IH, Hb. lia.
Qed.

(** ** The binary round trip *)

Section BinaryRoundTrip.
Context `{Collaborators}.

Lemma chunks_concat (blocks : list (list ascii)) (size : nat) rest :
  Forall (fun b => length b = size) blocks ->
  chunks (length blocks) size (concat blocks ++ rest) = blocks.
Proof.
  induction 1 as [|b blocks Hb _ IH]; simpl; [done|].
  rewrite <- app_assoc, <- Hb, take_app_length, drop_app_length.
  f_equal. by rewrite Hb.
Qed.

Lemma KMers_bytes_length (v : list KMer) :
  Forall KMer_layout_ok v ->
  length (KMers_bytes v) = (length v * sizeof_KMer)%nat.
Proof.
  intros Hv. unfold KMers_bytes.
  rewrite (length_concat_blocks sizeof_KMer), length_map; [done|].
  apply Forall_fmap. eapply Forall_impl; [done|]. by intros k [? _].
Qed.

Lemma KMers_of_bytes_bytes (v : list KMer) rest :
  Forall KMer_layout_ok v ->
  KMers_of_bytes (length v) (KMers_bytes v ++ rest) = v.
Proof.
  intros Hv. unfold KMers_of_bytes, KMers_bytes.
  rewrite <- (length_map KMer_bytes v), chunks_concat.
  - rewrite <- list_fmap_compose. rewrite <- (list_fmap_id v) at 2.
    apply Forall_fmap_ext_1. eapply Forall_impl; [done|]. by intros k [_ ?].
  - apply Forall_fmap. eapply Forall_impl; [done|]. by intros k [? _].
Qed.

(** Loading a complete section appends its records. *)
Lemma read_section_records_complete (v : list KMer) rest st :
  Forall KMer_layout_ok v ->
  Z.of_nat (length (kmers st) + length v) < 2 ^ 64 ->
  Z.of_nat (length v) * Z.of_nat sizeof_KMer < 2 ^ 63 ->
  read_section_records (Z.of_nat (length v))
    {| buf := KMers_bytes v ++ rest; eofbit := false |} st =
  Done {| buf := rest; eofbit := false |}
       {| kmers := kmers st ++ v; printed := printed st |}.
Proof.
  intros Hv Hsize Hbytes. unfold read_section_records.
  assert (wrap (Z.of_nat (length (kmers st)) + Z.of_nat (length v)) =
          Z.of_nat (length (kmers st) + length v)) as ->
    by (rewrite wrap_small; lia).
  assert (wrap (Z.of_nat (length v) * Z.of_nat sizeof_KMer) =
          Z.of_nat (length v * sizeof_KMer)) as ->
    by (rewrite wrap_small; lia).
  rewrite !Nat2Z.id, decide_False by lia.
  rewrite <- (KMers_bytes_length v Hv), istream_read_app.
  unfold resize. rewrite take_ge by lia.
  replace (length (kmers st) + length v - length (kmers st))%nat
    with (length v) by lia.
  rewrite drop_app_length, take_app_length, length_replicate.
  rewrite decide_True by (rewrite KMers_bytes_length by done; lia).
  by rewrite KMers_of_bytes_bytes.
Qed.

Lemma readBinary_start inp append st :
  readBinary inp append st =
    readBinary_loop (S (length (buf inp))) inp SIZE_MAX 0 (start append st).
Proof. unfold readBinary, bind, start. destruct append; [by destruct st | done]. Qed.

Lemma readText_start inp append st :
  readText inp append st =
    readText_loop (S (length (buf inp))) inp SIZE_MAX (start append st).
Proof. unfold readText, bind, start. destruct append; [by destruct st | done]. Qed.

(** More fuel does not change what a loop that ended has returned. *)
Lemma readBinary_loop_fuel fuel : forall fuel' inp kmer_length section st,
  (fuel ≤ fuel')%nat ->
  readBinary_loop fuel inp kmer_length section st ≠ OutOfFuel ->
  readBinary_loop fuel' inp kmer_length section st =
    readBinary_loop fuel inp kmer_length section st.
Proof.
  induction fuel as [|fuel IH]; intros fuel' inp kmer_length section st Hle Hrun;
    [done|].
  destruct fuel' as [|fuel']; [lia|]. simpl in *.
  destruct (istream_read sizeof_header inp) as [bytes inp1].
  destruct (eofbit inp1); [done|]. case_decide; [done|].
  unfold bind in *.
  destruct (if decide (kmer_length = SIZE_MAX) then _ else _) as [k1 st1| | |];
    [|done..].
  destruct (read_section_records _ inp1 st1) as [inp2 st2| | |]; [|done..].
  apply IH; [lia | done].
Qed.

Lemma readBinary_roundtrip (v : list KMer) (L : Z) (append : bool) (st : Reading) :
  0 < L ≤ MAX_LENGTH ->
  (0 < sizeof_header)%nat ->
  header_layout_ok (GraphFileHeader.make (Z.of_nat (length v)) L) ->
  Forall KMer_layout_ok v ->
  Z.of_nat (length (if append then kmers st else []) + length v) < 2 ^ 64 ->
  Z.of_nat (length v) * Z.of_nat sizeof_KMer < 2 ^ 63 ->
  readBinary (istream_of (writeBinary [] v L)) append st =
    Done L {| kmers := (if append then kmers st else []) ++ v;
              printed := printed st |}.
Proof.
  intros HL Hheader [Hhlen Hhdec] Hv Hsize Hbytes.
  rewrite readBinary_start. unfold writeBinary, istream_of. simpl buf.
  set (h := GraphFileHeader.make (Z.of_nat (length v)) L) in *.
  simpl GraphFileHeader.kmer_count.
  assert (wrap (Z.of_nat (length v) * Z.of_nat sizeof_KMer) =
          Z.of_nat (length v * sizeof_KMer)) as ->
    by (rewrite wrap_small; lia).
  rewrite Nat2Z.id, <- (KMers_bytes_length v Hv), firstn_all.
  assert (readBinary_loop 2
            {| buf := header_bytes h ++ KMers_bytes v; eofbit := false |}
            SIZE_MAX 0 (start append st) =
          Done L {| kmers := (if append then kmers st else []) ++ v;
                    printed := printed st |}) as Hrun.
  { cbn [readBinary_loop]. rewrite <- Hhlen, istream_read_app.
    cbn [eofbit]. rewrite Hhdec. simpl GraphFileHeader.flags.
    rewrite decide_False by (by intros []).
    rewrite decide_True by done. simpl GraphFileHeader.kmer_length.
    rewrite decide_False by lia.
    unfold bind at 1. unfold ret at 1. unfold bind at 1.
    simpl GraphFileHeader.kmer_count.
    rewrite <- (app_nil_r (KMers_bytes v)).
    rewrite read_section_records_complete by done.
    rewrite istream_read_at_end by lia. done. }
  rewrite <- Hrun. apply readBinary_loop_fuel; [|by rewrite Hrun].
  simpl. rewrite length_app. lia.
Qed.

End BinaryRoundTrip.

(** C5. For every vector of [KMer]s and every length [L] with
    [0 < L <= Key::MAX_LENGTH], [readBinary] on the stream that [writeBinary]
    produced returns [L] and leaves in the vector exactly the records written,
    in their order (after the records already there when [append] is set).
    The object representations are taken to restore the header and the
    records written, the header to have a positive size, and the vector to fit
    the address space. *)
Theorem writeBinary_readBinary_roundtrip `{Collaborators}
    (v : list KMer) (L : Z) (append : bool) (st : Reading) :
  0 < L ≤ MAX_LENGTH ->
  (0 < sizeof_header)%nat ->
  header_layout_ok (GraphFileHeader.make (Z.of_nat (length v)) L) ->
  Forall KMer_layout_ok v ->
  Z.of_nat (length (if append then kmers st else []) + length v) < 2 ^ 64 ->
  Z.of_nat (length v) * Z.of_nat sizeof_KMer < 2 ^ 63 ->
  readBinary (istream_of (writeBinary [] v L)) append st =
    Done L {| kmers := (if append then kmers st else []) ++ v;
              printed := printed st |}.
Proof. apply readBinary_roundtrip. Qed.

Lemma writeBinary_readBinary_roundtrip_witness :
  readBinary (H := Reference.collaborators)
    (istream_of (writeBinary (H := Reference.collaborators) [] two_kmers 4))
    false {| kmers := []; printed := [] |} =
  Done 4 {| kmers := two_kmers; printed := [] |}.
Proof.
  apply (writeBinary_readBinary_roundtrip (H := Reference.collaborators)
           two_kmers 4 false {| kmers := []; printed := [] |}).
  - simpl. lia.
  - simpl. lia.
  - split; vm_compute; reflexivity.
  - repeat constructor; vm_compute; reflexivity.
  - simpl. lia.
  - simpl. lia.
Defined.

(** ** Tokens *)

Lemma split_at_delim_shorter delim (s : list ascii) t r :
  split_at_delim delim s = (t, Some r) -> (length r < length s)%nat.
Proof.
  revert t. induction s as [|c s IH]; intros t Hs; simpl in *; [done|].
  case_decide; [injection Hs as _ <-; lia|].
  destruct (split_at_delim delim s) as [t' r'].
  injection Hs as _ ->. specialize (IH _ eq_refl). lia.
Qed.

Lemma ss_getline_shorter delim (ss : list ascii) token ss' :
  ss_getline delim ss = Some (token, ss') -> (length ss' < length ss)%nat.
Proof.
  unfold ss_getline. destruct ss as [|c ss]; [done|].
  destruct (split_at_delim delim (c :: ss)) as [t [r|]] eqn:Hsplit;
    intros [= _ <-]; simpl.
  - by apply split_at_delim_shorter in Hsplit.
  - lia.
Qed.

(** The token loop ends before its bound. *)
Lemma getline_loop_fuel delim fuel : forall fuel' (ss : list ascii),
  (length ss < fuel)%nat -> (length ss < fuel')%nat ->
  getline_loop fuel delim ss = getline_loop fuel' delim ss.
Proof.
  induction fuel as [|fuel IH]; intros fuel' ss Hfuel Hfuel'; [lia|].
  destruct fuel' as [|fuel']; [lia|]. simpl.
  destruct (ss_getline delim ss) as [[token ss']|] eqn:Hget; [|done].
  apply ss_getline_shorter in Hget. f_equal. apply IH; lia.
Qed.

Lemma getline_all_unfold delim (ss : list ascii) :
  getline_all delim ss =
    match ss_getline delim ss with
    | None => []
    | Some (token, ss') => token :: getline_all delim ss'
    end.
Proof.
  unfold getline_all at 1. simpl.
  destruct (ss_getline delim ss) as [[token ss']|] eqn:Hget; [|done].
  apply ss_getline_shorter in Hget. f_equal.
  apply getline_loop_fuel; lia.
Qed.

Lemma tokenize_not_five (line : list ascii) :
  length (getline_all TAB line) ≠ 5%nat ->
  tokenize line [] =
    (false, getline_all TAB line, [TokenizeTokenCount; TokenizeLineWas line]).
Proof. intros Hline. unfold tokenize. simpl. by rewrite decide_True. Qed.

Lemma tokenize_five (line : list ascii) :
  length (getline_all TAB line) = 5%nat ->
  exists tokens,
    tokenize line [] = (true, tokens, []) ∧
    tokens !! 0%nat = getline_all TAB line !! 0%nat.
Proof.
  intros Hline. unfold tokenize. simpl. rewrite decide_False by (by intros []).
  eexists. split; [done|].
  destruct (getline_all TAB line) as [|t0 [|t1 [|t2 [|t3 [|t4 [|]]]]]]; done.
Qed.

Section ParseKMer.
Context `{Collaborators}.

(** A line that yields fewer than five tokens has no successor field. *)
Lemma parseKMer_short_line (line : list ascii) :
  (length (getline_all TAB line) < 5)%nat ->
  (parseKMer line).2 = 0 ∧
  (parseKMer line).1 =
    match getline_all TAB line with
    | [] => UNKNOWN
    | token :: _ => Z.of_nat (length token)
    end.
Proof.
  unfold parseKMer. rewrite (getline_all_unfold TAB line).
  destruct (ss_getline TAB line) as [[t0 s0]|]; [|done].
  rewrite (getline_all_unfold TAB s0).
  destruct (ss_getline TAB s0) as [[t1 s1]|]; [|done].
  rewrite (getline_all_unfold TAB s1).
  destruct (ss_getline TAB s1) as [[t2 s2]|]; [|done].
  rewrite (getline_all_unfold TAB s2).
  destruct (ss_getline TAB s2) as [[t3 s3]|]; [|done].
  rewrite (getline_all_unfold TAB s3).
  destruct (ss_getline TAB s3) as [[t4 s4]|]; [|done].
  simpl. lia.
Qed.

End ParseKMer.

(** ** The text reader, line by line *)

Lemma lines_bytes_cons_app (line : list ascii) lines rest :
  lines_bytes (line :: lines) ++ rest =
    line ++ NEWLINE :: (lines_bytes lines ++ rest).
Proof. unfold lines_bytes. simpl. by rewrite <- !app_assoc. Qed.

Section TextReader.
Context `{Collaborators}.

Lemma readText_loop_fuel fuel : forall fuel' inp kmer_length st,
  (fuel ≤ fuel')%nat ->
  readText_loop fuel inp kmer_length st ≠ OutOfFuel ->
  readText_loop fuel' inp kmer_length st = readText_loop fuel inp kmer_length st.
Proof.
  induction fuel as [|fuel IH]; intros fuel' inp kmer_length st Hle Hrun; [done|].
  destruct fuel' as [|fuel']; [lia|]. simpl in *.
  destruct (istream_getline inp) as [line inp1].
  destruct (eofbit inp1); [done|].
  destruct (tokenize line []) as [[ok tokens] diags].
  unfold bind in *. unfold print_r at 1. unfold print_r at 1 in Hrun.
  destruct ok; simpl negb in *; cbv iota in *; [|apply IH; [lia | done]].
  unfold push_successors, print_r, exit_failure, ret in *.
  repeat case_decide; try done; apply IH; first [lia | done].
Qed.

(** An iteration on a line that [tokenize] rejects prints the two lines of
    [tokenize] and goes on with the next line: the vector and the length
    established so far are as before. *)
Lemma readText_loop_rejected_line fuel (line rest : list ascii) kmer_length st :
  NEWLINE ∉ line ->
  length (getline_all TAB line) ≠ 5%nat ->
  readText_loop (S fuel) {| buf := line ++ NEWLINE :: rest; eofbit := false |}
    kmer_length st =
  readText_loop fuel {| buf := rest; eofbit := false |} kmer_length
    (printing_r st [TokenizeTokenCount; TokenizeLineWas line]).
Proof.
  intros Hline Htokens. cbn [readText_loop].
  rewrite istream_getline_line by done. cbn [eofbit].
  by rewrite tokenize_not_five.
Qed.

Lemma readText_loop_rejected_lines (skipped : list (list ascii)) :
  forall fuel rest kmer_length st,
  Forall (fun line => (NEWLINE ∉ line) ∧ length (getline_all TAB line) ≠ 5%nat)
    skipped ->
  readText_loop (length skipped + fuel)
    {| buf := lines_bytes skipped ++ rest; eofbit := false |} kmer_length st =
  readText_loop fuel {| buf := rest; eofbit := false |} kmer_length
    (printing_r st (rejections skipped)).
Proof.
  induction skipped as [|line skipped IH]; intros fuel rest kmer_length st Hall.
  - unfold printing_r, rejections. simpl. rewrite app_nil_r. by destruct st.
  - apply Forall_cons in Hall as [[Hline Htokens] Hall].
    rewrite lines_bytes_cons_app.
    change (length (line :: skipped) + fuel)%nat
      with (S (length skipped + fuel)).
    rewrite readText_loop_rejected_line by done. rewrite IH by done.
    unfold printing_r, rejections. simpl. by rewrite <- app_assoc.
Qed.

(** The first line that [tokenize] accepts, with a first field that is
    empty or longer than [Key::MAX_LENGTH], ends the process. *)
Lemma readText_loop_invalid_length fuel (line rest : list ascii) st :
  NEWLINE ∉ line ->
  length (getline_all TAB line) = 5%nat ->
  let len := Z.of_nat (length (default [] (getline_all TAB line !! 0%nat))) in
  len = 0 ∨ MAX_LENGTH < len ->
  readText_loop (S fuel) {| buf := line ++ NEWLINE :: rest; eofbit := false |}
    SIZE_MAX st =
  Exit (printing_r st [ReadTextInvalidLength len]).
Proof.
  intros Hline Htokens len Hlen. cbn [readText_loop].
  rewrite istream_getline_line by done. cbn [eofbit].
  destruct (tokenize_five line Htokens) as (tokens & -> & Hfirst).
  rewrite Hfirst. fold len. simpl negb. cbv iota.
  rewrite decide_True by done. rewrite decide_True by done.
  unfold bind, print_r, exit_failure, printing_r. simpl.
  by rewrite app_nil_r.
Qed.

Lemma lines_bytes_length (lines : list (list ascii)) :
  (length lines ≤ length (lines_bytes lines))%nat.
Proof.
  induction lines as [|line lines IH]; simpl; [done|].
  unfold lines_bytes in *. simpl. rewrite !length_app. simpl. lia.
Qed.

Lemma readText_invalid_first_length (skipped : list (list ascii))
    (line rest : list ascii) append st :
  Forall (fun line => (NEWLINE ∉ line) ∧ length (getline_all TAB line) ≠ 5%nat)
    skipped ->
  NEWLINE ∉ line ->
  length (getline_all TAB line) = 5%nat ->
  let len := Z.of_nat (length (default [] (getline_all TAB line !! 0%nat))) in
  len = 0 ∨ MAX_LENGTH < len ->
  readText (istream_of (lines_bytes skipped ++ line ++ NEWLINE :: rest)) append st =
  Exit {| kmers := if append then kmers st else [];
          printed := printed st ++ rejections skipped ++
                     [ReadTextInvalidLength len] |}.
Proof.
  intros Hskipped Hline Htokens len Hlen. rewrite readText_start.
  unfold istream_of. simpl buf.
  assert (readText_loop (length skipped + 1)
            {| buf := lines_bytes skipped ++ line ++ NEWLINE :: rest;
               eofbit := false |} SIZE_MAX (start append st) =
          Exit {| kmers := if append then kmers st else [];
                  printed := printed st ++ rejections skipped ++
                             [ReadTextInvalidLength len] |}) as Hrun.
  { rewrite readText_loop_rejected_lines by done.
    rewrite readText_loop_invalid_length by done.
    unfold printing_r, start. simpl. by rewrite <- app_assoc. }
  rewrite <- Hrun. apply readText_loop_fuel; [|by rewrite Hrun].
  pose proof (lines_bytes_length skipped). rewrite !length_app. simpl. lia.
Qed.

(** The first section header, with a length that is zero or more than
    [Key::MAX_LENGTH], ends the process (as nonzero flags do before the
    length is looked at). *)
Lemma readBinary_invalid_first_length inp append st :
  eofbit inp = false ->
  (sizeof_header ≤ length (buf inp))%nat ->
  let header := header_of_bytes (take sizeof_header (buf inp)) in
  GraphFileHeader.kmer_length header = 0 ∨
  MAX_LENGTH < GraphFileHeader.kmer_length header ->
  readBinary inp append st =
  Exit {| kmers := if append then kmers st else [];
          printed := printed st ++
            [if decide (GraphFileHeader.flags header = 0)
             then ReadBinaryInvalidLength 0 (GraphFileHeader.kmer_length header)
             else ReadBinaryInvalidFlags 0 (GraphFileHeader.flags header)] |}.
Proof.
  intros Heof Hsize header Hlen. rewrite readBinary_start.
  cbn [readBinary_loop]. unfold istream_read. rewrite Heof.
  rewrite decide_True by done. cbn [eofbit]. fold header.
  destruct (decide (GraphFileHeader.flags header = 0)) as [Hflags|Hflags].
  - rewrite decide_False by (by intros []).
    rewrite decide_True by done. by rewrite decide_True by done.
  - by rewrite decide_True by done.
Qed.

End TextReader.

(** C8. When the first length a reader observes is 0 or more than
    [Key::MAX_LENGTH], the process ends there, with the vector as it was when
    the reader started: for [readText] at the first line that [tokenize]
    accepts (the lines before it were rejected and reported), for
    [readBinary] at the first section header (nonzero flags end the process
    even before its length is looked at). *)
Theorem invalid_first_length_is_fatal `{Collaborators} :
  (forall (skipped : list (list ascii)) (line rest : list ascii) append st,
     Forall (fun line => (NEWLINE ∉ line) ∧
                         length (getline_all TAB line) ≠ 5%nat) skipped ->
     NEWLINE ∉ line ->
     length (getline_all TAB line) = 5%nat ->
     let len := Z.of_nat (length (default [] (getline_all TAB line !! 0%nat))) in
     len = 0 ∨ MAX_LENGTH < len ->
     readText (istream_of (lines_bytes skipped ++ line ++ NEWLINE :: rest))
       append st =
     Exit {| kmers := if append then kmers st else [];
             printed := printed st ++ rejections skipped ++
                        [ReadTextInvalidLength len] |}) ∧
  (forall inp append st,
     eofbit inp = false ->
     (sizeof_header ≤ length (buf inp))%nat ->
     let header := header_of_bytes (take sizeof_header (buf inp)) in
     GraphFileHeader.kmer_length header = 0 ∨
     MAX_LENGTH < GraphFileHeader.kmer_length header ->
     readBinary inp append st =
     Exit {| kmers := if append then kmers st else [];
             printed := printed st ++
               [if decide (GraphFileHeader.flags header = 0)
                then ReadBinaryInvalidLength 0 (GraphFileHeader.kmer_length header)
                else ReadBinaryInvalidFlags 0 (GraphFileHeader.flags header)] |}).
Proof.
  split.
  - apply readText_invalid_first_length.
  - apply readBinary_invalid_first_length.
Qed.

Lemma invalid_first_length_is_fatal_witness :
  readText (H := Reference.collaborators)
    (istream_of (lines_bytes [two_field_line] ++ long_label_line ++ NEWLINE :: []))
    false {| kmers := two_kmers; printed := [] |} =
  Exit {| kmers := [];
          printed := [TokenizeTokenCount; TokenizeLineWas two_field_line;
                      ReadTextInvalidLength 17] |} ∧
  readBinary (H := Reference.collaborators)
    (istream_of (writeBinary (H := Reference.collaborators) [] two_kmers 17))
    true {| kmers := two_kmers; printed := [] |} =
  Exit {| kmers := two_kmers; printed := [ReadBinaryInvalidLength 0 17] |}.
Proof.
  split.
  - apply (proj1 (invalid_first_length_is_fatal (H := Reference.collaborators))
             [two_field_line] long_label_line [] false
             {| kmers := two_kmers; printed := [] |}).
    + repeat constructor; [by apply (bool_decide_unpack _) | by vm_compute].
    + by apply (bool_decide_unpack _).
    + by vm_compute.
    + right. by vm_compute.
  - apply (proj2 (invalid_first_length_is_fatal (H := Reference.collaborators))
             (istream_of (writeBinary (H := Reference.collaborators) []
                            two_kmers 17))
             true {| kmers := two_kmers; printed := [] |}).
    + done.
    + vm_compute. lia.
    + right. by vm_compute.
Defined.

(** ** Lines with fewer than five fields *)

Section ShortLines.
Context `{Collaborators}.

(** A text made of rejected lines only is read to its end: nothing is
    loaded and no length is established. *)
Lemma readText_rejected_lines_only (skipped : list (list ascii)) append st :
  Forall (fun line => (NEWLINE ∉ line) ∧
                      length (getline_all TAB line) ≠ 5%nat) skipped ->
  readText (istream_of (lines_bytes skipped)) append st =
  Done SIZE_MAX {| kmers := if append then kmers st else [];
                   printed := printed st ++ rejections skipped |}.
Proof.
  intros Hskipped. rewrite readText_start. unfold istream_of. simpl buf.
  assert (readText_loop (length skipped + 1)
            {| buf := lines_bytes skipped ++ []; eofbit := false |}
            SIZE_MAX (start append st) =
          Done SIZE_MAX {| kmers := if append then kmers st else [];
                           printed := printed st ++ rejections skipped |})
    as Hrun.
  { by rewrite readText_loop_rejected_lines by done. }
  rewrite app_nil_r in Hrun. rewrite <- Hrun.
  apply readText_loop_fuel; [|by rewrite Hrun].
  pose proof (lines_bytes_length skipped). lia.
Qed.

Lemma set_kmer_length_same (g : InputGraph.t) :
  InputGraph.set_kmer_length g (InputGraph.k g) = g.
Proof. by destruct g. Qed.

Lemma setK_accepts g new_k file w :
  InputGraph.k g = UNKNOWN ∨ InputGraph.k g = new_k ->
  InputGraph.setK g new_k file w = Done (InputGraph.set_kmer_length g new_k) w.
Proof.
  intros Hk. unfold InputGraph.setK, InputGraph.checkK, bind.
  destruct (decide (InputGraph.k g = UNKNOWN)) as [Hu|Hu].
  - by rewrite decide_False by (by intros []).
  - destruct Hk as [|<-]; [done|].
    rewrite decide_False by (by intros []). by rewrite set_kmer_length_same.
Qed.

(** In the constructor's scan a line of fewer than five fields whose first
    field has the established length (or that comes before any length is
    established) prints nothing and counts for zero k-mers. *)
Lemma scan_text_short_line fuel (line rest : list ascii) file g w :
  NEWLINE ∉ line ->
  (length (getline_all TAB line) < 5)%nat ->
  InputGraph.k g = UNKNOWN ∨ InputGraph.k g = (parseKMer line).1 ->
  InputGraph.scan_text (S fuel)
    {| buf := line ++ NEWLINE :: rest; eofbit := false |} file g w =
  InputGraph.scan_text fuel {| buf := rest; eofbit := false |} file
    (InputGraph.add_size
       (InputGraph.add_kmer_count
          (InputGraph.set_kmer_length g (parseKMer line).1) 0) file 0) w.
Proof.
  intros Hline Hshort Hk. cbn [InputGraph.scan_text].
  rewrite istream_getline_line by done. cbn [eofbit].
  rewrite (bind_Done _ _ _ _ _ (setK_accepts _ _ _ _ Hk)).
  by destruct (parseKMer_short_line line Hshort) as [-> _].
Qed.

End ShortLines.

(** C6, as the claim states it, fails for the counting scan of the
    constructor: the scan reports nothing for a line of two fields, and when
    the first field of such a line differs in length from the length
    established before, the scan ends the process in [checkK].  A shard whose
    only line has two fields is counted by the scan, which takes its length
    from that line, and then ends the process when it is loaded: [readText]
    rejects the line and returns no length. *)
Lemma counting_scan_short_line_silent_or_fatal :
  (exists g, InputGraph.create (H := Reference.collaborators) ["a"%string] false
               short_line_world = Done g short_line_world ∧
             cerr short_line_world = []) ∧
  InputGraph.create (H := Reference.collaborators) ["a"%string] false
    short_line_after_kmer_world =
  Exit (printing short_line_after_kmer_world
          [CheckKInvalidLength "a.gcsa2"; CheckKExpected 3 2]) ∧
  (let* g := InputGraph.create (H := Reference.collaborators) ["a"%string] false in
   InputGraph.read (H := Reference.collaborators) g) short_line_world =
  Exit (printing short_line_world
          [TokenizeTokenCount; TokenizeLineWas two_field_line;
           CheckKInvalidLength "a.gcsa2"; CheckKExpected 2 SIZE_MAX]).
Proof. split_and!; [eexists; split| |]; by vm_compute. Qed.

(** C6, amended. A line of fewer than five tab-separated fields is rejected
    by [tokenize] with its diagnostic; [readText] then goes on with the next
    line, having loaded nothing and changed no length, and a text of such lines
    only is read to its end.  In the counting scan of the constructor
    [parseKMer] counts zero successors for such a line, and when its first
    field has the established length, or no length is established yet, the
    scan goes on without printing and with zero added to the counts. *)
Theorem short_line_is_skipped `{Collaborators} :
  (forall line : list ascii,
     (length (getline_all TAB line) < 5)%nat ->
     tokenize line [] =
       (false, getline_all TAB line, [TokenizeTokenCount; TokenizeLineWas line])) ∧
  (forall fuel (line rest : list ascii) kmer_length st,
     NEWLINE ∉ line ->
     (length (getline_all TAB line) < 5)%nat ->
     readText_loop (S fuel) {| buf := line ++ NEWLINE :: rest; eofbit := false |}
       kmer_length st =
     readText_loop fuel {| buf := rest; eofbit := false |} kmer_length
       (printing_r st [TokenizeTokenCount; TokenizeLineWas line])) ∧
  (forall (lines : list (list ascii)) append st,
     Forall (fun line => (NEWLINE ∉ line) ∧
                         (length (getline_all TAB line) < 5)%nat) lines ->
     readText (istream_of (lines_bytes lines)) append st =
     Done SIZE_MAX {| kmers := if append then kmers st else [];
                      printed := printed st ++ rejections lines |}) ∧
  (forall line : list ascii,
     (length (getline_all TAB line) < 5)%nat -> (parseKMer line).2 = 0) ∧
  (forall fuel (line rest : list ascii) file g w,
     NEWLINE ∉ line ->
     (length (getline_all TAB line) < 5)%nat ->
     InputGraph.k g = UNKNOWN ∨ InputGraph.k g = (parseKMer line).1 ->
     InputGraph.scan_text (S fuel)
       {| buf := line ++ NEWLINE :: rest; eofbit := false |} file g w =
     InputGraph.scan_text fuel {| buf := rest; eofbit := false |} file
       (InputGraph.add_size
          (InputGraph.add_kmer_count
             (InputGraph.set_kmer_length g (parseKMer line).1) 0) file 0) w).
Proof.
  split_and!.
  - intros line Hshort. apply tokenize_not_five. lia.
  - intros fuel line rest kmer_length st Hline Hshort.
    apply readText_loop_rejected_line; [done | lia].
  - intros lines append st Hlines. apply readText_rejected_lines_only.
    eapply Forall_impl; [done|]. intros line [? ?]. split; [done | lia].
  - intros line Hshort. by apply parseKMer_short_line.
  - intros. by apply scan_text_short_line.
Qed.

Lemma short_line_is_skipped_witness :
  readText (H := Reference.collaborators)
    (istream_of (lines_bytes [two_field_line])) false
    {| kmers := []; printed := [] |} =
  Done SIZE_MAX {| kmers := [];
                   printed := [TokenizeTokenCount;
                               TokenizeLineWas two_field_line] |} ∧
  (parseKMer (H := Reference.collaborators) two_field_line).2 = 0.
Proof.
  split.
  - apply (proj1 (proj2 (proj2 (short_line_is_skipped
                                   (H := Reference.collaborators))))
             [two_field_line] false {| kmers := []; printed := [] |}).
    apply Forall_cons; split; [split | by apply Forall_nil].
    + by apply (bool_decide_unpack _).
    + vm_compute. lia.
  - apply (proj1 (proj2 (proj2 (proj2 (short_line_is_skipped
                                          (H := Reference.collaborators)))))).
    vm_compute. lia.
Defined.

(** ** Length consistency across sections, lines and shard files *)

Section ScanObservations.
Context `{Collaborators}.

Lemma setK_add_kmer_count g n new_k file w :
  InputGraph.setK (InputGraph.add_kmer_count g n) new_k file w =
    (let* g' := InputGraph.setK g new_k file in
     ret (InputGraph.add_kmer_count g' n)) w.
Proof.
  unfold InputGraph.setK, InputGraph.checkK, bind, ret. simpl.
  destruct (decide (InputGraph.k g = UNKNOWN)); simpl;
    repeat case_decide; done.
Qed.

Lemma absorb_app g obs1 obs2 w :
  absorb g (obs1 ++ obs2) w = (let* g' := absorb g obs1 in absorb g' obs2) w.
Proof.
  revert g. induction obs1 as [|[file [len n]] obs1 IH]; intros g; simpl; [done|].
  unfold bind in *.
  destruct (InputGraph.setK g len file w) as [g1 w1| | |] eqn:HsetK; [|done..].
  apply setK_Done_inv in HsetK as (-> & _). apply IH.
Qed.

Lemma absorb_Done_inv obs : forall g w g' w',
  absorb g obs w = Done g' w' ->
  w' = w ∧ InputGraph.filenames g' = InputGraph.filenames g ∧
  InputGraph.binary g' = InputGraph.binary g.
Proof.
  induction obs as [|[file [len n]] obs IH]; intros g w g' w' Hrun; simpl in Hrun.
  - by apply ret_Done_inv in Hrun as [<- <-].
  - apply bind_Done_inv in Hrun as (g1 & w1 & HsetK & Hrun).
    apply setK_Done_inv in HsetK as (-> & _ & _ & ->).
    apply IH in Hrun as (-> & -> & ->). by case_decide.
Qed.

Lemma istream_seekg_app (pre rest : list ascii) :
  istream_seekg (length pre) {| buf := pre ++ rest; eofbit := false |} =
    {| buf := rest; eofbit := false |}.
Proof. unfold istream_seekg. simpl. by rewrite drop_app_length. Qed.

Lemma scan_binary_sections ss : forall fuel file g w,
  Forall section_ok ss ->
  (0 < sizeof_header)%nat ->
  (length (sections_bytes ss) < fuel)%nat ->
  InputGraph.scan_binary fuel {| buf := sections_bytes ss; eofbit := false |}
    file g w =
  absorb g (map (fun s => (file, section_observation s)) ss) w.
Proof.
  induction ss as [|[h payload] ss IH]; intros fuel file g w Hok Hheader Hfuel;
    (destruct fuel as [|fuel]; [lia|]).
  - cbn [InputGraph.scan_binary sections_bytes map concat].
    by rewrite istream_read_at_end.
  - apply Forall_cons in Hok as [([Hlen Hdec] & Hpos & Hcount & Hpayload) Hok].
    simpl in Hlen, Hdec, Hpos, Hcount, Hpayload.
    assert (sections_bytes ((h, payload) :: ss) =
            header_bytes h ++ payload ++ sections_bytes ss) as Hbytes.
    { unfold sections_bytes, section_bytes. simpl. by rewrite <- app_assoc. }
    rewrite Hbytes in *. cbn [InputGraph.scan_binary].
    rewrite <- Hlen, istream_read_app. cbn [eofbit]. rewrite Hdec.
    cbn [map absorb section_observation fst snd].
    unfold bind at 1. rewrite setK_add_kmer_count. unfold bind at 1 2.
    destruct (InputGraph.setK g (GraphFileHeader.kmer_length h) file w)
      as [g1 w1| | |] eqn:HsetK; [|done..].
    unfold ret at 1. rewrite wrap_small by lia. rewrite decide_False by lia.
    rewrite <- Hpayload, istream_seekg_app.
    rewrite !length_app in Hfuel. apply IH; [done..|lia].
Qed.

Lemma scan_text_lines lines : forall fuel file g w,
  Forall (fun line => NEWLINE ∉ line) lines ->
  (length (lines_bytes lines) < fuel)%nat ->
  InputGraph.scan_text fuel {| buf := lines_bytes lines; eofbit := false |}
    file g w =
  absorb g (map (fun line => (file, parseKMer line)) lines) w.
Proof.
  induction lines as [|line lines IH]; intros fuel file g w Hok Hfuel;
    (destruct fuel as [|fuel]; [lia|]).
  - done.
  - apply Forall_cons in Hok as [Hline Hok].
    rewrite <- (app_nil_r (lines_bytes (line :: lines))) in *.
    rewrite lines_bytes_cons_app, app_nil_r in *.
    cbn [InputGraph.scan_text]. rewrite istream_getline_line by done.
    cbn [eofbit map absorb]. destruct (parseKMer line) as [len n].
    unfold bind at 1 2. cbn [fst snd].
    destruct (InputGraph.setK g len file w) as [g1 w1| | |]; [|done..].
    rewrite length_app in Hfuel. simpl in Hfuel. apply IH; [done|lia].
Qed.

Lemma scan_file_observations g file w content obs :
  (0 < sizeof_header)%nat ->
  (file < InputGraph.files g)%nat ->
  fs w !! InputGraph.filename g file = Some content ->
  shard_observations (InputGraph.binary g) content obs ->
  InputGraph.scan_file g file w = absorb g (map (pair file) obs) w.
Proof.
  intros Hheader Hfile Hcontent Hobs.
  unfold InputGraph.scan_file, InputGraph.open.
  rewrite decide_False by lia.
  unfold bind at 1 2. unfold open_in. rewrite Hcontent.
  change (istream_of <$> Some content) with (Some (istream_of content)).
  cbv beta iota. unfold ret at 1. unfold istream_of. cbn [buf].
  unfold shard_observations in Hobs.
  destruct (InputGraph.binary g).
  - destruct Hobs as (ss & Hok & -> & ->). rewrite <- list_fmap_compose.
    by apply scan_binary_sections; [..|lia].
  - destruct Hobs as (lines & Hok & -> & ->). rewrite <- list_fmap_compose.
    by apply scan_text_lines; [|lia].
Qed.

End ScanObservations.

Section EstablishedLength.
Context `{Collaborators}.

Lemma scan_files_observations shards : forall start g w,
  (0 < sizeof_header)%nat ->
  shards_hold g w start shards ->
  InputGraph.scan_files (seq start (length shards)) g w =
  absorb g (concat (imap (fun i obs => map (pair (start + i)%nat) obs) shards)) w.
Proof.
  induction shards as [|obs shards IH]; intros start g w Hheader Hhold; [done|].
  cbn [length seq InputGraph.scan_files imap concat].
  rewrite absorb_app. unfold bind.
  destruct (Hhold 0%nat obs eq_refl) as (Hfile & content & Hcontent & Hobs).
  rewrite Nat.add_0_r in *.
  rewrite (scan_file_observations g start w content obs) by done.
  destruct (absorb g (map (pair start) obs) w) as [g1 w1| | |] eqn:Hrun;
    [|done..].
  apply absorb_Done_inv in Hrun as (-> & Hnames & Hbinary).
  rewrite IH; [|done|].
  - f_equal. f_equal. apply imap_ext. intros i x _. unfold compose.
    by replace (start + S i)%nat with (S start + i)%nat by lia.
  - intros i obs' Hi. destruct (Hhold (S i) obs' Hi) as (Hlt & c & Hc & Ho).
    unfold InputGraph.files, InputGraph.filename in *.
    rewrite Hnames, Hbinary. replace (S start + i)%nat with (start + S i)%nat by lia.
    eauto.
Qed.

Lemma setK_rejects g new_k file w :
  InputGraph.k g ≠ UNKNOWN ->
  new_k ≠ InputGraph.k g ->
  InputGraph.setK g new_k file w =
  Exit (printing w [CheckKInvalidLength (InputGraph.filename g file);
                    CheckKExpected (InputGraph.k g) new_k]).
Proof.
  intros Hk Hnew. unfold InputGraph.setK, InputGraph.checkK.
  destruct (decide (InputGraph.k g = UNKNOWN)); [done|].
  by destruct (decide (new_k ≠ InputGraph.k g)).
Qed.

(** Once a length other than [UNKNOWN] is established, the first observation
    with another length ends the process in [checkK]. *)
Lemma absorb_mismatch pre : forall g w file l n post,
  InputGraph.k g ≠ UNKNOWN ->
  Forall (fun o => o.2.1 = InputGraph.k g) pre ->
  l ≠ InputGraph.k g ->
  absorb g (pre ++ (file, (l, n)) :: post) w =
  Exit (printing w [CheckKInvalidLength (InputGraph.filename g file);
                    CheckKExpected (InputGraph.k g) l]).
Proof.
  induction pre as [|[f [l' n']] pre IH]; intros g w file l n post Hk Hpre Hl.
  - cbn [app absorb]. apply bind_Exit. by apply setK_rejects.
  - apply Forall_cons in Hpre as [Hl' Hpre]. simpl in Hl'. subst l'.
    cbn [app absorb]. unfold bind at 1.
    rewrite setK_accepts by (by right). rewrite set_kmer_length_same.
    rewrite IH; [done..|]. by destruct g.
Qed.

(** Observations that all agree with the established length are absorbed. *)
Lemma absorb_consistent obs : forall g w,
  InputGraph.k g ≠ UNKNOWN ->
  Forall (fun o => o.2.1 = InputGraph.k g) obs ->
  exists g', absorb g obs w = Done g' w ∧ InputGraph.k g' = InputGraph.k g.
Proof.
  induction obs as [|[f [l n]] obs IH]; intros g w Hk Hobs; [by eexists|].
  apply Forall_cons in Hobs as [Hl Hobs]. simpl in Hl. subst l.
  cbn [absorb]. unfold bind at 1.
  rewrite setK_accepts by (by right). rewrite set_kmer_length_same.
  destruct (IH (InputGraph.add_size (InputGraph.add_kmer_count g n) f n) w)
    as (g' & Hrun & Hk'); [done..|]. eauto.
Qed.

(** The first observation establishes its length. *)
Lemma absorb_first g w file l n obs :
  InputGraph.k g = UNKNOWN ->
  absorb g ((file, (l, n)) :: obs) w =
  absorb (InputGraph.add_size
            (InputGraph.add_kmer_count (InputGraph.set_kmer_length g l) n) file n)
    obs w.
Proof.
  intros Hk. cbn [absorb]. unfold bind at 1.
  rewrite setK_accepts; [done | by left].
Qed.

Lemma create_observations (base_names : list string) (binary_format : bool)
    (w : World) (shards : list (list (Z * Z))) :
  (0 < sizeof_header)%nat ->
  Forall2 (fun name obs =>
             exists content,
               fs w !! (name +:+ (if binary_format then InputGraph.BINARY_EXTENSION
                                  else InputGraph.TEXT_EXTENSION)) = Some content ∧
               shard_observations binary_format content obs)
    base_names shards ->
  InputGraph.create base_names binary_format w =
  absorb {| InputGraph.binary := binary_format; InputGraph.kmer_count := 0;
            InputGraph.kmer_length := UNKNOWN;
            InputGraph.filenames :=
              map (fun b => b +:+ (if binary_format then InputGraph.BINARY_EXTENSION
                                   else InputGraph.TEXT_EXTENSION)) base_names;
            InputGraph.sizes := replicate (length base_names) 0 |}
    (tagged shards) w.
Proof.
  intros Hheader Hshards. unfold InputGraph.create, tagged.
  pose proof (Forall2_length _ _ _ Hshards) as Hlen.
  unfold InputGraph.files at 1. cbn [InputGraph.filenames].
  rewrite length_map, Hlen.
  apply (scan_files_observations shards 0%nat); [done|].
  intros i obs Hi. cbn [Nat.add].
  destruct (Forall2_lookup_r _ _ _ _ _ Hshards Hi) as (name & Hname & c & Hc & Ho).
  unfold InputGraph.files, InputGraph.filename. cbn [InputGraph.filenames].
  rewrite length_map, list_lookup_fmap, Hname. split.
  - by eapply lookup_lt_Some.
  - exists c. by split.
Qed.

End EstablishedLength.

(** ** Length consistency inside one stream *)

Section ReaderConsistency.
Context `{Collaborators}.

Lemma KMers_of_bytes_length n bytes : length (KMers_of_bytes n bytes) = n.
Proof.
  unfold KMers_of_bytes. rewrite length_map.
  revert bytes. induction n as [|n IH]; intros bytes; simpl; [done|].
  by rewrite IH.
Qed.

(** Loading the records of a section with a complete payload. *)
Lemma read_section_records_payload kmer_count (payload rest : list ascii) st :
  0 ≤ kmer_count ->
  kmer_count * Z.of_nat sizeof_KMer < 2 ^ 63 ->
  length payload = Z.to_nat (kmer_count * Z.of_nat sizeof_KMer) ->
  Z.of_nat (length (kmers st)) + kmer_count < 2 ^ 64 ->
  exists st',
    read_section_records kmer_count
      {| buf := payload ++ rest; eofbit := false |} st =
    Done {| buf := rest; eofbit := false |} st' ∧
    printed st' = printed st ∧
    Z.of_nat (length (kmers st')) = Z.of_nat (length (kmers st)) + kmer_count.
Proof.
  intros Hpos Hbytes Hpayload Hsize. unfold read_section_records.
  rewrite (wrap_small (_ + _)) by lia.
  rewrite (wrap_small (_ * _)) by lia.
  rewrite decide_False by lia.
  rewrite <- Hpayload, istream_read_app.
  assert (Z.to_nat (Z.of_nat (length (kmers st)) + kmer_count) =
          (length (kmers st) + Z.to_nat kmer_count)%nat) as -> by lia.
  unfold resize. rewrite take_ge by lia.
  replace (length (kmers st) + Z.to_nat kmer_count - length (kmers st))%nat
    with (Z.to_nat kmer_count) by lia.
  rewrite drop_app_length, take_app_length, length_replicate.
  rewrite decide_True by (rewrite Hpayload; lia).
  eexists. split; [done|]. split; [done|]. simpl.
  rewrite length_app, KMers_of_bytes_length. lia.
Qed.

(** An iteration of [readBinary] on a section that is let through. *)
Lemma readBinary_loop_section fuel (s : GraphFileHeader.t * list ascii)
    rest kmer_length section st :
  section_ok s ->
  GraphFileHeader.flags s.1 = 0 ->
  lets_through kmer_length (GraphFileHeader.kmer_length s.1) ->
  Z.of_nat (length (kmers st)) + GraphFileHeader.kmer_count s.1 < 2 ^ 64 ->
  exists st',
    readBinary_loop (S fuel)
      {| buf := section_bytes s ++ rest; eofbit := false |}
      kmer_length section st =
    readBinary_loop fuel {| buf := rest; eofbit := false |}
      (GraphFileHeader.kmer_length s.1) (wrap (section + 1)) st' ∧
    printed st' = printed st ∧
    Z.of_nat (length (kmers st')) =
      Z.of_nat (length (kmers st)) + GraphFileHeader.kmer_count s.1.
Proof.
  destruct s as [h payload]. unfold section_bytes. simpl fst. simpl snd.
  intros ([Hlen Hdec] & Hpos & Hbytes & Hpayload) Hflags Hthrough Hsize.
  simpl in Hlen, Hdec, Hpos, Hbytes, Hpayload.
  destruct (read_section_records_payload _ payload rest st Hpos Hbytes
              Hpayload Hsize) as (st' & Hread & Hprinted & Hlength).
  exists st'. split; [|done].
  cbn [readBinary_loop]. rewrite <- app_assoc, <- Hlen, istream_read_app.
  cbn [eofbit]. rewrite Hdec. rewrite decide_False by (by intros []).
  unfold bind at 1.
  destruct Hthrough as [[-> Hvalid]|[Hk <-]].
  - rewrite decide_True by done. rewrite decide_False by lia.
    unfold ret at 1. by rewrite (bind_Done _ _ _ _ _ Hread).
  - rewrite decide_False by done. rewrite decide_False by (by intros []).
    unfold ret at 1. by rewrite (bind_Done _ _ _ _ _ Hread).
Qed.

(** An iteration of [readBinary] on a header whose length differs from the
    established one. *)
Lemma readBinary_loop_mismatch fuel (h : GraphFileHeader.t) rest
    kmer_length section st :
  header_layout_ok h ->
  GraphFileHeader.flags h = 0 ->
  kmer_length ≠ SIZE_MAX ->
  GraphFileHeader.kmer_length h ≠ kmer_length ->
  readBinary_loop (S fuel) {| buf := header_bytes h ++ rest; eofbit := false |}
    kmer_length section st =
  Exit (printing_r st [ReadBinaryLengthMismatch section
                         (GraphFileHeader.kmer_length h) kmer_length]).
Proof.
  intros [Hlen Hdec] Hflags Hk Hne. cbn [readBinary_loop].
  rewrite <- Hlen, istream_read_app. cbn [eofbit]. rewrite Hdec.
  rewrite decide_False by (by intros []).
  rewrite decide_False by done. by rewrite decide_True by done.
Qed.

(** The sections before the offending one, all of the established length. *)
Lemma readBinary_loop_sections pre : forall fuel rest kmer_length section st,
  kmer_length ≠ SIZE_MAX ->
  Forall (fun s => section_ok s ∧ GraphFileHeader.flags s.1 = 0 ∧
                   GraphFileHeader.kmer_length s.1 = kmer_length) pre ->
  Z.of_nat (length (kmers st)) +
    sum_sizes (map (fun s => GraphFileHeader.kmer_count s.1) pre) < 2 ^ 64 ->
  exists st',
    readBinary_loop (length pre + fuel)
      {| buf := sections_bytes pre ++ rest; eofbit := false |}
      kmer_length (wrap section) st =
    readBinary_loop fuel {| buf := rest; eofbit := false |}
      kmer_length (wrap (section + Z.of_nat (length pre))) st' ∧
    printed st' = printed st.
Proof.
  induction pre as [|s pre IH]; intros fuel rest kmer_length section st Hk Hpre Hsize.
  - exists st. simpl. by rewrite Z.add_0_r.
  - apply Forall_cons in Hpre as [(Hok & Hflags & Hlen) Hpre].
    cbn [map] in Hsize. rewrite sum_sizes_cons in Hsize.
    assert (0 ≤ sum_sizes (map (fun s => GraphFileHeader.kmer_count s.1) pre))
      as Hsum.
    { apply sum_sizes_nonneg, Forall_fmap. eapply Forall_impl; [done|].
      by intros s' ((_ & ? & _) & _). }
    destruct (readBinary_loop_section (length pre + fuel) s
                (sections_bytes pre ++ rest) kmer_length (wrap section) st)
      as (st1 & Hstep & Hprinted1 & Hlength1); [done..| |lia|].
    { right. by rewrite Hlen. }
    destruct (IH fuel rest kmer_length (section + 1) st1)
      as (st' & Hrest & Hprinted); [done..|lia|].
    exists st'. split; [|congruence].
    unfold sections_bytes in *. cbn [map concat length Nat.add].
    rewrite <- app_assoc, Hstep, Hlen, wrap_add_l, Hrest.
    do 2 f_equal. lia.
Qed.

End ReaderConsistency.

Section ReaderMismatch.
Context `{Collaborators}.

Lemma sections_bytes_length ss :
  Forall section_ok ss ->
  (length ss * sizeof_header ≤ length (sections_bytes ss))%nat.
Proof.
  induction 1 as [|s ss Hs _ IH]; simpl; [lia|].
  destruct s as [h payload], Hs as ([Hlen _] & _).
  unfold sections_bytes, section_bytes in *. simpl in *.
  rewrite !length_app, Hlen. lia.
Qed.

Lemma readBinary_mismatch (s1 : GraphFileHeader.t * list ascii) pre
    (h : GraphFileHeader.t) (rest : list ascii) (append : bool) (st : Reading) :
  (0 < sizeof_header)%nat ->
  0 < GraphFileHeader.kmer_length s1.1 ≤ MAX_LENGTH ->
  GraphFileHeader.kmer_length s1.1 ≠ SIZE_MAX ->
  Forall (fun s => section_ok s ∧ GraphFileHeader.flags s.1 = 0 ∧
                   GraphFileHeader.kmer_length s.1 =
                     GraphFileHeader.kmer_length s1.1) (s1 :: pre) ->
  header_layout_ok h ->
  GraphFileHeader.flags h = 0 ->
  GraphFileHeader.kmer_length h ≠ GraphFileHeader.kmer_length s1.1 ->
  Z.of_nat (length (if append then kmers st else [])) +
    sum_sizes (map (fun s => GraphFileHeader.kmer_count s.1) (s1 :: pre)) < 2 ^ 64 ->
  exists st',
    readBinary (istream_of (sections_bytes (s1 :: pre) ++ header_bytes h ++ rest))
      append st = Exit st' ∧
    printed st' =
      printed st ++
      [ReadBinaryLengthMismatch (wrap (Z.of_nat (S (length pre))))
         (GraphFileHeader.kmer_length h) (GraphFileHeader.kmer_length s1.1)].
Proof.
  intros Hheader Hvalid Hk Hsections Hh Hflags Hne Hsize.
  set (l1 := GraphFileHeader.kmer_length s1.1) in *.
  rewrite readBinary_start. unfold istream_of. simpl buf.
  pose proof Hsections as Hall.
  apply Forall_cons in Hsections as [(Hok1 & Hflags1 & _) Hpre].
  cbn [map] in Hsize. rewrite sum_sizes_cons in Hsize.
  assert (0 ≤ sum_sizes (map (fun s => GraphFileHeader.kmer_count s.1) pre))
    as Hsum.
  { apply sum_sizes_nonneg, Forall_fmap. eapply Forall_impl; [done|].
    by intros s' ((_ & ? & _) & _). }
  assert (exists st',
    readBinary_loop (S (length pre + 1))
      {| buf := sections_bytes (s1 :: pre) ++ header_bytes h ++ rest;
         eofbit := false |} SIZE_MAX 0 (start append st) = Exit st' ∧
    printed st' =
      printed st ++
      [ReadBinaryLengthMismatch (wrap (Z.of_nat (S (length pre))))
         (GraphFileHeader.kmer_length h) l1]) as (st' & Hrun & Hprinted).
  { destruct (readBinary_loop_section (length pre + 1) s1
                (sections_bytes pre ++ header_bytes h ++ rest) SIZE_MAX 0
                (start append st)) as (st1 & Hstep & Hprinted1 & Hlength1);
      [done..|by left|simpl; lia|].
    unfold start in Hlength1, Hprinted1. simpl in Hlength1, Hprinted1.
    destruct (readBinary_loop_sections pre 1 (header_bytes h ++ rest) l1 1 st1)
      as (st2 & Hsteps & Hprinted2); [done..|lia|].
    exists (printing_r st2 [ReadBinaryLengthMismatch
                              (wrap (Z.of_nat (S (length pre))))
                              (GraphFileHeader.kmer_length h) l1]).
    split; [|simpl; congruence].
    unfold sections_bytes in *. cbn [map concat]. rewrite <- app_assoc.
    fold l1 in Hstep. rewrite Hstep.
    change (0 + 1) with 1. rewrite Hsteps, readBinary_loop_mismatch by done.
    by replace (Z.of_nat (S (length pre))) with (1 + Z.of_nat (length pre))
      by lia. }
  exists st'. split; [|done]. rewrite <- Hrun.
  apply readBinary_loop_fuel; [|by rewrite Hrun].
  pose proof (sections_bytes_length (s1 :: pre)) as Hlen.
  destruct Hh as [Hhlen _]. rewrite !length_app, Hhlen.
  assert (Forall section_ok (s1 :: pre)) as Hoks.
  { eapply Forall_impl; [done|]. by intros s' (? & _). }
  specialize (Hlen Hoks). simpl in Hlen. nia.
Qed.

Lemma readText_loop_accepted_line fuel (line rest : list ascii) kmer_length st len :
  NEWLINE ∉ line ->
  accepted_with len line ->
  lets_through kmer_length len ->
  exists st',
    readText_loop (S fuel) {| buf := line ++ NEWLINE :: rest; eofbit := false |}
      kmer_length st =
    readText_loop fuel {| buf := rest; eofbit := false |} len st' ∧
    printed st' = printed st.
Proof.
  intros Hline [Htokens Hlen] Hthrough. cbn [readText_loop].
  rewrite istream_getline_line by done. cbn [eofbit].
  destruct (tokenize_five line Htokens) as (tokens & -> & Hfirst).
  rewrite Hfirst, Hlen. simpl negb. cbv iota.
  unfold bind at 1. unfold print_r at 1. unfold bind at 1.
  destruct Hthrough as [[-> Hvalid]|[Hk <-]].
  - rewrite decide_True by done. rewrite decide_False by lia.
    unfold ret at 1. unfold bind, push_successors. eexists. split; [done|].
    simpl. by rewrite app_nil_r.
  - rewrite decide_False by done. rewrite decide_False by (by intros []).
    unfold ret at 1. unfold bind, push_successors. eexists. split; [done|].
    simpl. by rewrite app_nil_r.
Qed.

Lemma readText_loop_mismatch fuel (line rest : list ascii) kmer_length st len :
  NEWLINE ∉ line ->
  accepted_with len line ->
  kmer_length ≠ SIZE_MAX ->
  len ≠ kmer_length ->
  readText_loop (S fuel) {| buf := line ++ NEWLINE :: rest; eofbit := false |}
    kmer_length st =
  Exit (printing_r st [ReadTextLengthMismatch len kmer_length]).
Proof.
  intros Hline [Htokens Hlen] Hk Hne. cbn [readText_loop].
  rewrite istream_getline_line by done. cbn [eofbit].
  destruct (tokenize_five line Htokens) as (tokens & -> & Hfirst).
  rewrite Hfirst, Hlen. simpl negb. cbv iota.
  rewrite decide_False by done. rewrite decide_True by done.
  unfold bind, print_r, exit_failure, printing_r. simpl.
  by rewrite app_nil_r.
Qed.

(** The lines before the offending one: rejected, or accepted with the
    length [l1]. *)
Lemma readText_loop_agreeing l1 before : forall fuel rest kmer_length st,
  0 < l1 ≤ MAX_LENGTH ->
  l1 ≠ SIZE_MAX ->
  kmer_length = SIZE_MAX ∨ kmer_length = l1 ->
  Forall (fun line => (NEWLINE ∉ line) ∧
                      (rejected line ∨ accepted_with l1 line)) before ->
  exists st' kmer_length',
    readText_loop (length before + fuel)
      {| buf := lines_bytes before ++ rest; eofbit := false |} kmer_length st =
    readText_loop fuel {| buf := rest; eofbit := false |} kmer_length' st' ∧
    printed st' = printed st ++ rejections (filter rejected before) ∧
    (kmer_length' = l1 ∨ (kmer_length' = kmer_length ∧ Forall rejected before)).
Proof.
  induction before as [|line before IH];
    intros fuel rest kmer_length st Hvalid Hl1 Hk Hbefore.
  - exists st, kmer_length. simpl. rewrite app_nil_r. split_and!; [done..|].
    right. by split.
  - apply Forall_cons in Hbefore as [[Hline Hcase] Hbefore].
    rewrite lines_bytes_cons_app.
    change (length (line :: before) + fuel)%nat
      with (S (length before + fuel)).
    destruct Hcase as [Hrej|Hacc].
    + rewrite readText_loop_rejected_line by done.
      destruct (IH fuel rest kmer_length
                  (printing_r st [TokenizeTokenCount; TokenizeLineWas line]))
        as (st' & k' & Hrun & Hprinted & Hk'); [done..|].
      exists st', k'. split; [done|]. split.
      * rewrite Hprinted, filter_cons_True by done. unfold rejections. simpl.
        by rewrite <- app_assoc.
      * destruct Hk' as [?|[? ?]]; [by left|right]. split; [done|].
        by apply Forall_cons.
    + destruct (readText_loop_accepted_line (length before + fuel) line
                  (lines_bytes before ++ rest) kmer_length st l1)
        as (st1 & Hstep & Hprinted1); [done..| |].
      { destruct Hk as [->| ->]; [by left | by right]. }
      destruct (IH fuel rest l1 st1) as (st' & k' & Hrun & Hprinted & Hk');
        [done..|by right|done|].
      exists st', k'. split; [by rewrite Hstep|]. split.
      * rewrite Hprinted, Hprinted1, filter_cons_False; [done|].
        destruct Hacc as [Hfive _]. unfold rejected. by intros [].
      * left. by destruct Hk' as [?|[? ?]].
Qed.

Lemma readText_mismatch l1 len (before : list (list ascii))
    (bad rest : list ascii) append st :
  0 < l1 ≤ MAX_LENGTH ->
  l1 ≠ SIZE_MAX ->
  Forall (fun line => (NEWLINE ∉ line) ∧
                      (rejected line ∨ accepted_with l1 line)) before ->
  Exists (accepted_with l1) before ->
  NEWLINE ∉ bad ->
  accepted_with len bad ->
  len ≠ l1 ->
  exists st',
    readText (istream_of (lines_bytes before ++ bad ++ NEWLINE :: rest)) append st =
      Exit st' ∧
    printed st' = printed st ++ rejections (filter rejected before) ++
                  [ReadTextLengthMismatch len l1].
Proof.
  intros Hvalid Hl1 Hbefore Hsome Hbad Hacc Hne.
  rewrite readText_start. unfold istream_of. simpl buf.
  destruct (readText_loop_agreeing l1 before 1 (bad ++ NEWLINE :: rest)
              SIZE_MAX (start append st))
    as (st1 & k1 & Hrun & Hprinted & Hk1); [done|done|by left|done|].
  assert (k1 = l1) as ->.
  { destruct Hk1 as [?|[_ Hall]]; [done|]. exfalso.
    apply Exists_exists in Hsome as (line & Hin & [Hfive _]).
    by apply (proj1 (Forall_forall _ _) Hall line Hin). }
  rewrite (readText_loop_mismatch 0 bad rest l1 st1 len) in Hrun by done.
  eexists. split.
  - rewrite <- Hrun. apply readText_loop_fuel; [|by rewrite Hrun].
    pose proof (lines_bytes_length before). rewrite !length_app. simpl. lia.
  - simpl. rewrite Hprinted. simpl. by rewrite <- app_assoc.
Qed.

End ReaderMismatch.

(** C4, as the claim states it, fails when the first declared length is the
    reserved value [InputGraph::UNKNOWN]: of two shards that declare the
    lengths 2^64 - 1 and 5 the constructor loads the counts without a
    diagnostic and settles on 5. *)
Lemma unknown_first_length_is_replaced :
  InputGraph.create (H := Reference.collaborators) ["a"%string; "b"%string] true
    unknown_then_5_world =
  Done {| InputGraph.binary := true; InputGraph.kmer_count := 0;
          InputGraph.kmer_length := 5;
          InputGraph.filenames := ["a.graph"%string; "b.graph"%string];
          InputGraph.sizes := [0; 0] |} unknown_then_5_world ∧
  cerr unknown_then_5_world = [].
Proof. by vm_compute. Qed.

(** C4, amended. Loading shards whose declared lengths differ ends the
    process with the length-mismatch diagnostic, provided the first length
    observed is not the reserved value (2^64 - 1, [InputGraph::UNKNOWN]):
    - the [InputGraph] constructor, over all sections (binary) or lines
      (text) of all shard files in order, establishes the first length
      observed and ends the process in [checkK] at the first observation, in
      whatever file, with another length;
    - [readBinary] ends the process at the first section whose length differs
      from the valid length of the first section;
    - [readText] ends the process at the first accepted line whose first
      field differs in length from that of the accepted lines before it. *)
Theorem differing_lengths_are_fatal `{Collaborators} :
  (forall (base_names : list string) (binary_format : bool) (w : World)
          (shards : list (list (Z * Z))) f1 l1 n1 pre file l n post,
     (0 < sizeof_header)%nat ->
     Forall2 (fun name obs =>
                exists content,
                  fs w !! (name +:+ (if binary_format
                                     then InputGraph.BINARY_EXTENSION
                                     else InputGraph.TEXT_EXTENSION))
                  = Some content ∧
                  shard_observations binary_format content obs)
       base_names shards ->
     tagged shards = (f1, (l1, n1)) :: pre ++ (file, (l, n)) :: post ->
     l1 ≠ UNKNOWN ->
     Forall (fun o => o.2.1 = l1) pre ->
     l ≠ l1 ->
     InputGraph.create base_names binary_format w =
     Exit (printing w
             [CheckKInvalidLength
                (default EmptyString
                   (map (fun b => b +:+ (if binary_format
                                         then InputGraph.BINARY_EXTENSION
                                         else InputGraph.TEXT_EXTENSION))
                      base_names !! file));
              CheckKExpected l1 l])) ∧
  (forall (s1 : GraphFileHeader.t * list ascii) pre (h : GraphFileHeader.t)
          (rest : list ascii) (append : bool) (st : Reading),
     (0 < sizeof_header)%nat ->
     0 < GraphFileHeader.kmer_length s1.1 ≤ MAX_LENGTH ->
     GraphFileHeader.kmer_length s1.1 ≠ SIZE_MAX ->
     Forall (fun s => section_ok s ∧ GraphFileHeader.flags s.1 = 0 ∧
                      GraphFileHeader.kmer_length s.1 =
                        GraphFileHeader.kmer_length s1.1) (s1 :: pre) ->
     header_layout_ok h ->
     GraphFileHeader.flags h = 0 ->
     GraphFileHeader.kmer_length h ≠ GraphFileHeader.kmer_length s1.1 ->
     Z.of_nat (length (if append then kmers st else [])) +
       sum_sizes (map (fun s => GraphFileHeader.kmer_count s.1) (s1 :: pre))
       < 2 ^ 64 ->
     exists st',
       readBinary
         (istream_of (sections_bytes (s1 :: pre) ++ header_bytes h ++ rest))
         append st = Exit st' ∧
       printed st' =
         printed st ++
         [ReadBinaryLengthMismatch (wrap (Z.of_nat (S (length pre))))
            (GraphFileHeader.kmer_length h)
            (GraphFileHeader.kmer_length s1.1)]) ∧
  (forall l1 len (before : list (list ascii)) (bad rest : list ascii)
          (append : bool) (st : Reading),
     0 < l1 ≤ MAX_LENGTH ->
     l1 ≠ SIZE_MAX ->
     Forall (fun line => (NEWLINE ∉ line) ∧
                         (rejected line ∨ accepted_with l1 line)) before ->
     Exists (accepted_with l1) before ->
     NEWLINE ∉ bad ->
     accepted_with len bad ->
     len ≠ l1 ->
     exists st',
       readText (istream_of (lines_bytes before ++ bad ++ NEWLINE :: rest))
         append st = Exit st' ∧
       printed st' = printed st ++ rejections (filter rejected before) ++
                     [ReadTextLengthMismatch len l1]).
Proof.
  split_and!.
  - intros base_names binary_format w shards f1 l1 n1 pre file l n post
      Hheader Hshards Htagged Hl1 Hpre Hl.
    rewrite (create_observations _ _ _ shards) by done.
    rewrite Htagged, absorb_first by done.
    by rewrite absorb_mismatch.
  - apply readBinary_mismatch.
  - apply readText_mismatch.
Qed.

Lemma differing_lengths_are_fatal_witness :
  InputGraph.create (H := Reference.collaborators) ["a"%string; "b"%string] true
    lengths_4_and_5_world =
  Exit (printing lengths_4_and_5_world
          [CheckKInvalidLength "b.graph"; CheckKExpected 4 5]).
Proof.
  apply (proj1 (differing_lengths_are_fatal (H := Reference.collaborators))
           ["a"%string; "b"%string] true lengths_4_and_5_world
           [[(4, 2)]; [(5, 0)]] 0%nat 4 2 [] 1%nat 5 0 []).
  - simpl. lia.
  - apply Forall2_cons; split; [|apply Forall2_cons; split; [|by apply Forall2_nil]].
    + eexists. split; [by vm_compute|].
      exists [(GraphFileHeader.make 2 4,
               KMers_bytes (H := Reference.collaborators) two_kmers)].
      split_and!; [|by vm_compute..].
      apply Forall_cons; split; [|by apply Forall_nil].
      repeat split; by vm_compute.
    + eexists. split; [by vm_compute|].
      exists [(GraphFileHeader.make 0 5, [])].
      split_and!; [|by vm_compute..].
      apply Forall_cons; split; [|by apply Forall_nil].
      repeat split; by vm_compute.
  - done.
  - by vm_compute.
  - by apply Forall_nil.
  - done.
Defined.

(** ** The loops end before their bounds *)

Lemma istream_getline_shorter inp line inp' :
  istream_getline inp = (line, inp') -> eofbit inp' = false ->
  (length (buf inp') < length (buf inp))%nat.
Proof.
  unfold istream_getline. destruct (eofbit inp) eqn:Heof.
  { intros [= _ <-]. congruence. }
  destruct (split_at_delim NEWLINE (buf inp)) as [l [rest|]] eqn:Hsplit;
    intros [= _ <-]; simpl; [|done].
  intros _. by apply split_at_delim_shorter in Hsplit.
Qed.

Lemma istream_read_shorter n inp bytes inp' :
  istream_read n inp = (bytes, inp') -> eofbit inp' = false ->
  (length (buf inp') + n ≤ length (buf inp))%nat.
Proof.
  unfold istream_read. destruct (eofbit inp) eqn:Heof.
  { intros [= _ <-]. congruence. }
  case_decide; intros [= _ <-]; simpl; [|done].
  intros _. rewrite length_drop. lia.
Qed.

Lemma istream_read_not_longer n inp bytes inp' :
  istream_read n inp = (bytes, inp') ->
  (length (buf inp') ≤ length (buf inp))%nat.
Proof.
  unfold istream_read. destruct (eofbit inp); [by intros [= _ <-]|].
  case_decide; intros [= _ <-]; simpl; [rewrite length_drop|]; lia.
Qed.

Lemma istream_seekg_not_longer n inp :
  (length (buf (istream_seekg n inp)) ≤ length (buf inp))%nat.
Proof.
  unfold istream_seekg. destruct (eofbit inp); simpl; [|rewrite length_drop]; lia.
Qed.

Section Termination.
Context `{Collaborators}.

Lemma readText_loop_ends fuel : forall inp kmer_length st,
  (length (buf inp) < fuel)%nat ->
  readText_loop fuel inp kmer_length st ≠ OutOfFuel.
Proof.
  induction fuel as [|fuel IH]; intros inp kmer_length st Hfuel; [lia|].
  simpl. destruct (istream_getline inp) as [line inp1] eqn:Hline.
  destruct (eofbit inp1) eqn:Heof; [done|].
  apply istream_getline_shorter in Hline; [|done].
  destruct (tokenize line []) as [[ok tokens] diags].
  unfold bind, print_r, push_successors, exit_failure, ret.
  destruct ok; simpl negb; cbv iota; [|apply IH; lia].
  repeat case_decide; try done; apply IH; lia.
Qed.

Lemma readText_ends inp append st : readText inp append st ≠ OutOfFuel.
Proof. rewrite readText_start. apply readText_loop_ends. lia. Qed.

Lemma read_section_records_not_longer kmer_count inp st inp' st' :
  read_section_records kmer_count inp st = Done inp' st' ->
  (length (buf inp') ≤ length (buf inp))%nat.
Proof.
  unfold read_section_records. case_decide; [done|].
  destruct (istream_read _ inp) as [bytes inp1] eqn:Hread.
  case_decide; [|done]. intros [= <- _].
  by apply istream_read_not_longer in Hread.
Qed.

Lemma read_section_records_ends kmer_count inp st :
  read_section_records kmer_count inp st ≠ OutOfFuel.
Proof.
  unfold read_section_records. case_decide; [done|].
  destruct (istream_read _ inp) as [bytes inp1]. by case_decide.
Qed.

Lemma readBinary_loop_ends fuel : forall inp kmer_length section st,
  (0 < sizeof_header)%nat ->
  (length (buf inp) < fuel)%nat ->
  readBinary_loop fuel inp kmer_length section st ≠ OutOfFuel.
Proof.
  induction fuel as [|fuel IH]; intros inp kmer_length section st Hheader Hfuel;
    [lia|].
  simpl. destruct (istream_read sizeof_header inp) as [bytes inp1] eqn:Hread.
  destruct (eofbit inp1) eqn:Heof; [done|].
  apply istream_read_shorter in Hread; [|done].
  case_decide; [done|]. unfold bind at 1.
  assert (forall k1 st1,
            (let* inp2 := read_section_records
                            (GraphFileHeader.kmer_count (header_of_bytes bytes))
                            inp1 in
             readBinary_loop fuel inp2 k1 (wrap (section + 1))) st1
            ≠ OutOfFuel) as Hrest.
  { intros k1 st1. unfold bind.
    destruct (read_section_records _ inp1 st1) as [inp2 st2| | |] eqn:Hrecords;
      [|done|done|by apply read_section_records_ends in Hrecords].
    apply read_section_records_not_longer in Hrecords. apply IH; [done|lia]. }
  unfold print_r, exit_failure, ret, bind.
  repeat case_decide; try done; apply Hrest.
Qed.

Lemma readBinary_ends inp append st :
  (0 < sizeof_header)%nat -> readBinary inp append st ≠ OutOfFuel.
Proof. intros. rewrite readBinary_start. apply readBinary_loop_ends; [done|lia]. Qed.

(** [setK] returns or ends the process. *)
Lemma setK_defined g new_k file w :
  InputGraph.setK g new_k file w ≠ Undefined ∧
  InputGraph.setK g new_k file w ≠ OutOfFuel.
Proof.
  unfold InputGraph.setK, InputGraph.checkK, bind, print, exit_failure, ret.
  by repeat case_decide.
Qed.

Lemma scan_text_ends fuel : forall input file g w,
  (length (buf input) < fuel)%nat ->
  InputGraph.scan_text fuel input file g w ≠ OutOfFuel.
Proof.
  induction fuel as [|fuel IH]; intros input file g w Hfuel; [lia|].
  simpl. destruct (istream_getline input) as [line input1] eqn:Hline.
  destruct (eofbit input1) eqn:Heof; [done|].
  apply istream_getline_shorter in Hline; [|done].
  unfold bind.
  destruct (InputGraph.setK g (parseKMer line).1 file w) as [g1 w1| | |] eqn:HsetK;
    [|done|by apply (proj1 (setK_defined _ _ _ _)) in HsetK
          |by apply (proj2 (setK_defined _ _ _ _)) in HsetK].
  apply IH. lia.
Qed.

Lemma scan_binary_ends fuel : forall input file g w,
  (0 < sizeof_header)%nat ->
  (length (buf input) < fuel)%nat ->
  InputGraph.scan_binary fuel input file g w ≠ OutOfFuel.
Proof.
  induction fuel as [|fuel IH]; intros input file g w Hheader Hfuel; [lia|].
  simpl. destruct (istream_read sizeof_header input) as [bytes input1] eqn:Hread.
  destruct (eofbit input1) eqn:Heof; [done|].
  apply istream_read_shorter in Hread; [|done].
  unfold bind.
  destruct (InputGraph.setK _ _ file w) as [g1 w1| | |] eqn:HsetK;
    [|done|by apply (proj1 (setK_defined _ _ _ _)) in HsetK
          |by apply (proj2 (setK_defined _ _ _ _)) in HsetK].
  case_decide; [done|]. apply IH; [done|].
  pose proof (istream_seekg_not_longer
                (Z.to_nat (wrap (GraphFileHeader.kmer_count
                                   (header_of_bytes bytes) *
                                 Z.of_nat sizeof_KMer))) input1). lia.
Qed.

End Termination.

(** ** Merging the sorted keys of a graph that has k-mers *)

Section MergeKeys.
Context `{Collaborators}.

Lemma coalesce_length cur keys : (0 < length (coalesce cur keys))%nat.
Proof.
  revert cur. induction keys as [|k keys IH]; intros cur; simpl; [lia|].
  case_decide; [apply IH | simpl; lia].
Qed.

(** The loop of the source, run on a vector made of the keys already
    written, the key in hand, slots whose content no longer matters and the
    keys still to come, writes what [coalesce] computes. *)
Lemma merge_keys_coalesce remaining : forall settled cur junk i j,
  i = length settled ->
  j = (i + 1 + length junk)%nat ->
  let r := InputGraph.merge_keys (length remaining) j i
             (settled ++ cur :: junk ++ remaining) in
  take (S r.1) r.2 = settled ++ coalesce cur remaining ∧
  S r.1 = length (settled ++ coalesce cur remaining).
Proof.
  induction remaining as [|k remaining IH]; intros settled cur junk i j Hi Hj r.
  - subst r i. simpl. rewrite app_nil_r, length_app. simpl.
    split; [|lia].
    replace (S (length settled)) with (length (settled ++ [cur]))
      by (rewrite length_app; simpl; lia).
    by rewrite (cons_middle cur settled junk), app_assoc, take_app_length.
  - subst r. cbn [length InputGraph.merge_keys coalesce].
    assert ((settled ++ cur :: junk ++ k :: remaining) !! i = Some cur) as ->.
    { subst i. by rewrite lookup_app_r, Nat.sub_diag by lia. }
    assert ((settled ++ cur :: junk ++ k :: remaining) !! j = Some k) as ->.
    { subst i j. rewrite lookup_app_r by lia.
      replace (length settled + 1 + length junk - length settled)%nat
        with (S (length junk)) by lia.
      simpl. by rewrite lookup_app_r, Nat.sub_diag by lia. }
    simpl default. case_decide as Hlabel.
    + assert (<[i := Key_merge cur k]>
                (settled ++ cur :: junk ++ k :: remaining) =
              settled ++ Key_merge cur k :: (junk ++ [k]) ++ remaining) as ->.
      { subst i. rewrite insert_app_r_alt, Nat.sub_diag by lia. simpl.
        by rewrite <- app_assoc. }
      apply IH; [done|]. rewrite length_app. simpl. lia.
    + rewrite (cons_middle cur settled (coalesce k remaining)), app_assoc.
      destruct junk as [|x junk].
      * assert (<[S i := k]> (settled ++ cur :: [] ++ k :: remaining)
                = (settled ++ [cur]) ++ k :: [] ++ remaining) as ->.
        { subst i. rewrite insert_app_r_alt by lia.
          replace (S (length settled) - length settled)%nat with 1%nat by lia.
          simpl. by rewrite <- app_assoc. }
        apply IH; [rewrite length_app; simpl; lia | simpl in *; lia].
      * assert (<[S i := k]>
                  (settled ++ cur :: (x :: junk) ++ k :: remaining)
                = (settled ++ [cur]) ++ k :: (junk ++ [k]) ++ remaining) as ->.
        { subst i. rewrite insert_app_r_alt by lia.
          replace (S (length settled) - length settled)%nat with 1%nat by lia.
          simpl. by rewrite <- !app_assoc. }
        apply IH; [rewrite length_app; simpl; lia|].
        rewrite length_app. simpl in *. lia.
Qed.

(** For a nonempty sorted vector the merging loop and the final [resize] of
    [InputGraph::read(keys)] return the coalesced keys. *)
Lemma merge_keys_resize (k0 : Z) (keys : list Z) :
  let r := InputGraph.merge_keys (length (k0 :: keys) - 1) 1 0 (k0 :: keys) in
  resize (r.1 + 1) 0 r.2 = coalesce k0 keys.
Proof.
  pose proof (merge_keys_coalesce keys [] k0 [] 0%nat 1%nat eq_refl eq_refl)
    as Hloop.
  simpl in Hloop. simpl. rewrite Nat.sub_0_r.
  destruct (InputGraph.merge_keys (length keys) 1 0 (k0 :: keys)) as [i ks].
  simpl in *. destruct Hloop as [Htake Hlen]. unfold resize.
  replace (i + 1)%nat with (S i) by lia.
  assert (S i ≤ length ks)%nat as Hle.
  { apply (f_equal length) in Htake. rewrite length_take in Htake. lia. }
  rewrite Htake. replace (S i - length ks)%nat with 0%nat by lia.
  by rewrite app_nil_r.
Qed.

Lemma read_keys_coalesce g w keys w1 k0 rest :
  InputGraph.read_file_keys g (seq 0 (InputGraph.files g)) [] w = Done keys w1 ->
  merge_sort Z.le keys = k0 :: rest ->
  InputGraph.read_keys g w = Done (coalesce k0 rest) w1.
Proof.
  intros Hkeys Hsorted. unfold InputGraph.read_keys.
  rewrite (bind_Done _ _ _ _ _ Hkeys), Hsorted.
  pose proof (merge_keys_resize k0 rest) as Hmerge. cbv zeta in Hmerge.
  destruct (InputGraph.merge_keys (length (k0 :: rest) - 1) 1 0 (k0 :: rest))
    as [i ks]. unfold ret. by rewrite <- Hmerge.
Qed.

(** When the label grows with the key and [Key::merge] keeps the label, the
    coalesced keys of a sorted vector have strictly increasing labels: one key
    for every label. *)
Lemma coalesce_labels_increase (keys : list Z) : forall cur,
  (forall a b, a ≤ b -> Key_label a ≤ Key_label b) ->
  (forall a b, Key_label a = Key_label b -> Key_label (Key_merge a b) = Key_label a) ->
  Sorted (fun a b => Key_label a ≤ Key_label b) (cur :: keys) ->
  Sorted (fun a b => Key_label a < Key_label b) (coalesce cur keys) ∧
  Key_label (default 0 (head (coalesce cur keys))) = Key_label cur.
Proof.
  induction keys as [|k keys IH]; intros cur Hmono Hmerge Hsorted; simpl.
  - split; [by repeat constructor | done].
  - apply Sorted_inv in Hsorted as [Hsorted Hhead].
    apply HdRel_inv in Hhead. case_decide as Hlabel.
    + destruct (IH (Key_merge cur k) Hmono Hmerge) as [Hs Hh].
      * apply Sorted_inv in Hsorted as [Hsorted' Hhead'].
        constructor; [done|]. destruct keys as [|k' keys]; constructor.
        apply HdRel_inv in Hhead'. rewrite Hmerge by done. lia.
      * split; [done|]. by rewrite Hh, Hmerge.
    + destruct (IH k Hmono Hmerge Hsorted) as [Hs Hh]. split; [|done].
      constructor; [done|].
      pose proof (coalesce_length k keys) as Hlen.
      destruct (coalesce k keys) as [|x xs]; [simpl in Hlen; lia|].
      constructor. simpl in Hh. lia.
Qed.

End MergeKeys.

(** * Further properties of the code

    What is printed means the diagnostics on [std::cerr]; the status lines
    that the code prints when it is compiled with [VERBOSE_STATUS_INFO] are
    not part of the model. *)

(** ** Streams of several sections *)

Section SeveralSections.
Context `{Collaborators}.

Lemma writeBinary_section out v L :
  writable_vector L v ->
  writeBinary out v L =
    out ++ header_bytes (GraphFileHeader.make (Z.of_nat (length v)) L) ++
    KMers_bytes v.
Proof.
  intros (_ & Hv & Hbytes). unfold writeBinary. simpl GraphFileHeader.kmer_count.
  assert (wrap (Z.of_nat (length v) * Z.of_nat sizeof_KMer) =
          Z.of_nat (length v * sizeof_KMer)) as ->
    by (rewrite wrap_small; lia).
  by rewrite Nat2Z.id, <- (KMers_bytes_length v Hv), firstn_all.
Qed.

Lemma written_snoc L vs v :
  written L (vs ++ [v]) = writeBinary (written L vs) v L.
Proof. unfold written. by rewrite foldl_app. Qed.

Lemma foldl_writeBinary_app L vs : forall out,
  Forall (writable_vector L) vs ->
  foldl (fun out v => writeBinary out v L) out vs = out ++ written L vs.
Proof.
  induction vs as [|v vs IH] using rev_ind; intros out Hvs.
  - unfold written. simpl. by rewrite app_nil_r.
  - apply Forall_app in Hvs as [Hvs Hv]. apply Forall_inv in Hv.
    rewrite written_snoc, foldl_app. simpl.
    rewrite IH by done. rewrite !writeBinary_section by done.
    by rewrite <- !app_assoc.
Qed.

Lemma written_cons L v vs :
  Forall (writable_vector L) (v :: vs) ->
  written L (v :: vs) =
    header_bytes (GraphFileHeader.make (Z.of_nat (length v)) L) ++
    KMers_bytes v ++ written L vs.
Proof.
  intros Hvs. apply Forall_cons in Hvs as [Hv Hvs].
  unfold written at 1. simpl foldl.
  rewrite foldl_writeBinary_app by done.
  rewrite writeBinary_section by done. simpl. by rewrite <- app_assoc.
Qed.

(** One iteration of [readBinary] on a section that [writeBinary] wrote. *)
Lemma readBinary_loop_written_section fuel L v rest kmer_length section st :
  0 < L ≤ MAX_LENGTH ->
  kmer_length = SIZE_MAX ∨ kmer_length = L ->
  writable_vector L v ->
  Z.of_nat (length (kmers st) + length v) < 2 ^ 64 ->
  readBinary_loop (S fuel)
    {| buf := header_bytes (GraphFileHeader.make (Z.of_nat (length v)) L) ++
              KMers_bytes v ++ rest; eofbit := false |}
    kmer_length section st =
  readBinary_loop fuel {| buf := rest; eofbit := false |} L
    (wrap (section + 1)) {| kmers := kmers st ++ v; printed := printed st |}.
Proof.
  intros HL Hk ([Hhlen Hhdec] & Hv & Hbytes) Hsize. cbn [readBinary_loop].
  rewrite <- Hhlen, istream_read_app. cbn [eofbit]. rewrite Hhdec.
  simpl GraphFileHeader.flags. rewrite decide_False by (by intros []).
  simpl GraphFileHeader.kmer_length. simpl GraphFileHeader.kmer_count.
  unfold bind at 1.
  assert ((if decide (kmer_length = SIZE_MAX)
           then if decide (L = 0 ∨ MAX_LENGTH < L)
                then let* _ := print_r [ReadBinaryInvalidLength section L] () in
                     exit_failure
                else ret L
           else if decide (L ≠ kmer_length)
                then let* _ := print_r [ReadBinaryLengthMismatch section L
                                          kmer_length] () in exit_failure
                else ret kmer_length) st = Done L st) as ->.
  { destruct (decide (kmer_length = SIZE_MAX)) as [Hmax|Hmax].
    - by rewrite decide_False by lia.
    - destruct Hk as [?| ->]; [done|]. by rewrite decide_False by (by intros []). }
  by rewrite (bind_Done _ _ _ _ _ (read_section_records_complete v rest st
                                     Hv Hsize Hbytes)).
Qed.

Lemma readBinary_loop_written L vs : forall fuel rest kmer_length section st,
  0 < L ≤ MAX_LENGTH ->
  kmer_length = SIZE_MAX ∨ kmer_length = L ->
  Forall (writable_vector L) vs ->
  Z.of_nat (length (kmers st) + length (concat vs)) < 2 ^ 64 ->
  readBinary_loop (length vs + fuel)
    {| buf := written L vs ++ rest; eofbit := false |}
    kmer_length (wrap section) st =
  readBinary_loop fuel {| buf := rest; eofbit := false |}
    (if vs is [] then kmer_length else L)
    (wrap (section + Z.of_nat (length vs)))
    {| kmers := kmers st ++ concat vs; printed := printed st |}.
Proof.
  induction vs as [|v vs IH]; intros fuel rest kmer_length section st HL Hk Hvs Hsize.
  - unfold written. simpl. rewrite app_nil_r, Z.add_0_r. by destruct st.
  - pose proof Hvs as Hall. apply Forall_cons in Hvs as [Hv Hvs].
    simpl concat in *. rewrite length_app in Hsize.
    rewrite written_cons by done. rewrite <- !app_assoc.
    cbn [length Nat.add].
    rewrite readBinary_loop_written_section by (done || lia).
    rewrite wrap_add_l.
    rewrite (IH fuel rest L (section + 1)); [|done|by right|done|simpl].
    + replace (section + 1 + Z.of_nat (length vs))
        with (section + Z.of_nat (S (length vs))) by lia.
      simpl. rewrite <- app_assoc. by destruct vs.
    + rewrite length_app. lia.
Qed.

Lemma written_length L vs :
  Forall (writable_vector L) vs ->
  (length vs * sizeof_header ≤ length (written L vs))%nat.
Proof.
  induction vs as [|v vs IH]; intros Hvs; [simpl; lia|].
  rewrite written_cons by done.
  apply Forall_cons in Hvs as [([Hlen _] & _) Hvs].
  rewrite !length_app, Hlen. specialize (IH Hvs). simpl. lia.
Qed.

Lemma istream_read_short n (tail : list ascii) :
  (length tail < n)%nat ->
  istream_read n {| buf := tail; eofbit := false |} =
    (tail, {| buf := []; eofbit := true |}).
Proof. intros Hn. unfold istream_read. simpl. by rewrite decide_False by lia. Qed.

Lemma readBinary_written L vs (tail : list ascii) (append : bool) (st : Reading) :
  0 < L ≤ MAX_LENGTH ->
  Forall (writable_vector L) vs ->
  (length tail < sizeof_header)%nat ->
  Z.of_nat (length (if append then kmers st else []) + length (concat vs))
    < 2 ^ 64 ->
  readBinary (istream_of (written L vs ++ tail)) append st =
  Done (if vs is [] then SIZE_MAX else L)
       {| kmers := (if append then kmers st else []) ++ concat vs;
          printed := printed st |}.
Proof.
  intros HL Hvs Htail Hsize. rewrite readBinary_start.
  unfold istream_of. simpl buf.
  assert (readBinary_loop (length vs + 1)
            {| buf := written L vs ++ tail; eofbit := false |} SIZE_MAX (wrap 0)
            (start append st) =
          Done (if vs is [] then SIZE_MAX else L)
               {| kmers := (if append then kmers st else []) ++ concat vs;
                  printed := printed st |}) as Hrun.
  { rewrite readBinary_loop_written; [|done|by left|done|done].
    cbn [readBinary_loop]. by rewrite istream_read_short. }
  change (wrap 0) with 0 in Hrun.
  rewrite <- Hrun. apply readBinary_loop_fuel; [|by rewrite Hrun].
  pose proof (written_length L vs Hvs). rewrite length_app. nia.
Qed.

End SeveralSections.

(** ** The records of a text *)

Lemma split_at_delim_none delim (s : list ascii) :
  delim ∉ s -> split_at_delim delim s = (s, None).
Proof.
  induction s as [|c s IH]; intros Hs; [done|]. simpl.
  apply not_elem_of_cons in Hs as [Hc Hs].
  rewrite decide_False by done. by rewrite IH.
Qed.

Lemma istream_getline_last (tail : list ascii) :
  NEWLINE ∉ tail ->
  istream_getline {| buf := tail; eofbit := false |} =
    (tail, {| buf := []; eofbit := true |}).
Proof. intros Htail. unfold istream_getline. simpl. by rewrite split_at_delim_none. Qed.

Section TextRecords.
Context `{Collaborators}.

Lemma records_of_line_rejected (line : list ascii) :
  rejected line -> records_of_line line = [].
Proof. intros Hrej. unfold records_of_line. by rewrite tokenize_not_five. Qed.

Lemma records_of_line_five (line : list ascii) t0 t1 t2 t3 t4 :
  getline_all TAB line = [t0; t1; t2; t3; t4] ->
  records_of_line line =
    map (KMer_from_tokens ([t0; t1; t2; t3] ++ getline_all COMMA t4))
        (seq 4 (length (getline_all COMMA t4))).
Proof.
  intros Htokens. unfold records_of_line, tokenize. simpl. rewrite Htokens. simpl.
  by rewrite Nat.sub_0_r.
Qed.

Lemma parseKMer_five_or_more (line : list ascii) t0 t1 t2 t3 t4 more :
  getline_all TAB line = t0 :: t1 :: t2 :: t3 :: t4 :: more ->
  parseKMer line =
    (Z.of_nat (length t0), wrap (Z.of_nat (length (getline_all COMMA t4)))).
Proof.
  unfold parseKMer. rewrite (getline_all_unfold TAB line).
  destruct (ss_getline TAB line) as [[a0 s0]|]; [|done].
  rewrite (getline_all_unfold TAB s0).
  destruct (ss_getline TAB s0) as [[a1 s1]|]; [|done].
  rewrite (getline_all_unfold TAB s1).
  destruct (ss_getline TAB s1) as [[a2 s2]|]; [|done].
  rewrite (getline_all_unfold TAB s2).
  destruct (ss_getline TAB s2) as [[a3 s3]|]; [|done].
  rewrite (getline_all_unfold TAB s3).
  destruct (ss_getline TAB s3) as [[a4 s4]|]; [|done].
  intros Heq. by simplify_eq.
Qed.

(** One iteration of [readText] on a line that is let through. *)
Lemma readText_loop_line_records fuel (line rest : list ascii) kmer_length st len :
  NEWLINE ∉ line ->
  accepted_with len line ->
  lets_through kmer_length len ->
  readText_loop (S fuel) {| buf := line ++ NEWLINE :: rest; eofbit := false |}
    kmer_length st =
  readText_loop fuel {| buf := rest; eofbit := false |} len
    {| kmers := kmers st ++ records_of_line line; printed := printed st |}.
Proof.
  intros Hline [Htokens Hlen] Hthrough. cbn [readText_loop].
  rewrite istream_getline_line by done. cbn [eofbit].
  unfold records_of_line.
  destruct (tokenize_five line Htokens) as (tokens & -> & Hfirst).
  rewrite Hfirst, Hlen. simpl negb. cbv iota.
  unfold bind at 1. unfold print_r at 1. unfold bind at 1.
  destruct Hthrough as [[-> Hvalid]|[Hk <-]].
  - rewrite decide_True by done. rewrite decide_False by lia.
    unfold ret at 1. unfold bind, push_successors. simpl.
    by rewrite app_nil_r.
  - rewrite decide_False by done. rewrite decide_False by (by intros []).
    unfold ret at 1. unfold bind, push_successors. simpl.
    by rewrite app_nil_r.
Qed.

Lemma readText_loop_lines l1 lines : forall fuel rest kmer_length st,
  0 < l1 ≤ MAX_LENGTH ->
  l1 ≠ SIZE_MAX ->
  kmer_length = SIZE_MAX ∨ kmer_length = l1 ->
  Forall (fun line => (NEWLINE ∉ line) ∧
                      (rejected line ∨ accepted_with l1 line)) lines ->
  readText_loop (length lines + fuel)
    {| buf := lines_bytes lines ++ rest; eofbit := false |} kmer_length st =
  readText_loop fuel {| buf := rest; eofbit := false |}
    (if decide (Forall rejected lines) then kmer_length else l1)
    {| kmers := kmers st ++ concat (map records_of_line lines);
       printed := printed st ++ rejections (filter rejected lines) |}.
Proof.
  induction lines as [|line lines IH];
    intros fuel rest kmer_length st Hvalid Hl1 Hk Hlines.
  - rewrite decide_True by done. simpl. rewrite !app_nil_r. by destruct st.
  - apply Forall_cons in Hlines as [[Hline Hcase] Hlines].
    rewrite lines_bytes_cons_app.
    change (length (line :: lines) + fuel)%nat with (S (length lines + fuel)).
    destruct (decide (rejected line)) as [Hrej|Hacc].
    + rewrite readText_loop_rejected_line by done.
      rewrite IH by done. unfold printing_r. cbn [kmers printed map concat].
      rewrite records_of_line_rejected by done.
      rewrite filter_cons_True by done. unfold rejections. cbn [map concat].
      rewrite <- app_assoc. cbn [app].
      destruct (decide (Forall rejected lines)) as [Hall|Hall].
      * by rewrite decide_True by (by apply Forall_cons).
      * rewrite decide_False; [done|]. by intros [_ ?]%Forall_cons.
    + destruct Hcase as [?|Hwith]; [done|].
      rewrite (readText_loop_line_records _ _ _ _ _ l1); [|done..|].
      2:{ destruct Hk as [->| ->]; [by left | by right]. }
      rewrite IH; [|done..|by right|done]. cbn [kmers printed map concat].
      rewrite filter_cons_False by done. rewrite <- app_assoc.
      rewrite (decide_False (P := Forall rejected (line :: lines)))
        by (by intros [? _]%Forall_cons).
      by destruct (decide (Forall rejected lines)).
Qed.

Lemma readText_lines l1 lines (tail : list ascii) (append : bool) (st : Reading) :
  0 < l1 ≤ MAX_LENGTH ->
  l1 ≠ SIZE_MAX ->
  Forall (fun line => (NEWLINE ∉ line) ∧
                      (rejected line ∨ accepted_with l1 line)) lines ->
  NEWLINE ∉ tail ->
  readText (istream_of (lines_bytes lines ++ tail)) append st =
  Done (if decide (Forall rejected lines) then SIZE_MAX else l1)
       {| kmers := (if append then kmers st else []) ++
                   concat (map records_of_line lines);
          printed := printed st ++ rejections (filter rejected lines) |}.
Proof.
  intros Hvalid Hl1 Hlines Htail. rewrite readText_start.
  unfold istream_of. simpl buf.
  assert (readText_loop (length lines + 1)
            {| buf := lines_bytes lines ++ tail; eofbit := false |} SIZE_MAX
            (start append st) =
          Done (if decide (Forall rejected lines) then SIZE_MAX else l1)
               {| kmers := (if append then kmers st else []) ++
                           concat (map records_of_line lines);
                  printed := printed st ++ rejections (filter rejected lines) |})
    as Hrun.
  { rewrite (readText_loop_lines l1); [|done..|by left|done].
    cbn [readText_loop]. by rewrite istream_getline_last. }
  rewrite <- Hrun. apply readText_loop_fuel; [|by rewrite Hrun].
  pose proof (lines_bytes_length lines). rewrite length_app. lia.
Qed.

End TextRecords.

(** ** The counts of a scan whose observations agree *)

Section AgreeingScan.
Context `{Collaborators}.

Lemma absorb_shard l1 obs : forall g w pre s post,
  InputGraph.k g = UNKNOWN ∨ InputGraph.k g = l1 ->
  Forall (fun o => o.1 = l1) obs ->
  InputGraph.sizes g = pre ++ s :: post ->
  0 ≤ s < 2 ^ 64 ->
  0 ≤ InputGraph.kmer_count g < 2 ^ 64 ->
  absorb g (map (pair (length pre)) obs) w =
  Done {| InputGraph.binary := InputGraph.binary g;
          InputGraph.kmer_count :=
            wrap (InputGraph.kmer_count g + sum_sizes (map snd obs));
          InputGraph.kmer_length :=
            if obs is [] then InputGraph.kmer_length g else l1;
          InputGraph.filenames := InputGraph.filenames g;
          InputGraph.sizes := pre ++ wrap (s + sum_sizes (map snd obs)) :: post |}
       w.
Proof.
  induction obs as [|[l n] obs IH]; intros g w pre s post Hk Hobs Hsizes Hs Hcount.
  - simpl. rewrite !Z.add_0_r, !wrap_small by done. rewrite <- Hsizes.
    by destruct g.
  - apply Forall_cons in Hobs as [Hl Hobs]. simpl in Hl. subst l.
    cbn [map absorb]. unfold bind. rewrite setK_accepts by done.
    rewrite (IH _ w pre (wrap (s + n)) post).
    + cbn [map snd]. rewrite !sum_sizes_cons. simpl.
      rewrite !wrap_add_l, !Z.add_assoc. by destruct obs.
    + by right.
    + done.
    + simpl. rewrite Hsizes.
      replace (length pre) with (length pre + 0)%nat by lia.
      by rewrite alter_app_r.
    + apply wrap_range.
    + simpl. apply wrap_range.
Qed.

Lemma absorb_shards l1 shards : forall g w filled,
  InputGraph.k g = UNKNOWN ∨ InputGraph.k g = l1 ->
  Forall (Forall (fun o => o.1 = l1)) shards ->
  InputGraph.sizes g = filled ++ replicate (length shards) 0 ->
  0 ≤ InputGraph.kmer_count g < 2 ^ 64 ->
  absorb g (concat (imap (fun i obs => map (pair (length filled + i)%nat) obs)
                      shards)) w =
  Done {| InputGraph.binary := InputGraph.binary g;
          InputGraph.kmer_count :=
            wrap (InputGraph.kmer_count g + sum_sizes (map snd (concat shards)));
          InputGraph.kmer_length :=
            if concat shards is [] then InputGraph.kmer_length g else l1;
          InputGraph.filenames := InputGraph.filenames g;
          InputGraph.sizes :=
            filled ++ map (fun obs => wrap (sum_sizes (map snd obs))) shards |}
       w.
Proof.
  induction shards as [|obs shards IH]; intros g w filled Hk Hall Hsizes Hcount.
  - simpl. rewrite Z.add_0_r, wrap_small by done. simpl in Hsizes.
    rewrite <- Hsizes. by destruct g.
  - apply Forall_cons in Hall as [Hobs Hall].
    cbn [imap concat]. rewrite absorb_app. unfold bind.
    rewrite Nat.add_0_r.
    rewrite (absorb_shard l1 obs g w filled 0 (replicate (length shards) 0));
      [|done..|lia|done].
    specialize (IH
      {| InputGraph.binary := InputGraph.binary g;
         InputGraph.kmer_count :=
           wrap (InputGraph.kmer_count g + sum_sizes (map snd obs));
         InputGraph.kmer_length :=
           if obs is [] then InputGraph.kmer_length g else l1;
         InputGraph.filenames := InputGraph.filenames g;
         InputGraph.sizes :=
           filled ++ wrap (0 + sum_sizes (map snd obs)) ::
           replicate (length shards) 0 |}
      w (filled ++ [wrap (0 + sum_sizes (map snd obs))])).
    rewrite length_app in IH. cbn [length] in IH.
    erewrite (imap_ext _ (fun i obs0 => map (pair (length filled + 1 + i)%nat) obs0));
      [|intros i x _; unfold compose;
        by replace (length filled + S i)%nat with (length filled + 1 + i)%nat by lia].
    rewrite IH.
    + cbn [InputGraph.binary InputGraph.kmer_count InputGraph.kmer_length
           InputGraph.filenames InputGraph.sizes map].
      rewrite map_app, sum_sizes_app, wrap_add_l, Z.add_assoc, Z.add_0_l.
      rewrite <- app_assoc. cbn [app].
      f_equal. f_equal. destruct obs; [done|]. simpl. by destruct (concat shards).
    + unfold InputGraph.k in *. simpl. destruct obs; [done | by right].
    + done.
    + simpl. by rewrite <- app_assoc.
    + simpl. apply wrap_range.
Qed.

Lemma create_agreeing (base_names : list string) (binary_format : bool)
    (w : World) (shards : list (list (Z * Z))) (l1 : Z) :
  (0 < sizeof_header)%nat ->
  Forall2 (fun name obs =>
             exists content,
               fs w !! (name +:+ (if binary_format then InputGraph.BINARY_EXTENSION
                                  else InputGraph.TEXT_EXTENSION)) = Some content ∧
               shard_observations binary_format content obs)
    base_names shards ->
  Forall (Forall (fun o => o.1 = l1)) shards ->
  InputGraph.create base_names binary_format w =
  Done {| InputGraph.binary := binary_format;
          InputGraph.kmer_count := wrap (sum_sizes (map snd (concat shards)));
          InputGraph.kmer_length := if concat shards is [] then UNKNOWN else l1;
          InputGraph.filenames :=
            map (fun b => b +:+ (if binary_format then InputGraph.BINARY_EXTENSION
                                 else InputGraph.TEXT_EXTENSION)) base_names;
          InputGraph.sizes :=
            map (fun obs => wrap (sum_sizes (map snd obs))) shards |}
       w.
Proof.
  intros Hheader Hfiles Hall.
  rewrite (create_observations base_names binary_format w shards) by done.
  unfold tagged.
  rewrite (absorb_shards l1 shards _ w []); [done|by left|done| |done].
  simpl. by rewrite (Forall2_length _ _ _ Hfiles).
Qed.

End AgreeingScan.

(** ** Graphs over files that [writeBinary] wrote *)

Section WrittenFiles.
Context `{Collaborators}.

Lemma written_sections L vs :
  Forall (writable_vector L) vs ->
  written L vs =
    sections_bytes
      (map (fun v => (GraphFileHeader.make (Z.of_nat (length v)) L, KMers_bytes v))
           vs).
Proof.
  induction vs as [|v vs IH]; intros Hvs; [done|].
  rewrite written_cons by done. apply Forall_cons in Hvs as [_ Hvs].
  rewrite IH by done. unfold sections_bytes, section_bytes. simpl.
  by rewrite <- app_assoc.
Qed.

Lemma written_observations L vs :
  Forall (writable_vector L) vs ->
  shard_observations true (written L vs)
    (map (fun v => (L, Z.of_nat (length v))) vs).
Proof.
  intros Hvs. simpl.
  exists (map (fun v => (GraphFileHeader.make (Z.of_nat (length v)) L,
                         KMers_bytes v)) vs).
  split_and!.
  - apply Forall_map. eapply Forall_impl; [exact Hvs|].
    intros v (Hheader & Hv & Hbytes). unfold section_ok. simpl.
    split_and!; [done|lia|done|]. rewrite (KMers_bytes_length v Hv). lia.
  - by apply written_sections.
  - rewrite map_map. by apply map_ext.
Qed.

Lemma sum_sizes_lengths {A} (vs : list (list A)) :
  sum_sizes (map (fun v => Z.of_nat (length v)) vs) = Z.of_nat (length (concat vs)).
Proof.
  induction vs as [|v vs IH]; [done|]. simpl. rewrite length_app, IH. lia.
Qed.

Lemma world_eta (w : World) :
  {| fs := fs w; unwritable := unwritable w; cerr := cerr w;
     temp_count := temp_count w |} = w.
Proof. by destruct w. Qed.

Lemma InputGraph_open_existing g file w content :
  (file < InputGraph.files g)%nat ->
  fs w !! InputGraph.filename g file = Some content ->
  InputGraph.open g file w = Done (istream_of content) w.
Proof.
  intros Hfile Hcontent. unfold InputGraph.open.
  rewrite decide_False by lia.
  unfold bind, open_in. by rewrite Hcontent.
Qed.

(** A single-file read of a file that holds sections of the length of the
    graph. *)
Lemma read_file_written g (v : list KMer) file (append : bool) w L vs :
  InputGraph.binary g = true ->
  InputGraph.k g = L ->
  0 < L ≤ MAX_LENGTH ->
  (0 < sizeof_header)%nat ->
  (file < InputGraph.files g)%nat ->
  fs w !! InputGraph.filename g file = Some (written L vs) ->
  vs ≠ [] ->
  Forall (writable_vector L) vs ->
  Z.of_nat (length (if append then v else []) + length (concat vs)) < 2 ^ 64 ->
  InputGraph.read_file g v file append w =
  Done (if append then v ++ concat vs else markSinkNode (concat vs)) w.
Proof.
  intros Hbinary Hk HL Hheader Hfile Hcontent Hvs Hwritable Hsize.
  unfold InputGraph.read_file.
  rewrite (bind_Done _ _ _ _ _ (InputGraph_open_existing g file w _ Hfile Hcontent)).
  rewrite Hbinary.
  assert (run_reader (readBinary (istream_of (written L vs)) append)
            (if append then v else []) w =
          Done (L, (if append then v else []) ++ concat vs) w) as Hread.
  { unfold run_reader. rewrite <- (app_nil_r (written L vs)).
    rewrite (readBinary_written L vs [] append) by (done || by destruct append).
    rewrite world_eta. destruct vs; [done|]. by destruct append. }
  rewrite (bind_Done _ _ _ _ _ Hread). unfold InputGraph.checkK. simpl fst.
  rewrite decide_False by (by intros []).
  unfold bind, ret. simpl. by destruct append.
Qed.

Lemma read_files_written g w L vss : forall start (v : list KMer),
  InputGraph.binary g = true ->
  InputGraph.k g = L ->
  0 < L ≤ MAX_LENGTH ->
  (0 < sizeof_header)%nat ->
  (forall i vs, vss !! i = Some vs ->
     (start + i < InputGraph.files g)%nat ∧
     fs w !! InputGraph.filename g (start + i) = Some (written L vs) ∧
     vs ≠ [] ∧ Forall (writable_vector L) vs) ->
  Z.of_nat (length v + length (concat (concat vss))) < 2 ^ 64 ->
  InputGraph.read_files g (seq start (length vss)) v w =
  Done (v ++ concat (concat vss)) w.
Proof.
  induction vss as [|vs vss IH]; intros start v Hbinary Hk HL Hheader Hfiles Hsize.
  - simpl. by rewrite app_nil_r.
  - destruct (Hfiles 0%nat vs eq_refl) as (Hfile & Hcontent & Hvs & Hwritable).
    rewrite Nat.add_0_r in *. cbn [concat] in *.
    rewrite concat_app, length_app in Hsize. rewrite concat_app.
    cbn [length seq InputGraph.read_files]. unfold bind.
    rewrite (read_file_written g v start true w L vs) by (done || lia).
    rewrite IH; [by rewrite <- app_assoc|done..| |].
    + intros i vs' Hi. replace (S start + i)%nat with (start + S i)%nat by lia.
      by apply Hfiles.
    + rewrite length_app. lia.
Qed.

End WrittenFiles.

(** ** What the readers leave alone *)

Ltac prefix_of_more :=
  first [done | rewrite <- ?app_assoc; by apply prefix_app_r].

Section ReadersGrow.
Context `{Collaborators}.

Lemma readText_loop_grows fuel : forall inp kmer_length st st',
  final (readText_loop fuel inp kmer_length st) = Some st' ->
  kmers st `prefix_of` kmers st' ∧ printed st `prefix_of` printed st'.
Proof.
  induction fuel as [|fuel IH]; intros inp kmer_length st st' Hfinal; [done|].
  cbn [readText_loop] in Hfinal.
  destruct (istream_getline inp) as [line inp1].
  destruct (eofbit inp1); [by simplify_eq/=|].
  destruct (tokenize line []) as [[ok tokens] diags].
  unfold bind, print_r, ret, exit_failure, push_successors in Hfinal.
  destruct ok; simpl in Hfinal; repeat case_decide; simplify_eq/=;
    try (split; prefix_of_more);
    apply IH in Hfinal as [Hkmers Hprinted]; simpl in *;
    (split; [etrans; [|exact Hkmers] | etrans; [|exact Hprinted]]);
    prefix_of_more.
Qed.

Lemma readText_grows inp (append : bool) st st' :
  final (readText inp append st) = Some st' ->
  (if append then kmers st else []) `prefix_of` kmers st' ∧
  printed st `prefix_of` printed st'.
Proof.
  rewrite readText_start. intros Hfinal.
  by apply readText_loop_grows in Hfinal.
Qed.

Lemma readBinary_loop_prints_more fuel : forall inp kmer_length section st st',
  final (readBinary_loop fuel inp kmer_length section st) = Some st' ->
  printed st `prefix_of` printed st'.
Proof.
  induction fuel as [|fuel IH]; intros inp kmer_length section st st' Hfinal;
    [done|].
  cbn [readBinary_loop] in Hfinal.
  destruct (istream_read sizeof_header inp) as [bytes inp1].
  destruct (eofbit inp1); [by simplify_eq/=|].
  unfold bind, print_r, ret, exit_failure, read_section_records in Hfinal.
  repeat case_decide; simplify_eq/=; try (by apply prefix_app_r);
    destruct (istream_read _ inp1) as [payload inp2];
    repeat case_decide; simplify_eq/=;
    by apply IH in Hfinal.
Qed.

Lemma readBinary_prints_more inp (append : bool) st st' :
  final (readBinary inp append st) = Some st' ->
  printed st `prefix_of` printed st'.
Proof.
  rewrite readBinary_start. intros Hfinal.
  by apply readBinary_loop_prints_more in Hfinal.
Qed.

End ReadersGrow.

(** ** What the graphs leave alone *)

Lemma only_printed_refl w : only_printed w w.
Proof. exists []. unfold printing. rewrite app_nil_r. by destruct w. Qed.

Lemma only_printed_trans w1 w2 w3 :
  only_printed w1 w2 -> only_printed w2 w3 -> only_printed w1 w3.
Proof.
  intros [ds1 ->] [ds2 ->]. exists (ds1 ++ ds2). unfold printing. simpl.
  by rewrite app_assoc.
Qed.

Lemma keeps_files_ret {A} (a : A) : keeps_files (ret a).
Proof. intros w w' [= <-]. apply only_printed_refl. Qed.

Lemma keeps_files_exit {A} : keeps_files (exit_failure (A := A)).
Proof. intros w w' [= <-]. apply only_printed_refl. Qed.

Lemma keeps_files_print ds : keeps_files (print ds).
Proof. intros w w' [= <-]. by exists ds. Qed.

Lemma keeps_files_bind {A B} (m : M World A) (f : A -> M World B) :
  keeps_files m -> (forall a, keeps_files (f a)) -> keeps_files (bind m f).
Proof.
  intros Hm Hf w w' Hfinal. unfold bind in Hfinal.
  destruct (m w) as [a w1|w1| |] eqn:Hrun; [| |done..].
  - eapply only_printed_trans; [apply Hm; by rewrite Hrun | by eapply Hf].
  - apply Hm. by rewrite Hrun.
Qed.

Lemma keeps_files_open_in name : keeps_files (open_in name).
Proof. intros w w' [= <-]. apply only_printed_refl. Qed.

Lemma keeps_files_run_reader {A} (m : M Reading A) (v : list KMer) :
  (forall st st', final (m st) = Some st' -> printed st `prefix_of` printed st') ->
  keeps_files (run_reader m v).
Proof.
  intros Hm w w' Hfinal. unfold run_reader in Hfinal.
  destruct (m {| kmers := v; printed := cerr w |}) as [a st|st| |] eqn:Hrun;
    [| |done..].
  - destruct (Hm _ st ltac:(by rewrite Hrun)) as [ds Hds]. simpl in *.
    simplify_eq. exists ds. unfold printing. by rewrite Hds.
  - destruct (Hm _ st ltac:(by rewrite Hrun)) as [ds Hds]. simpl in *.
    simplify_eq. exists ds. unfold printing. by rewrite Hds.
Qed.

Section GraphsKeepFiles.
Context `{Collaborators}.

Lemma keeps_files_print_exit {A} ds :
  keeps_files (let* _ := print ds in exit_failure (A := A)).
Proof. apply keeps_files_bind; [apply keeps_files_print | intros; apply keeps_files_exit]. Qed.

Lemma InputGraph_open_keeps_files g file : keeps_files (InputGraph.open g file).
Proof.
  unfold InputGraph.open. case_decide; [apply keeps_files_print_exit|].
  apply keeps_files_bind; [apply keeps_files_open_in|].
  intros [inp|]; [apply keeps_files_ret | apply keeps_files_print_exit].
Qed.

Lemma checkK_keeps_files g new_k file : keeps_files (InputGraph.checkK g new_k file).
Proof.
  unfold InputGraph.checkK. case_decide;
    [apply keeps_files_print_exit | apply keeps_files_ret].
Qed.

Lemma setK_keeps_files g new_k file : keeps_files (InputGraph.setK g new_k file).
Proof.
  unfold InputGraph.setK. apply keeps_files_bind; [apply checkK_keeps_files|].
  intros; apply keeps_files_ret.
Qed.

Lemma scan_binary_keeps_files fuel : forall input file g,
  keeps_files (InputGraph.scan_binary fuel input file g).
Proof.
  induction fuel as [|fuel IH]; intros input file g; [by intros w w'|].
  cbn [InputGraph.scan_binary].
  destruct (istream_read sizeof_header input) as [bytes input1].
  destruct (eofbit input1); [apply keeps_files_ret|].
  apply keeps_files_bind; [apply setK_keeps_files|].
  intros g1. case_decide; [by intros w w'|apply IH].
Qed.

Lemma scan_text_keeps_files fuel : forall input file g,
  keeps_files (InputGraph.scan_text fuel input file g).
Proof.
  induction fuel as [|fuel IH]; intros input file g; [by intros w w'|].
  cbn [InputGraph.scan_text].
  destruct (istream_getline input) as [line input1].
  destruct (eofbit input1); [apply keeps_files_ret|].
  apply keeps_files_bind; [apply setK_keeps_files|].
  intros g1. apply IH.
Qed.

Lemma scan_files_keeps_files todo : forall g,
  keeps_files (InputGraph.scan_files todo g).
Proof.
  induction todo as [|file todo IH]; intros g; [apply keeps_files_ret|].
  cbn [InputGraph.scan_files]. apply keeps_files_bind; [|apply IH].
  unfold InputGraph.scan_file.
  apply keeps_files_bind; [apply InputGraph_open_keeps_files|].
  intros input. destruct (InputGraph.binary g);
    [apply scan_binary_keeps_files | apply scan_text_keeps_files].
Qed.

Lemma InputGraph_read_file_keeps_files g v file append :
  keeps_files (InputGraph.read_file g v file append).
Proof.
  unfold InputGraph.read_file.
  apply keeps_files_bind; [apply InputGraph_open_keeps_files|].
  intros input. apply keeps_files_bind.
  - apply keeps_files_run_reader. intros st st' Hfinal.
    destruct (InputGraph.binary g).
    + by eapply readBinary_prints_more.
    + by eapply readText_grows.
  - intros r. apply keeps_files_bind; [apply checkK_keeps_files|].
    intros; apply keeps_files_ret.
Qed.

Lemma InputGraph_read_files_keeps_files g todo : forall v,
  keeps_files (InputGraph.read_files g todo v).
Proof.
  induction todo as [|file todo IH]; intros v; [apply keeps_files_ret|].
  cbn [InputGraph.read_files].
  apply keeps_files_bind; [apply InputGraph_read_file_keeps_files | apply IH].
Qed.

Lemma read_file_keys_keeps_files g todo : forall keys,
  keeps_files (InputGraph.read_file_keys g todo keys).
Proof.
  induction todo as [|file todo IH]; intros keys; [apply keeps_files_ret|].
  cbn [InputGraph.read_file_keys].
  apply keeps_files_bind; [apply InputGraph_read_file_keeps_files|].
  intros v. case_decide; [apply IH | by intros w w'].
Qed.

End GraphsKeepFiles.

(** ** Sections that are cut short or flagged *)

Section BrokenSections.
Context `{Collaborators}.

(** The bytes of a record whose object representation was overwritten only
    in part: the bytes read, then those the default record had there. *)
Lemma cut_record_bytes (v : list KMer) (part : list ascii) :
  Forall KMer_layout_ok v ->
  length (KMer_bytes KMer_default) = sizeof_KMer ->
  (length part < sizeof_KMer)%nat ->
  KMers_of_bytes (S (length v))
    ((KMers_bytes v ++ part) ++
     drop (length (KMers_bytes v ++ part))
       (KMers_bytes (replicate (S (length v)) KMer_default))) =
  v ++ [KMer_of_bytes (part ++ drop (length part) (KMer_bytes KMer_default))].
Proof.
  intros Hv Hdefault Hpart.
  assert (length (KMers_bytes (replicate (length v) KMer_default)) =
          (length v * sizeof_KMer)%nat) as Hfilled.
  { unfold KMers_bytes.
    rewrite (length_concat_blocks sizeof_KMer), length_map, length_replicate;
      [done|].
    apply Forall_fmap, Forall_replicate. done. }
  assert (KMers_bytes (replicate (S (length v)) KMer_default) =
          KMers_bytes (replicate (length v) KMer_default) ++
          KMer_bytes KMer_default) as ->.
  { rewrite replicate_S_end. unfold KMers_bytes.
    rewrite map_app, concat_app. simpl. by rewrite app_nil_r. }
  rewrite length_app, (KMers_bytes_length v Hv).
  rewrite drop_app_ge by lia. rewrite Hfilled.
  replace (length v * sizeof_KMer + length part - length v * sizeof_KMer)%nat
    with (length part) by lia.
  set (block := part ++ drop (length part) (KMer_bytes KMer_default)).
  assert (length block = sizeof_KMer) as Hblock.
  { unfold block. rewrite length_app, length_drop. lia. }
  rewrite <- app_assoc. fold block. unfold KMers_of_bytes, KMers_bytes.
  replace (concat (map KMer_bytes v) ++ block)
    with (concat (map KMer_bytes v ++ [block]) ++ [])
    by (rewrite concat_app; simpl; by rewrite !app_nil_r).
  replace (S (length v)) with (length (map KMer_bytes v ++ [block]))
    by (rewrite length_app, length_map; simpl; lia).
  rewrite chunks_concat.
  - rewrite map_app. cbn [map]. f_equal.
    rewrite map_map. rewrite <- (map_id v) at 2. apply map_ext_in.
    intros k Hin%list_elem_of_In. rewrite Forall_forall in Hv.
    by destruct (Hv k Hin) as [_ ?].
  - apply Forall_app. split; [|by apply Forall_singleton].
    apply Forall_fmap. eapply Forall_impl; [exact Hv|]. by intros k [? _].
Qed.

(** Loading a section whose payload ends inside its last record. *)
Lemma read_section_records_cut (v : list KMer) (part : list ascii) st :
  Forall KMer_layout_ok v ->
  length (KMer_bytes KMer_default) = sizeof_KMer ->
  (length part < sizeof_KMer)%nat ->
  Z.of_nat (S (length v)) * Z.of_nat sizeof_KMer < 2 ^ 63 ->
  Z.of_nat (length (kmers st) + S (length v)) < 2 ^ 64 ->
  read_section_records (Z.of_nat (S (length v)))
    {| buf := KMers_bytes v ++ part; eofbit := false |} st =
  Done {| buf := []; eofbit := true |}
       {| kmers := kmers st ++ v ++
                   [KMer_of_bytes (part ++ drop (length part)
                                             (KMer_bytes KMer_default))];
          printed := printed st |}.
Proof.
  intros Hv Hdefault Hpart Hbytes Hsize. unfold read_section_records.
  assert (wrap (Z.of_nat (length (kmers st)) + Z.of_nat (S (length v))) =
          Z.of_nat (length (kmers st) + S (length v))) as ->
    by (rewrite wrap_small; lia).
  assert (wrap (Z.of_nat (S (length v)) * Z.of_nat sizeof_KMer) =
          Z.of_nat (S (length v) * sizeof_KMer)) as ->
    by (rewrite wrap_small; lia).
  rewrite !Nat2Z.id, decide_False by lia.
  pose proof (KMers_bytes_length v Hv) as Hlen.
  rewrite istream_read_short by (rewrite length_app, Hlen; simpl; lia).
  unfold resize. rewrite take_ge by lia.
  replace (length (kmers st) + S (length v) - length (kmers st))%nat
    with (S (length v)) by lia.
  rewrite drop_app_length, take_app_length, length_replicate.
  rewrite decide_True by (rewrite length_app, Hlen; simpl; lia).
  by rewrite cut_record_bytes.
Qed.

Lemma readBinary_loop_cut fuel L (v : list KMer) (part : list ascii)
    kmer_length section st :
  0 < L ≤ MAX_LENGTH ->
  kmer_length = SIZE_MAX ∨ kmer_length = L ->
  header_layout_ok (GraphFileHeader.make (Z.of_nat (S (length v))) L) ->
  Forall KMer_layout_ok v ->
  length (KMer_bytes KMer_default) = sizeof_KMer ->
  (length part < sizeof_KMer)%nat ->
  Z.of_nat (S (length v)) * Z.of_nat sizeof_KMer < 2 ^ 63 ->
  Z.of_nat (length (kmers st) + S (length v)) < 2 ^ 64 ->
  readBinary_loop (S (S fuel))
    {| buf := header_bytes (GraphFileHeader.make (Z.of_nat (S (length v))) L) ++
              KMers_bytes v ++ part; eofbit := false |}
    kmer_length section st =
  Done L {| kmers := kmers st ++ v ++
                     [KMer_of_bytes (part ++ drop (length part)
                                               (KMer_bytes KMer_default))];
            printed := printed st |}.
Proof.
  intros HL Hk [Hhlen Hhdec] Hv Hdefault Hpart Hbytes Hsize.
  cbn [readBinary_loop]. rewrite <- Hhlen, istream_read_app. cbn [eofbit].
  rewrite Hhdec. simpl GraphFileHeader.flags.
  rewrite decide_False by (by intros []).
  simpl GraphFileHeader.kmer_length. simpl GraphFileHeader.kmer_count.
  unfold bind at 1.
  assert ((if decide (kmer_length = SIZE_MAX)
           then if decide (L = 0 ∨ MAX_LENGTH < L)
                then let* _ := print_r [ReadBinaryInvalidLength section L] () in
                     exit_failure
                else ret L
           else if decide (L ≠ kmer_length)
                then let* _ := print_r [ReadBinaryLengthMismatch section L
                                          kmer_length] () in exit_failure
                else ret kmer_length) st = Done L st) as ->.
  { destruct (decide (kmer_length = SIZE_MAX)) as [Hmax|Hmax].
    - by rewrite decide_False by lia.
    - destruct Hk as [?| ->]; [done|]. by rewrite decide_False by (by intros []). }
  rewrite (bind_Done _ _ _ _ _
             (read_section_records_cut v part st Hv Hdefault Hpart Hbytes Hsize)).
  unfold istream_read. simpl. done.
Qed.

Lemma readBinary_loop_flags fuel h (rest : list ascii) kmer_length section st :
  header_layout_ok h ->
  GraphFileHeader.flags h ≠ 0 ->
  readBinary_loop (S fuel)
    {| buf := header_bytes h ++ rest; eofbit := false |} kmer_length section st =
  Exit (printing_r st [ReadBinaryInvalidFlags section (GraphFileHeader.flags h)]).
Proof.
  intros [Hhlen Hhdec] Hflags. cbn [readBinary_loop].
  rewrite <- Hhlen, istream_read_app. cbn [eofbit]. rewrite Hhdec.
  by rewrite decide_True by done.
Qed.

Lemma readBinary_cut L vs (v : list KMer) (part : list ascii)
    (append : bool) (st : Reading) :
  0 < L ≤ MAX_LENGTH ->
  (0 < sizeof_header)%nat ->
  Forall (writable_vector L) vs ->
  header_layout_ok (GraphFileHeader.make (Z.of_nat (S (length v))) L) ->
  Forall KMer_layout_ok v ->
  length (KMer_bytes KMer_default) = sizeof_KMer ->
  (length part < sizeof_KMer)%nat ->
  Z.of_nat (S (length v)) * Z.of_nat sizeof_KMer < 2 ^ 63 ->
  Z.of_nat (length (if append then kmers st else []) + length (concat vs) +
            S (length v)) < 2 ^ 64 ->
  readBinary
    (istream_of (written L vs ++
                 header_bytes (GraphFileHeader.make (Z.of_nat (S (length v))) L) ++
                 KMers_bytes v ++ part))
    append st =
  Done L {| kmers := (if append then kmers st else []) ++ concat vs ++ v ++
                     [KMer_of_bytes (part ++ drop (length part)
                                               (KMer_bytes KMer_default))];
            printed := printed st |}.
Proof.
  intros HL Hheader Hvs Hh Hv Hdefault Hpart Hbytes Hsize.
  rewrite readBinary_start. unfold istream_of. simpl buf.
  assert (readBinary_loop (length vs + 2)
            {| buf := written L vs ++
                      header_bytes
                        (GraphFileHeader.make (Z.of_nat (S (length v))) L) ++
                      KMers_bytes v ++ part;
               eofbit := false |} SIZE_MAX (wrap 0) (start append st) =
          Done L {| kmers := (if append then kmers st else []) ++ concat vs ++
                             v ++
                             [KMer_of_bytes (part ++ drop (length part)
                                                       (KMer_bytes KMer_default))];
                    printed := printed st |}) as Hall.
  { rewrite readBinary_loop_written; [|done|by left|done|simpl; lia].
    unfold start. cbn [kmers printed].
    rewrite (readBinary_loop_cut 0 L v part); try done.
    - cbn [kmers printed]. by rewrite <- !app_assoc.
    - destruct vs; [by left | by right].
    - cbn [kmers]. rewrite length_app. lia. }
  change (wrap 0) with 0 in Hall.
  rewrite <- Hall. apply readBinary_loop_fuel; [|by rewrite Hall].
  pose proof (written_length L vs Hvs). destruct Hh as [Hhlen _].
  rewrite !length_app, Hhlen. nia.
Qed.

Lemma readBinary_flags L vs h (rest : list ascii) (append : bool) (st : Reading) :
  0 < L ≤ MAX_LENGTH ->
  (0 < sizeof_header)%nat ->
  Forall (writable_vector L) vs ->
  header_layout_ok h ->
  GraphFileHeader.flags h ≠ 0 ->
  Z.of_nat (length (if append then kmers st else []) + length (concat vs))
    < 2 ^ 64 ->
  readBinary (istream_of (written L vs ++ header_bytes h ++ rest)) append st =
  Exit {| kmers := (if append then kmers st else []) ++ concat vs;
          printed := printed st ++
                     [ReadBinaryInvalidFlags (wrap (Z.of_nat (length vs)))
                        (GraphFileHeader.flags h)] |}.
Proof.
  intros HL Hheader Hvs Hh Hflags Hsize.
  rewrite readBinary_start. unfold istream_of. simpl buf.
  assert (readBinary_loop (length vs + 1)
            {| buf := written L vs ++ header_bytes h ++ rest;
               eofbit := false |} SIZE_MAX (wrap 0) (start append st) =
          Exit {| kmers := (if append then kmers st else []) ++ concat vs;
                  printed := printed st ++
                    [ReadBinaryInvalidFlags (wrap (Z.of_nat (length vs)))
                       (GraphFileHeader.flags h)] |}) as Hall.
  { rewrite readBinary_loop_written; [|done|by left|done|done].
    by rewrite readBinary_loop_flags. }
  change (wrap 0) with 0 in Hall.
  rewrite <- Hall. apply readBinary_loop_fuel; [|by rewrite Hall].
  pose proof (written_length L vs Hvs). rewrite !length_app. nia.
Qed.

End BrokenSections.

(** ** Single-file reads of text files and of files without k-mers *)

Section ReadFile.
Context `{Collaborators}.

Lemma printing_nil w : printing w [] = w.
Proof. unfold printing. rewrite app_nil_r. by destruct w. Qed.

Lemma run_reader_Done {A} (m : M Reading A) (v : list KMer) w a v' ds :
  m {| kmers := v; printed := cerr w |} =
    Done a {| kmers := v'; printed := cerr w ++ ds |} ->
  run_reader m v w = Done (a, v') (printing w ds).
Proof. intros Hm. unfold run_reader. by rewrite Hm. Qed.

Lemma read_file_no_kmers g (v : list KMer) file (append : bool) w content :
  (file < InputGraph.files g)%nat ->
  fs w !! InputGraph.filename g file = Some content ->
  (if InputGraph.binary g then (length content < sizeof_header)%nat
   else NEWLINE ∉ content) ->
  InputGraph.k g ≠ SIZE_MAX ->
  InputGraph.read_file g v file append w =
  Exit (printing w [CheckKInvalidLength (InputGraph.filename g file);
                    CheckKExpected (InputGraph.k g) SIZE_MAX]).
Proof.
  intros Hfile Hcontent Hshort Hk. unfold InputGraph.read_file.
  rewrite (bind_Done _ _ _ _ _ (InputGraph_open_existing g file w _ Hfile Hcontent)).
  assert (run_reader (if InputGraph.binary g
                      then readBinary (istream_of content) append
                      else readText (istream_of content) append)
            (if append then v else []) w =
          Done (SIZE_MAX, if append then v else []) w) as Hread.
  { rewrite <- (printing_nil w) at 2. apply run_reader_Done.
    rewrite app_nil_r. destruct (InputGraph.binary g).
    - rewrite readBinary_start. unfold istream_of. cbn [buf readBinary_loop].
      rewrite istream_read_short by done. by destruct append.
    - rewrite readText_start. unfold istream_of. cbn [buf readText_loop].
      rewrite istream_getline_last by done. by destruct append. }
  rewrite (bind_Done _ _ _ _ _ Hread). unfold InputGraph.checkK. simpl fst.
  by rewrite decide_True by (by intros ?).
Qed.

Lemma read_file_lines g (v : list KMer) file (append : bool) w l1 lines
    (tail : list ascii) :
  InputGraph.binary g = false ->
  InputGraph.k g = l1 ->
  0 < l1 ≤ MAX_LENGTH ->
  l1 ≠ SIZE_MAX ->
  (file < InputGraph.files g)%nat ->
  fs w !! InputGraph.filename g file = Some (lines_bytes lines ++ tail) ->
  Forall (fun line => (NEWLINE ∉ line) ∧
                      (rejected line ∨ accepted_with l1 line)) lines ->
  ¬ Forall rejected lines ->
  NEWLINE ∉ tail ->
  InputGraph.read_file g v file append w =
  Done (if append then v ++ concat (map records_of_line lines)
        else markSinkNode (concat (map records_of_line lines)))
       (printing w (rejections (filter rejected lines))).
Proof.
  intros Hbinary Hk Hvalid Hl1 Hfile Hcontent Hlines Hsome Htail.
  unfold InputGraph.read_file.
  rewrite (bind_Done _ _ _ _ _ (InputGraph_open_existing g file w _ Hfile Hcontent)).
  rewrite Hbinary.
  assert (run_reader (readText (istream_of (lines_bytes lines ++ tail)) append)
            (if append then v else []) w =
          Done (l1, (if append then v else []) ++
                    concat (map records_of_line lines))
               (printing w (rejections (filter rejected lines)))) as Hread.
  { apply run_reader_Done. rewrite (readText_lines l1) by done.
    rewrite decide_False by done. by destruct append. }
  rewrite (bind_Done _ _ _ _ _ Hread). unfold InputGraph.checkK. simpl fst.
  rewrite decide_False by (by intros []).
  unfold bind, ret. simpl. by destruct append.
Qed.

Lemma read_files_lines g w l1 liness : forall start (v : list KMer),
  InputGraph.binary g = false ->
  InputGraph.k g = l1 ->
  0 < l1 ≤ MAX_LENGTH ->
  l1 ≠ SIZE_MAX ->
  (forall i lines, liness !! i = Some lines ->
     (start + i < InputGraph.files g)%nat ∧
     fs w !! InputGraph.filename g (start + i) = Some (lines_bytes lines) ∧
     lines ≠ [] ∧
     Forall (fun line => (NEWLINE ∉ line) ∧ accepted_with l1 line) lines) ->
  InputGraph.read_files g (seq start (length liness)) v w =
  Done (v ++ concat (map (fun lines => concat (map records_of_line lines)) liness))
       w.
Proof.
  induction liness as [|lines liness IH]; intros start v Hbinary Hk Hvalid Hl1 Hfiles.
  - simpl. by rewrite app_nil_r.
  - destruct (Hfiles 0%nat lines eq_refl) as (Hfile & Hcontent & Hlines & Hacc).
    rewrite Nat.add_0_r in *.
    cbn [length seq InputGraph.read_files map concat]. unfold bind.
    rewrite <- (app_nil_r (lines_bytes lines)) in Hcontent.
    assert (filter rejected lines = []) as Hnone.
    { clear -Hacc. induction Hacc as [|line lines [_ [Hfive _]] _ IHl]; [done|].
      rewrite filter_cons_False; [done|]. unfold rejected. by intros ?. }
    rewrite (read_file_lines g v start true w l1 lines []); try done.
    + rewrite Hnone. unfold rejections. simpl. rewrite printing_nil.
      rewrite IH; [by rewrite <- app_assoc|done..|].
      intros i lines' Hi. replace (S start + i)%nat with (start + S i)%nat by lia.
      by apply Hfiles.
    + eapply Forall_impl; [exact Hacc|]. intros line [? ?]. split; [done|by right].
    + destruct lines as [|line lines']; [done|].
      apply Forall_cons in Hacc as [[_ [Hfive _]] _].
      intros [Hrej _]%Forall_cons. by apply Hrej.
    + by apply not_elem_of_nil.
Qed.

End ReadFile.

(** ** The files of a path graph *)

Section PathGraphFiles.
Context `{Collaborators}.

Lemma create_shard_world source key_rank g file w g' w' :
  PathGraph.create_shard source key_rank g file w = Done g' w' ->
  exists content ds,
    w' = {| fs := <[tempFile PathGraph.PREFIX (temp_count w) := content]> (fs w);
            unwritable := unwritable w; cerr := cerr w ++ ds;
            temp_count := S (temp_count w) |}.
Proof.
  unfold PathGraph.create_shard. intros Hrun.
  apply bind_Done_inv in Hrun as (name & w1 & Hname & Hrun).
  unfold PathGraph.temp_file in Hname. simplify_eq.
  apply bind_Done_inv in Hrun as (out & w2 & Hout & Hrun).
  destruct out; simpl in Hrun; [|by apply print_exit_not_Done in Hrun].
  unfold open_out in Hout. simpl in Hout. case_decide; simplify_eq.
  apply bind_Done_inv in Hrun as (v & w3 & Hread & Hrun).
  destruct (InputGraph_read_file_keeps_files source [] file false _ w3
              ltac:(by rewrite Hread)) as [ds ->].
  apply bind_Done_inv in Hrun as ([] & w4 & Hwrite & Hrun).
  unfold write_out in Hwrite. apply ret_Done_inv in Hrun as [_ <-].
  simplify_eq. eexists _, ds. unfold set_file, printing. simpl.
  by rewrite insert_insert_eq.
Qed.

Lemma create_shards_world source key_rank todo : forall g w g' w',
  PathGraph.create_shards source key_rank todo g w = Done g' w' ->
  PathGraph.filenames g' =
    PathGraph.filenames g ++
    map (tempFile PathGraph.PREFIX) (seq (temp_count w) (length todo)) ∧
  PathGraph.order g' = PathGraph.order g ∧
  PathGraph.unique g' = PathGraph.unique g ∧
  PathGraph.unsorted g' = PathGraph.unsorted g ∧
  PathGraph.nondeterministic g' = PathGraph.nondeterministic g ∧
  temp_count w' = (temp_count w + length todo)%nat ∧
  unwritable w' = unwritable w ∧
  cerr w `prefix_of` cerr w' ∧
  forall name,
    if decide (name ∈ map (tempFile PathGraph.PREFIX)
                          (seq (temp_count w) (length todo)))
    then is_Some (fs w' !! name)
    else fs w' !! name = fs w !! name.
Proof.
  induction todo as [|file todo IH]; intros g w g' w' Hrun.
  - apply ret_Done_inv in Hrun as [<- <-]. simpl. rewrite app_nil_r.
    split_and!; try done; lia.
  - cbn [PathGraph.create_shards] in Hrun.
    apply bind_Done_inv in Hrun as (g1 & w1 & Hshard & Hrun).
    pose proof (create_shard_Done_inv _ _ _ _ _ _ _ Hshard) as ->.
    apply create_shard_world in Hshard as (content & ds & ->).
    apply IH in Hrun as (Hnames & Horder & Hu & Hs & Hn & Htemp & Hunw & Hcerr & Hfs).
    simpl in *. split_and!; try done.
    + by rewrite Hnames, <- app_assoc.
    + lia.
    + etrans; [|exact Hcerr]. by apply prefix_app_r.
    + intros name. specialize (Hfs name).
      destruct (decide (name ∈ map (tempFile PathGraph.PREFIX)
                                   (seq (S (temp_count w)) (length todo))))
        as [Hin|Hin].
      * rewrite decide_True; [done|]. by right.
      * destruct (decide (name = tempFile PathGraph.PREFIX (temp_count w)))
          as [->|Hne].
        -- rewrite decide_True by left. rewrite Hfs, lookup_insert_eq. by eexists.
        -- rewrite decide_False.
           ++ by rewrite Hfs, lookup_insert_ne.
           ++ by intros [?|?]%elem_of_cons.
Qed.

Lemma remove_files_world names : forall w,
  exists w', PathGraph.remove_files names w = Done tt w' ∧
    cerr w' = cerr w ∧ unwritable w' = unwritable w ∧
    temp_count w' = temp_count w ∧
    forall name, fs w' !! name =
                 if decide (name ∈ names) then None else fs w !! name.
Proof.
  induction names as [|n names IH]; intros w.
  - exists w. split_and!; try done; intros name;
      (rewrite decide_False; [done|]); apply not_elem_of_nil.
  - cbn [PathGraph.remove_files]. unfold bind, remove_file.
    destruct (IH {| fs := delete n (fs w); unwritable := unwritable w;
                    cerr := cerr w; temp_count := temp_count w |})
      as (w' & -> & Hcerr & Hunw & Htemp & Hfs).
    exists w'. split_and!; try done. intros name. rewrite Hfs. simpl.
    destruct (decide (name ∈ names)) as [Hin|Hin].
    + rewrite decide_True; [done|]. by right.
    + rewrite lookup_delete. destruct (decide (n = name)) as [->|Hne].
      * rewrite decide_True; [done|]. by left.
      * rewrite decide_False; [done|]. by intros [?|?]%elem_of_cons.
Qed.

Lemma temp_files_world n : forall w,
  PathGraph.temp_files n w =
  Done (map (tempFile PathGraph.PREFIX) (seq (temp_count w) n))
       {| fs := fs w; unwritable := unwritable w; cerr := cerr w;
          temp_count := temp_count w + n |}.
Proof.
  induction n as [|n IH]; intros w.
  - simpl. unfold ret. rewrite Nat.add_0_r. by destruct w.
  - cbn [PathGraph.temp_files]. unfold bind, PathGraph.temp_file.
    rewrite IH. simpl. unfold ret. do 2 f_equal. lia.
Qed.

Lemma PathGraph_open_keeps_files g file : keeps_files (PathGraph.open g file).
Proof.
  unfold PathGraph.open. case_decide; [apply keeps_files_print_exit|].
  apply keeps_files_bind; [apply keeps_files_open_in|].
  intros [inp|]; [apply keeps_files_ret | apply keeps_files_print_exit].
Qed.

Lemma PathGraph_read_files_keeps_files g todo : forall paths labels,
  keeps_files (PathGraph.read_files g todo paths labels).
Proof.
  induction todo as [|file todo IH]; intros paths labels; [apply keeps_files_ret|].
  cbn [PathGraph.read_files]. apply keeps_files_bind; [|intros r; apply IH].
  unfold PathGraph.read_file.
  apply keeps_files_bind; [apply PathGraph_open_keeps_files|].
  intros; apply keeps_files_ret.
Qed.

End PathGraphFiles.

(** ** The files of a builder *)

Section BuilderFiles.
Context `{Collaborators}.

Lemma open_files_world names : forall w,
  Forall (fun name => name ∉ unwritable w) names ->
  exists w', PathGraphBuilder.open_files names w = Done tt w' ∧
    cerr w' = cerr w ∧ unwritable w' = unwritable w ∧
    temp_count w' = temp_count w ∧
    forall name, fs w' !! name =
                 if decide (name ∈ names) then Some [] else fs w !! name.
Proof.
  induction names as [|n names IH]; intros w Hnames.
  - exists w. split_and!; try done; intros name;
      (rewrite decide_False; [done|]); apply not_elem_of_nil.
  - apply Forall_cons in Hnames as [Hn Hnames].
    cbn [PathGraphBuilder.open_files]. unfold bind, open_out.
    rewrite decide_False by done. change (negb true) with false. cbv beta iota.
    destruct (IH (set_file n [] w) Hnames)
      as (w' & -> & Hcerr & Hunw & Htemp & Hfs).
    exists w'. split_and!; try done. intros name. rewrite Hfs. simpl.
    destruct (decide (name ∈ names)) as [Hin|Hin].
    + rewrite decide_True; [done|]. by right.
    + rewrite lookup_insert. destruct (decide (n = name)) as [->|Hne].
      * rewrite decide_True; [done|]. by left.
      * rewrite decide_False; [done|]. by intros [?|?]%elem_of_cons.
Qed.

Lemma open_files_locked opened : forall w locked rest,
  Forall (fun name => name ∉ unwritable w) opened ->
  locked ∈ unwritable w ->
  exists w', PathGraphBuilder.open_files (opened ++ locked :: rest) w = Exit w' ∧
    cerr w' = cerr w ++ [BuilderCannotOpenOutput locked] ∧
    forall name, fs w' !! name =
                 if decide (name ∈ opened) then Some [] else fs w !! name.
Proof.
  induction opened as [|n opened IH]; intros w locked rest Hopened Hlocked.
  - simpl. unfold bind, open_out. rewrite decide_True by done. simpl.
    eexists. split_and!; try done; intros name; simpl;
      (rewrite decide_False; [done|]); apply not_elem_of_nil.
  - apply Forall_cons in Hopened as [Hn Hopened].
    cbn [app PathGraphBuilder.open_files]. unfold bind at 1. unfold open_out at 1.
    rewrite decide_False by done. change (negb true) with false. cbv beta iota.
    destruct (IH (set_file n [] w) locked rest Hopened Hlocked)
      as (w' & -> & Hcerr & Hfs).
    exists w'. split_and!; try done. intros name. rewrite Hfs. simpl.
    destruct (decide (name ∈ opened)) as [Hin|Hin].
    + rewrite decide_True; [done|]. by right.
    + rewrite lookup_insert. destruct (decide (n = name)) as [->|Hne].
      * rewrite decide_True; [done|]. by left.
      * rewrite decide_False; [done|]. by intros [?|?]%elem_of_cons.
Qed.

End BuilderFiles.

(** ** The loops over a text stop *)


Section TextStops.
Context `{Collaborators}.














End TextStops.

(** ** The labels of the merged keys *)

Section MergedLabels.
Context `{Collaborators}.

Lemma coalesce_labels (keys : list Z) : forall cur l,
  (forall a b, Key_label a = Key_label b -> Key_label (Key_merge a b) = Key_label a) ->
  l ∈ map Key_label (coalesce cur keys) <-> l ∈ map Key_label (cur :: keys).
Proof.
  induction keys as [|k keys IH]; intros cur l Hmerge; [done|].
  cbn [coalesce]. case_decide as Hlabel.
  - rewrite IH by done. cbn [map]. rewrite Hmerge by done.
    rewrite !elem_of_cons, Hlabel. tauto.
  - cbn [map]. rewrite elem_of_cons, IH by done. cbn [map].
    by rewrite !elem_of_cons.
Qed.

Lemma Sorted_labels (keys : list Z) :
  (forall a b, a ≤ b -> Key_label a ≤ Key_label b) ->
  Sorted Z.le keys ->
  Sorted (fun a b => Key_label a ≤ Key_label b) keys.
Proof.
  intros Hmono. induction 1 as [|k keys Hsorted IH Hhead]; constructor; [done|].
  destruct Hhead; constructor. by apply Hmono.
Qed.

Lemma read_keys_labels g w keys w1 :
  InputGraph.read_file_keys g (seq 0 (InputGraph.files g)) [] w = Done keys w1 ->
  keys ≠ [] ->
  (forall a b, a ≤ b -> Key_label a ≤ Key_label b) ->
  (forall a b, Key_label a = Key_label b -> Key_label (Key_merge a b) = Key_label a) ->
  exists merged,
    InputGraph.read_keys g w = Done merged w1 ∧
    Sorted (fun a b => Key_label a < Key_label b) merged ∧
    forall l, l ∈ map Key_label merged <-> l ∈ map Key_label keys.
Proof.
  intros Hkeys Hsome Hmono Hmerge.
  pose proof (merge_sort_Permutation Z.le keys) as Hperm.
  pose proof (Sorted_merge_sort Z.le keys) as Hsorted.
  destruct (merge_sort Z.le keys) as [|k0 rest] eqn:Hsort.
  { symmetry in Hperm. by apply Permutation_nil_r in Hperm. }
  exists (coalesce k0 rest). split_and!.
  - by apply (read_keys_coalesce g w keys w1 k0 rest).
  - apply coalesce_labels_increase; [done..|]. by apply Sorted_labels.
  - intros l. rewrite coalesce_labels by done.
    by rewrite <- (fmap_Permutation Key_label _ _ Hperm).
Qed.

End MergedLabels.

(** ** Graphs over well-formed files *)

Lemma wrap_sum_wrap (l : list Z) : wrap (sum_sizes (map wrap l)) = wrap (sum_sizes l).
Proof.
  induction l as [|x l IH]; [done|]. cbn [map]. rewrite !sum_sizes_cons.
  by rewrite wrap_add_l, <- wrap_add_r, IH, wrap_add_r.
Qed.

Lemma sum_sizes_concat (ls : list (list Z)) :
  sum_sizes (concat ls) = sum_sizes (map sum_sizes ls).
Proof.
  induction ls as [|l ls IH]; [done|]. simpl. by rewrite sum_sizes_app, IH.
Qed.

Section WellFormedGraphs.
Context `{Collaborators}.

Lemma parseKMer_accepted (line : list ascii) l1 :
  accepted_with l1 line ->
  parseKMer line = (l1, wrap (Z.of_nat (length (records_of_line line)))).
Proof.
  intros [Hfive Hfirst].
  destruct (getline_all TAB line) as [|t0 [|t1 [|t2 [|t3 [|t4 [|]]]]]] eqn:Htokens;
    try done.
  rewrite (parseKMer_five_or_more line t0 t1 t2 t3 t4 []) by done.
  rewrite (records_of_line_five line t0 t1 t2 t3 t4) by done.
  rewrite length_map, length_seq. simpl in Hfirst. by rewrite Hfirst.
Qed.

Lemma filename_of_base (g : InputGraph.t) (names : list string) ext i name :
  InputGraph.filenames g = map (fun b => b +:+ ext) names ->
  names !! i = Some name ->
  (i < InputGraph.files g)%nat ∧ InputGraph.filename g i = name +:+ ext.
Proof.
  intros Hnames Hi. unfold InputGraph.files, InputGraph.filename.
  rewrite Hnames, length_map. split; [by eapply lookup_lt_Some|].
  change (map (fun b => b +:+ ext) names) with ((fun b => b +:+ ext) <$> names).
  by rewrite list_lookup_fmap, Hi.
Qed.

Lemma create_written (names : list string) (vss : list (list (list KMer))) L w :
  (0 < sizeof_header)%nat ->
  Forall2 (fun name vs =>
             fs w !! (name +:+ InputGraph.BINARY_EXTENSION) = Some (written L vs) ∧
             vs ≠ [] ∧ Forall (writable_vector L) vs) names vss ->
  Z.of_nat (length (concat (concat vss))) < 2 ^ 64 ->
  InputGraph.create names true w =
  Done {| InputGraph.binary := true;
          InputGraph.kmer_count := Z.of_nat (length (concat (concat vss)));
          InputGraph.kmer_length := if names is [] then UNKNOWN else L;
          InputGraph.filenames :=
            map (fun b => b +:+ InputGraph.BINARY_EXTENSION) names;
          InputGraph.sizes := map (fun vs => Z.of_nat (length (concat vs))) vss |}
       w.
Proof.
  intros Hheader Hfiles Hsize.
  rewrite (create_agreeing names true w
             (map (fun vs => map (fun v => (L, Z.of_nat (length v))) vs) vss) L);
    [|done| |].
  - f_equal. f_equal.
    + rewrite <- (wrap_small (Z.of_nat _)) by lia. f_equal.
      rewrite <- sum_sizes_lengths. clear.
      induction vss as [|vs vss IH]; [done|]. simpl.
      rewrite !map_app, !sum_sizes_app, IH. f_equal.
      rewrite map_map. simpl. by rewrite sum_sizes_lengths.
    + destruct Hfiles as [|name vs names vss (_ & Hvs & _) _]; [done|].
      simpl. by destruct vs.
    + rewrite map_map. apply map_ext_in. intros vs Hin%list_elem_of_In.
      rewrite map_map. simpl. rewrite sum_sizes_lengths.
      apply wrap_small.
      assert (length (concat vs) ≤ length (concat (concat vss)))%nat; [|lia].
      clear -Hin. induction vss as [|vs' vss IH]; [by apply elem_of_nil in Hin|].
      simpl. rewrite concat_app, length_app.
      apply elem_of_cons in Hin as [->|Hin]; [lia|]. specialize (IH Hin). lia.
  - apply Forall2_fmap_r. eapply Forall2_impl; [exact Hfiles|].
    intros name vs (Hcontent & _ & Hvs). simpl. eexists. split; [done|].
    by apply written_observations.
  - apply Forall_map. apply Forall_forall. intros vs _.
    apply Forall_map. by apply Forall_forall.
Qed.

Lemma read_written (names : list string) (vss : list (list (list KMer))) L w g :
  0 < L ≤ MAX_LENGTH ->
  (0 < sizeof_header)%nat ->
  Forall2 (fun name vs =>
             fs w !! (name +:+ InputGraph.BINARY_EXTENSION) = Some (written L vs) ∧
             vs ≠ [] ∧ Forall (writable_vector L) vs) names vss ->
  Z.of_nat (length (concat (concat vss))) < 2 ^ 64 ->
  InputGraph.binary g = true ->
  InputGraph.k g = (if names is [] then UNKNOWN else L) ->
  InputGraph.filenames g = map (fun b => b +:+ InputGraph.BINARY_EXTENSION) names ->
  InputGraph.read g w = Done (markSinkNode (concat (concat vss))) w.
Proof.
  intros HL Hheader Hfiles Hsize Hbinary Hk Hnames. unfold InputGraph.read.
  assert (InputGraph.files g = length vss) as Hcount.
  { unfold InputGraph.files.
    by rewrite Hnames, length_map, (Forall2_length _ _ _ Hfiles). }
  rewrite Hcount.
  destruct names as [|name0 names'].
  { apply Forall2_nil_inv_l in Hfiles as ->. done. }
  erewrite bind_Done; [done|].
  apply (read_files_written g w L vss 0 []); [done..| |done].
  intros i vs Hi.
  destruct (Forall2_lookup_r _ _ _ _ _ Hfiles Hi)
    as (name & Hname & Hcontent & Hvs & Hwritable).
  destruct (filename_of_base g _ _ i name Hnames Hname) as [Hlt Hfile].
  simpl. by rewrite Hfile.
Qed.

Lemma create_text (names : list string) (liness : list (list (list ascii))) l1 w :
  (0 < sizeof_header)%nat ->
  Forall2 (fun name lines =>
             fs w !! (name +:+ InputGraph.TEXT_EXTENSION) = Some (lines_bytes lines) ∧
             lines ≠ [] ∧
             Forall (fun line => (NEWLINE ∉ line) ∧ accepted_with l1 line) lines)
    names liness ->
  InputGraph.create names false w =
  Done {| InputGraph.binary := false;
          InputGraph.kmer_count :=
            wrap (Z.of_nat (length (concat (map records_of_line (concat liness)))));
          InputGraph.kmer_length := if names is [] then UNKNOWN else l1;
          InputGraph.filenames := map (fun b => b +:+ InputGraph.TEXT_EXTENSION) names;
          InputGraph.sizes :=
            map (fun lines =>
                   wrap (Z.of_nat (length (concat (map records_of_line lines)))))
                liness |}
       w.
Proof.
  intros Hheader Hfiles.
  assert (forall lines,
            Forall (fun line => (NEWLINE ∉ line) ∧ accepted_with l1 line) lines ->
            map parseKMer lines =
            map (fun line => (l1, wrap (Z.of_nat (length (records_of_line line)))))
                lines) as Hparse.
  { intros lines Hlines. apply map_ext_in. intros line Hin%list_elem_of_In.
    rewrite Forall_forall in Hlines. destruct (Hlines line Hin) as [_ Hacc].
    by apply parseKMer_accepted. }
  assert (forall lines : list (list ascii),
            wrap (sum_sizes (map snd
                    (map (fun line =>
                            (l1, wrap (Z.of_nat (length (records_of_line line)))))
                         lines))) =
            wrap (Z.of_nat (length (concat (map records_of_line lines)))))
    as Hsum.
  { intros lines. rewrite map_map. simpl.
    rewrite <- (map_map (fun line => Z.of_nat (length (records_of_line line))) wrap).
    rewrite wrap_sum_wrap. f_equal.
    rewrite <- (map_map records_of_line (fun v => Z.of_nat (length v))).
    apply sum_sizes_lengths. }
  rewrite (create_agreeing names false w
             (map (fun lines =>
                     map (fun line =>
                            (l1, wrap (Z.of_nat (length (records_of_line line)))))
                         lines) liness) l1);
    [|done| |].
  - f_equal. f_equal.
    + rewrite <- Hsum. by rewrite (concat_map _ liness).
    + destruct Hfiles as [|name lines names liness (_ & Hlines & _) _]; [done|].
      simpl. by destruct lines.
    + rewrite map_map. apply map_ext. intros lines. apply Hsum.
  - apply Forall2_fmap_r. eapply Forall2_impl; [exact Hfiles|].
    intros name lines (Hcontent & _ & Hlines). simpl. eexists. split; [done|].
    exists lines. split_and!; [|done|by rewrite Hparse].
    eapply Forall_impl; [exact Hlines|]. by intros line [? _].
  - apply Forall_map. apply Forall_forall. intros lines _.
    apply Forall_map. by apply Forall_forall.
Qed.

Lemma read_text (names : list string) (liness : list (list (list ascii))) l1 w g :
  0 < l1 ≤ MAX_LENGTH ->
  l1 ≠ SIZE_MAX ->
  Forall2 (fun name lines =>
             fs w !! (name +:+ InputGraph.TEXT_EXTENSION) = Some (lines_bytes lines) ∧
             lines ≠ [] ∧
             Forall (fun line => (NEWLINE ∉ line) ∧ accepted_with l1 line) lines)
    names liness ->
  InputGraph.binary g = false ->
  InputGraph.k g = (if names is [] then UNKNOWN else l1) ->
  InputGraph.filenames g = map (fun b => b +:+ InputGraph.TEXT_EXTENSION) names ->
  InputGraph.read g w =
  Done (markSinkNode
          (concat (map (fun lines => concat (map records_of_line lines)) liness)))
       w.
Proof.
  intros Hvalid Hl1 Hfiles Hbinary Hk Hnames. unfold InputGraph.read.
  assert (InputGraph.files g = length liness) as Hcount.
  { unfold InputGraph.files.
    by rewrite Hnames, length_map, (Forall2_length _ _ _ Hfiles). }
  rewrite Hcount.
  destruct names as [|name0 names'].
  { apply Forall2_nil_inv_l in Hfiles as ->. done. }
  erewrite bind_Done; [done|].
  apply (read_files_lines g w l1 liness 0 []); [done..|].
  intros i lines Hi.
  destruct (Forall2_lookup_r _ _ _ _ _ Hfiles Hi)
    as (name & Hname & Hcontent & Hlines & Hacc).
  destruct (filename_of_base g _ _ i name Hnames Hname) as [Hlt Hfile].
  simpl. by rewrite Hfile.
Qed.

End WellFormedGraphs.

(** * Properties of the readers *)

(** X1. A stream that holds the sections left by successive calls of
    [writeBinary] with one valid length [L], followed by fewer bytes than a
    header has, is read by [readBinary] to its end: the records of all
    sections are in the vector in the order written (after the records
    already there when [append] is set), no diagnostic is printed, and [L] is
    returned; without any section the vector is as it started and
    [~(size_type)0] is returned.  The trailing bytes are ignored. *)
Theorem readBinary_reads_every_section `{Collaborators}
    (L : Z) (vs : list (list KMer)) (tail : list ascii)
    (append : bool) (st : Reading) :
  0 < L ≤ MAX_LENGTH ->
  Forall (writable_vector L) vs ->
  (length tail < sizeof_header)%nat ->
  Z.of_nat (length (if append then kmers st else []) + length (concat vs))
    < 2 ^ 64 ->
  readBinary (istream_of (written L vs ++ tail)) append st =
  Done (if vs is [] then SIZE_MAX else L)
       {| kmers := (if append then kmers st else []) ++ concat vs;
          printed := printed st |}.
Proof. apply readBinary_written. Qed.

Lemma readBinary_reads_every_section_witness :
  readBinary (H := Reference.collaborators)
    (istream_of (written (H := Reference.collaborators) 4
                   [take 1 two_kmers; drop 1 two_kmers] ++ ["x"%char]))
    false {| kmers := []; printed := [] |} =
  Done 4 {| kmers := two_kmers; printed := [] |}.
Proof.
  apply (readBinary_reads_every_section (H := Reference.collaborators) 4
           [take 1 two_kmers; drop 1 two_kmers] ["x"%char] false
           {| kmers := []; printed := [] |}).
  - simpl. lia.
  - repeat (apply Forall_cons; split; [|try by apply Forall_nil]);
      (split_and!; [split; by vm_compute
                   |repeat constructor; by vm_compute
                   |simpl; lia]).
  - simpl. lia.
  - simpl. lia.
Defined.

(** X2. A stream whose last section ends inside its last record is read by
    [readBinary] like a complete one: it returns the length and prints no
    diagnostic; the vector holds the records of the sections before, the
    complete records of the last section, and one more record, whose object
    representation is the bytes that were left of it followed by the bytes
    that a default-constructed record has there. *)
Theorem readBinary_accepts_cut_last_record `{Collaborators}
    (L : Z) (vs : list (list KMer)) (v : list KMer) (part : list ascii)
    (append : bool) (st : Reading) :
  0 < L ≤ MAX_LENGTH ->
  (0 < sizeof_header)%nat ->
  Forall (writable_vector L) vs ->
  header_layout_ok (GraphFileHeader.make (Z.of_nat (S (length v))) L) ->
  Forall KMer_layout_ok v ->
  length (KMer_bytes KMer_default) = sizeof_KMer ->
  (length part < sizeof_KMer)%nat ->
  Z.of_nat (S (length v)) * Z.of_nat sizeof_KMer < 2 ^ 63 ->
  Z.of_nat (length (if append then kmers st else []) + length (concat vs) +
            S (length v)) < 2 ^ 64 ->
  readBinary
    (istream_of (written L vs ++
                 header_bytes (GraphFileHeader.make (Z.of_nat (S (length v))) L) ++
                 KMers_bytes v ++ part))
    append st =
  Done L {| kmers := (if append then kmers st else []) ++ concat vs ++ v ++
                     [KMer_of_bytes (part ++ drop (length part)
                                               (KMer_bytes KMer_default))];
            printed := printed st |}.
Proof. apply readBinary_cut. Qed.

Lemma readBinary_accepts_cut_last_record_witness :
  readBinary (H := Reference.collaborators)
    (istream_of (written (H := Reference.collaborators) 4 [] ++
                 Reference.header_le_bytes (GraphFileHeader.make 2 4) ++
                 KMers_bytes (H := Reference.collaborators) (take 1 two_kmers) ++
                 ["002"%char; "000"%char; "002"%char]))
    false {| kmers := []; printed := [] |} =
  Done 4 {| kmers := take 1 two_kmers ++
                     [{| key := 131074; from := 0; to := 0; sorted := false |}];
            printed := [] |}.
Proof.
  apply (readBinary_accepts_cut_last_record (H := Reference.collaborators) 4
           [] (take 1 two_kmers) ["002"%char; "000"%char; "002"%char] false
           {| kmers := []; printed := [] |}).
  - simpl. lia.
  - simpl. lia.
  - by apply Forall_nil.
  - split; by vm_compute.
  - repeat constructor; by vm_compute.
  - by vm_compute.
  - simpl. lia.
  - simpl. lia.
  - simpl. lia.
Defined.

(** X3. A section header with nonzero flags ends the process wherever it
    stands in the stream: after the sections before it have been loaded,
    [readBinary] prints the number of the section with the flags and exits,
    whatever follows the header. *)
Theorem readBinary_flagged_section_is_fatal `{Collaborators}
    (L : Z) (vs : list (list KMer)) (h : GraphFileHeader.t) (rest : list ascii)
    (append : bool) (st : Reading) :
  0 < L ≤ MAX_LENGTH ->
  (0 < sizeof_header)%nat ->
  Forall (writable_vector L) vs ->
  header_layout_ok h ->
  GraphFileHeader.flags h ≠ 0 ->
  Z.of_nat (length (if append then kmers st else []) + length (concat vs))
    < 2 ^ 64 ->
  readBinary (istream_of (written L vs ++ header_bytes h ++ rest)) append st =
  Exit {| kmers := (if append then kmers st else []) ++ concat vs;
          printed := printed st ++
                     [ReadBinaryInvalidFlags (wrap (Z.of_nat (length vs)))
                        (GraphFileHeader.flags h)] |}.
Proof. apply readBinary_flags. Qed.

Lemma readBinary_flagged_section_is_fatal_witness :
  readBinary (H := Reference.collaborators)
    (istream_of (written (H := Reference.collaborators) 4 [two_kmers] ++
                 Reference.header_le_bytes
                   {| GraphFileHeader.flags := 1; GraphFileHeader.kmer_count := 0;
                      GraphFileHeader.kmer_length := 4 |} ++ []))
    false {| kmers := []; printed := [] |} =
  Exit {| kmers := two_kmers; printed := [ReadBinaryInvalidFlags 1 1] |}.
Proof.
  apply (readBinary_flagged_section_is_fatal (H := Reference.collaborators) 4
           [two_kmers]
           {| GraphFileHeader.flags := 1; GraphFileHeader.kmer_count := 0;
              GraphFileHeader.kmer_length := 4 |} [] false
           {| kmers := []; printed := [] |}).
  - simpl. lia.
  - simpl. lia.
  - repeat (apply Forall_cons; split; [|try by apply Forall_nil]);
      (split_and!; [split; by vm_compute
                   |repeat constructor; by vm_compute
                   |simpl; lia]).
  - split; by vm_compute.
  - simpl. lia.
  - simpl. lia.
Defined.

(** X4. On a text whose complete lines are each rejected by [tokenize] or
    accepted with one valid first-field length [l1], [readText] returns
    having loaded, in the order of the text, one record for every successor
    token of every accepted line and having printed the diagnostic of every
    rejected line; it returns [l1], or [~(size_type)0] when no line was
    accepted.  Characters after the last newline are not read as a line. *)
Theorem readText_loads_successors_line_by_line `{Collaborators}
    (l1 : Z) (lines : list (list ascii)) (tail : list ascii)
    (append : bool) (st : Reading) :
  0 < l1 ≤ MAX_LENGTH ->
  l1 ≠ SIZE_MAX ->
  Forall (fun line => (NEWLINE ∉ line) ∧
                      (rejected line ∨ accepted_with l1 line)) lines ->
  NEWLINE ∉ tail ->
  readText (istream_of (lines_bytes lines ++ tail)) append st =
  Done (if decide (Forall rejected lines) then SIZE_MAX else l1)
       {| kmers := (if append then kmers st else []) ++
                   concat (map records_of_line lines);
          printed := printed st ++ rejections (filter rejected lines) |}.
Proof. apply readText_lines. Qed.

Lemma readText_loads_successors_line_by_line_witness :
  readText (H := Reference.collaborators)
    (istream_of (lines_bytes [two_successor_line; two_field_line] ++
                 one_successor_line))
    false {| kmers := []; printed := [] |} =
  Done 3 {| kmers := records_of_line (H := Reference.collaborators)
                       two_successor_line;
            printed := [TokenizeTokenCount; TokenizeLineWas two_field_line] |}.
Proof.
  apply (readText_loads_successors_line_by_line (H := Reference.collaborators) 3
           [two_successor_line; two_field_line] one_successor_line false
           {| kmers := []; printed := [] |}).
  - simpl. lia.
  - by vm_compute.
  - apply Forall_cons; split; [|apply Forall_cons; split; [|by apply Forall_nil]].
    + split; [by apply (bool_decide_unpack _)|]. right. split; by vm_compute.
    + split; [by apply (bool_decide_unpack _)|]. left. by vm_compute.
  - by apply (bool_decide_unpack _).
Defined.

(** X5. For a line of exactly five tab-separated fields the counting scan
    and the loader agree: [tokenize] accepts the line, and [parseKMer]
    returns the length of the first field with the number of records that
    [readText] loads for the line, in [size_type] arithmetic. *)
Theorem parseKMer_counts_records_of_line `{Collaborators} (line : list ascii) :
  length (getline_all TAB line) = 5%nat ->
  (tokenize line []).1.1 = true ∧
  parseKMer line =
    (Z.of_nat (length (default [] (getline_all TAB line !! 0%nat))),
     wrap (Z.of_nat (length (records_of_line line)))).
Proof.
  intros Hfive. split.
  - by destruct (tokenize_five line Hfive) as (tokens & -> & _).
  - by apply parseKMer_accepted.
Qed.

Lemma parseKMer_counts_records_of_line_witness :
  (tokenize two_successor_line []).1.1 = true ∧
  parseKMer (H := Reference.collaborators) two_successor_line =
    (Z.of_nat (length (default [] (getline_all TAB two_successor_line !! 0%nat))),
     wrap (Z.of_nat (length (records_of_line (H := Reference.collaborators)
                               two_successor_line)))).
Proof.
  apply (parseKMer_counts_records_of_line (H := Reference.collaborators)
           two_successor_line).
  by vm_compute.
Defined.

(** X6. For a line of more than five tab-separated fields the counting scan
    and the loader disagree: [parseKMer] still returns the length of the
    first field and counts the successors named by the fifth field, while
    [tokenize] rejects the line, so that [readText] loads no record for it. *)
Theorem parseKMer_counts_line_tokenize_rejects `{Collaborators}
    (line : list ascii) t0 t1 t2 t3 t4 t5 more :
  getline_all TAB line = t0 :: t1 :: t2 :: t3 :: t4 :: t5 :: more ->
  parseKMer line =
    (Z.of_nat (length t0), wrap (Z.of_nat (length (getline_all COMMA t4)))) ∧
  (tokenize line []).1.1 = false ∧
  records_of_line line = [].
Proof.
  intros Htokens.
  assert (rejected line) as Hrej by (unfold rejected; by rewrite Htokens).
  split_and!.
  - by eapply parseKMer_five_or_more.
  - by rewrite tokenize_not_five.
  - by apply records_of_line_rejected.
Qed.

Lemma parseKMer_counts_line_tokenize_rejects_witness :
  parseKMer (H := Reference.collaborators) six_field_line = (3, 2) ∧
  (tokenize six_field_line []).1.1 = false ∧
  records_of_line (H := Reference.collaborators) six_field_line = [].
Proof.
  apply (parseKMer_counts_line_tokenize_rejects (H := Reference.collaborators)
           six_field_line
           (list_ascii_of_string "ACG") (list_ascii_of_string "1")
           (list_ascii_of_string "A") (list_ascii_of_string "C")
           (list_ascii_of_string "2,3") (list_ascii_of_string "x") []).
  by vm_compute.
Defined.

(** * Properties of the input graph *)

(** X7. When every shard file exists and all the sections, or lines, that
    the constructor's scan observes carry one and the same length [l1], the
    constructor returns without a diagnostic: the graph has that length ([UNKNOWN]
    when nothing was observed), [kmer_count] is the sum of all observed counts
    and [sizes] holds the sum of the counts of each file, in [size_type]
    arithmetic.  The scan compares lengths only: [l1] may be 0 or exceed
    [Key::MAX_LENGTH]. *)
Theorem InputGraph_create_on_agreeing_shards `{Collaborators}
    (base_names : list string) (binary_format : bool) (w : World)
    (shards : list (list (Z * Z))) (l1 : Z) :
  (0 < sizeof_header)%nat ->
  Forall2 (fun name obs =>
             exists content,
               fs w !! (name +:+ (if binary_format then InputGraph.BINARY_EXTENSION
                                  else InputGraph.TEXT_EXTENSION)) = Some content ∧
               shard_observations binary_format content obs)
    base_names shards ->
  Forall (Forall (fun o => o.1 = l1)) shards ->
  InputGraph.create base_names binary_format w =
  Done {| InputGraph.binary := binary_format;
          InputGraph.kmer_count := wrap (sum_sizes (map snd (concat shards)));
          InputGraph.kmer_length := if concat shards is [] then UNKNOWN else l1;
          InputGraph.filenames :=
            map (fun b => b +:+ (if binary_format then InputGraph.BINARY_EXTENSION
                                 else InputGraph.TEXT_EXTENSION)) base_names;
          InputGraph.sizes :=
            map (fun obs => wrap (sum_sizes (map snd obs))) shards |}
       w.
Proof. apply create_agreeing. Qed.

Lemma InputGraph_create_on_agreeing_shards_witness :
  InputGraph.create (H := Reference.collaborators) ["a"%string; "b"%string] true
    (Reference.world
       [("a.graph"%string, Reference.header_le_bytes (GraphFileHeader.make 0 17));
        ("b.graph"%string, [])] []) =
  Done {| InputGraph.binary := true; InputGraph.kmer_count := 0;
          InputGraph.kmer_length := 17;
          InputGraph.filenames := ["a.graph"%string; "b.graph"%string];
          InputGraph.sizes := [0; 0] |}
       (Reference.world
          [("a.graph"%string, Reference.header_le_bytes (GraphFileHeader.make 0 17));
           ("b.graph"%string, [])] []).
Proof.
  apply (InputGraph_create_on_agreeing_shards (H := Reference.collaborators)
           ["a"%string; "b"%string] true
           (Reference.world
              [("a.graph"%string,
                Reference.header_le_bytes (GraphFileHeader.make 0 17));
               ("b.graph"%string, [])] [])
           [[(17, 0)]; []] 17).
  - simpl. lia.
  - apply Forall2_cons; split; [|apply Forall2_cons; split; [|by apply Forall2_nil]].
    + eexists. split; [by vm_compute|].
      exists [(GraphFileHeader.make 0 17, [])].
      split_and!; [|by vm_compute..].
      apply Forall_cons; split; [|by apply Forall_nil].
      repeat split; by vm_compute.
    + eexists. split; [by vm_compute|].
      exists []. split_and!; [by apply Forall_nil|by vm_compute..].
  - repeat constructor.
Defined.

(** X8. Over binary files that each hold at least one section written by
    [writeBinary] with one valid length [L], the constructor returns a graph
    of length [L] whose [sizes] are the numbers of records of the files and
    whose [kmer_count] is their total, and [read(kmers)] on that graph returns
    the records of all files in the order of the files and of the sections,
    passed once through [markSinkNode]; neither prints a diagnostic or changes
    a file. *)
Theorem InputGraph_reads_written_files `{Collaborators}
    (names : list string) (vss : list (list (list KMer))) (L : Z) (w : World) :
  0 < L ≤ MAX_LENGTH ->
  (0 < sizeof_header)%nat ->
  Forall2 (fun name vs =>
             fs w !! (name +:+ InputGraph.BINARY_EXTENSION) = Some (written L vs) ∧
             vs ≠ [] ∧ Forall (writable_vector L) vs) names vss ->
  Z.of_nat (length (concat (concat vss))) < 2 ^ 64 ->
  exists g,
    InputGraph.create names true w = Done g w ∧
    InputGraph.k g = (if names is [] then UNKNOWN else L) ∧
    InputGraph.size g = Z.of_nat (length (concat (concat vss))) ∧
    InputGraph.sizes g = map (fun vs => Z.of_nat (length (concat vs))) vss ∧
    InputGraph.read g w = Done (markSinkNode (concat (concat vss))) w.
Proof.
  intros HL Hheader Hfiles Hsize. eexists. split_and!.
  - by apply (create_written names vss L w).
  - done.
  - done.
  - done.
  - by apply (read_written names vss L w).
Qed.

Lemma InputGraph_reads_written_files_witness :
  exists g,
    InputGraph.create (H := Reference.collaborators) ["a"%string; "b"%string] true
      two_shards_world = Done g two_shards_world ∧
    InputGraph.k g = 4 ∧
    InputGraph.size g = 2 ∧
    InputGraph.sizes g = [1; 1] ∧
    InputGraph.read (H := Reference.collaborators) g two_shards_world =
      Done (markSinkNode (H := Reference.collaborators) two_kmers)
           two_shards_world.
Proof.
  apply (InputGraph_reads_written_files (H := Reference.collaborators)
           ["a"%string; "b"%string]
           [[take 1 two_kmers]; [drop 1 two_kmers]] 4 two_shards_world).
  - simpl. lia.
  - simpl. lia.
  - apply Forall2_cons; split; [|apply Forall2_cons; split; [|by apply Forall2_nil]];
      (split_and!; [by vm_compute|done|]);
      (apply Forall_cons; split; [|by apply Forall_nil]);
      (split_and!; [split; by vm_compute
                   |repeat constructor; by vm_compute
                   |simpl; lia]).
  - simpl. lia.
Defined.

(** X9. [writeKMers] to a writable name prints no diagnostic and leaves in
    [base_name.graph] exactly the section that [writeBinary] makes of the
    vector; an input graph constructed over that single file has the length
    written and the number of records as its size, and [read(kmers)] returns
    the vector written, passed through [markSinkNode]. *)
Theorem writeKMers_then_InputGraph_read `{Collaborators}
    (base_name : string) (v : list KMer) (L : Z) (w : World) :
  0 < L ≤ MAX_LENGTH ->
  (0 < sizeof_header)%nat ->
  writable_vector L v ->
  Z.of_nat (length v) < 2 ^ 64 ->
  base_name +:+ InputGraph.BINARY_EXTENSION ∉ unwritable w ->
  let w1 := set_file (base_name +:+ InputGraph.BINARY_EXTENSION)
              (writeBinary [] v L) w in
  let g := {| InputGraph.binary := true;
              InputGraph.kmer_count := Z.of_nat (length v);
              InputGraph.kmer_length := L;
              InputGraph.filenames := [base_name +:+ InputGraph.BINARY_EXTENSION];
              InputGraph.sizes := [Z.of_nat (length v)] |} in
  writeKMers base_name v L w = Done tt w1 ∧
  InputGraph.create [base_name] true w1 = Done g w1 ∧
  InputGraph.read g w1 = Done (markSinkNode v) w1.
Proof.
  intros HL Hheader Hv Hsize Hwritable w1 g.
  assert (Forall2 (fun name vs =>
                     fs w1 !! (name +:+ InputGraph.BINARY_EXTENSION) =
                       Some (written L vs) ∧
                     vs ≠ [] ∧ Forall (writable_vector L) vs)
            [base_name] [[v]]) as Hfiles.
  { apply Forall2_cons; split; [|by apply Forall2_nil].
    split_and!; [|done|by apply Forall_cons].
    unfold w1, set_file. simpl. by rewrite lookup_insert_eq. }
  assert (Z.of_nat (length (concat (concat [[v]]))) < 2 ^ 64) as Hall.
  { simpl. by rewrite !app_nil_r. }
  split_and!.
  - unfold writeKMers, bind, open_out. rewrite decide_False by done.
    unfold write_out, w1, set_file. simpl. by rewrite insert_insert_eq.
  - rewrite (create_written [base_name] [[v]] L w1) by done.
    unfold g. simpl. by rewrite !app_nil_r.
  - rewrite (read_written [base_name] [[v]] L w1 g) by done.
    simpl. by rewrite !app_nil_r.
Qed.

Lemma writeKMers_then_InputGraph_read_witness :
  let w1 := set_file "a.graph"
              (writeBinary (H := Reference.collaborators) [] two_kmers 4)
              (Reference.world [] []) in
  let g := {| InputGraph.binary := true; InputGraph.kmer_count := 2;
              InputGraph.kmer_length := 4;
              InputGraph.filenames := ["a.graph"%string];
              InputGraph.sizes := [2] |} in
  writeKMers (H := Reference.collaborators) "a" two_kmers 4 (Reference.world [] []) =
    Done tt w1 ∧
  InputGraph.create (H := Reference.collaborators) ["a"%string] true w1 =
    Done g w1 ∧
  InputGraph.read (H := Reference.collaborators) g w1 =
    Done (markSinkNode (H := Reference.collaborators) two_kmers) w1.
Proof.
  apply (writeKMers_then_InputGraph_read (H := Reference.collaborators)
           "a" two_kmers 4 (Reference.world [] [])).
  - simpl. lia.
  - simpl. lia.
  - split_and!; [split; by vm_compute
                |repeat constructor; by vm_compute
                |simpl; lia].
  - simpl. lia.
  - by apply (bool_decide_unpack _).
Defined.

(** X10. Over text files that each hold at least one line, every line
    having exactly five fields and a first field of one valid length [l1],
    the constructor returns a graph of length [l1] whose [sizes] are the
    numbers of records that the files yield, and [read(kmers)] on that graph
    returns one record for every successor token, in the order of the files
    and of the lines, passed once through [markSinkNode]; neither prints a
    diagnostic. *)
Theorem InputGraph_reads_text_files `{Collaborators}
    (names : list string) (liness : list (list (list ascii))) (l1 : Z)
    (w : World) :
  0 < l1 ≤ MAX_LENGTH ->
  l1 ≠ SIZE_MAX ->
  (0 < sizeof_header)%nat ->
  Forall2 (fun name lines =>
             fs w !! (name +:+ InputGraph.TEXT_EXTENSION) = Some (lines_bytes lines) ∧
             lines ≠ [] ∧
             Forall (fun line => (NEWLINE ∉ line) ∧
                                 length (getline_all TAB line) = 5%nat ∧
                                 Z.of_nat (length (default []
                                             (getline_all TAB line !! 0%nat))) = l1)
                    lines)
    names liness ->
  exists g,
    InputGraph.create names false w = Done g w ∧
    InputGraph.k g = (if names is [] then UNKNOWN else l1) ∧
    InputGraph.sizes g =
      map (fun lines =>
             wrap (Z.of_nat (length (concat (map records_of_line lines)))))
          liness ∧
    InputGraph.size g =
      wrap (Z.of_nat (length (concat (map records_of_line (concat liness))))) ∧
    InputGraph.read g w =
      Done (markSinkNode
              (concat (map (fun lines => concat (map records_of_line lines))
                           liness)))
           w.
Proof.
  intros Hvalid Hl1 Hheader Hfiles. eexists. split_and!.
  - by apply (create_text names liness l1 w).
  - done.
  - done.
  - done.
  - by apply (read_text names liness l1 w).
Qed.

Lemma InputGraph_reads_text_files_witness :
  exists g,
    InputGraph.create (H := Reference.collaborators) ["t"%string] false
      two_lines_world = Done g two_lines_world ∧
    InputGraph.k g = 3 ∧
    InputGraph.sizes g = [3] ∧
    InputGraph.size g = 3 ∧
    InputGraph.read (H := Reference.collaborators) g two_lines_world =
      Done (markSinkNode (H := Reference.collaborators)
              (records_of_line (H := Reference.collaborators) two_successor_line ++
               records_of_line (H := Reference.collaborators) one_successor_line))
           two_lines_world.
Proof.
  apply (InputGraph_reads_text_files (H := Reference.collaborators)
           ["t"%string] [[two_successor_line; one_successor_line]] 3
           two_lines_world).
  - simpl. lia.
  - by vm_compute.
  - simpl. lia.
  - apply Forall2_cons; split; [|by apply Forall2_nil].
    split_and!; [by vm_compute|done|].
    apply Forall_cons; split; [|apply Forall_cons; split; [|by apply Forall_nil]];
      (split_and!; [by apply (bool_decide_unpack _)|by vm_compute..]).
Defined.

(** X11. A single-file read of a shard that holds no k-mer at all (a binary
    file shorter than a header, a text file without a newline) ends the
    process when the graph has a length other than [~(size_type)0]: the
    reader returns [~(size_type)0] and [checkK] reports the mismatch, although
    the constructor accepts such a file. *)
Theorem read_of_shard_without_kmers_is_fatal `{Collaborators}
    (g : InputGraph.t) (v : list KMer) (file : nat) (append : bool) (w : World)
    (content : list ascii) :
  (file < InputGraph.files g)%nat ->
  fs w !! InputGraph.filename g file = Some content ->
  (if InputGraph.binary g then (length content < sizeof_header)%nat
   else NEWLINE ∉ content) ->
  InputGraph.k g ≠ SIZE_MAX ->
  InputGraph.read_file g v file append w =
  Exit (printing w [CheckKInvalidLength (InputGraph.filename g file);
                    CheckKExpected (InputGraph.k g) SIZE_MAX]).
Proof. apply read_file_no_kmers. Qed.

Lemma read_of_shard_without_kmers_is_fatal_witness :
  let g := {| InputGraph.binary := true; InputGraph.kmer_count := 0;
              InputGraph.kmer_length := 17;
              InputGraph.filenames := ["a.graph"%string; "b.graph"%string];
              InputGraph.sizes := [0; 0] |} in
  let w := Reference.world
             [("a.graph"%string,
               Reference.header_le_bytes (GraphFileHeader.make 0 17));
              ("b.graph"%string, [])] [] in
  InputGraph.read_file (H := Reference.collaborators) g [] 1 false w =
  Exit (printing w [CheckKInvalidLength "b.graph"; CheckKExpected 17 SIZE_MAX]).
Proof.
  apply (read_of_shard_without_kmers_is_fatal (H := Reference.collaborators)
           {| InputGraph.binary := true; InputGraph.kmer_count := 0;
              InputGraph.kmer_length := 17;
              InputGraph.filenames := ["a.graph"%string; "b.graph"%string];
              InputGraph.sizes := [0; 0] |} [] 1 false
           (Reference.world
              [("a.graph"%string,
                Reference.header_le_bytes (GraphFileHeader.make 0 17));
               ("b.graph"%string, [])] []) []).
  - unfold InputGraph.files. simpl. lia.
  - by vm_compute.
  - simpl. lia.
  - by vm_compute.
Defined.

(** X12. Whether they return or end the process, the constructor of an input
    graph, its reads of k-mers and of keys, and the reads of a path graph
    change nothing but what has been printed: no file is created, written or
    removed, and no temporary name is taken. *)
Theorem reads_keep_files `{Collaborators} :
  (forall base_names binary_format,
     keeps_files (InputGraph.create base_names binary_format)) ∧
  (forall g v file append, keeps_files (InputGraph.read_file g v file append)) ∧
  (forall g, keeps_files (InputGraph.read g)) ∧
  (forall g, keeps_files (InputGraph.read_keys g)) ∧
  (forall g paths labels file append,
     keeps_files (PathGraph.read_file g paths labels file append)) ∧
  (forall g, keeps_files (PathGraph.read g)).
Proof.
  split_and!.
  - intros. apply scan_files_keeps_files.
  - apply InputGraph_read_file_keeps_files.
  - intros g. unfold InputGraph.read.
    apply keeps_files_bind; [apply InputGraph_read_files_keeps_files|].
    intros; apply keeps_files_ret.
  - intros g. unfold InputGraph.read_keys.
    apply keeps_files_bind; [apply read_file_keys_keeps_files|].
    intros keys. destruct (InputGraph.merge_keys _ _ _ _). apply keeps_files_ret.
  - intros. unfold PathGraph.read_file.
    apply keeps_files_bind; [apply PathGraph_open_keeps_files|].
    intros; apply keeps_files_ret.
  - intros g. unfold PathGraph.read.
    apply keeps_files_bind; [apply PathGraph_read_files_keeps_files|].
    intros; apply keeps_files_ret.
Qed.

(** X13. [readText] with [append] set never removes or changes a record
    that was in the vector, and never retracts a diagnostic: whether it
    returns or ends the process, the vector and the diagnostics it started
    with are a prefix of those it stops with. *)
Theorem readText_only_appends `{Collaborators}
    (inp : istream) (st st' : Reading) :
  final (readText inp true st) = Some st' ->
  kmers st `prefix_of` kmers st' ∧ printed st `prefix_of` printed st'.
Proof. intros Hfinal. by apply (readText_grows inp true st st'). Qed.

Lemma readText_only_appends_witness :
  two_kmers `prefix_of`
    two_kmers ++ records_of_line (H := Reference.collaborators) two_successor_line ∧
  [TokenizeTokenCount] `prefix_of`
    [TokenizeTokenCount; TokenizeTokenCount; TokenizeLineWas two_field_line].
Proof.
  apply (readText_only_appends (H := Reference.collaborators)
           (istream_of (lines_bytes [two_successor_line; two_field_line]))
           {| kmers := two_kmers; printed := [TokenizeTokenCount] |}
           {| kmers := two_kmers ++
                       records_of_line (H := Reference.collaborators)
                         two_successor_line;
              printed := [TokenizeTokenCount; TokenizeTokenCount;
                          TokenizeLineWas two_field_line] |}).
  by vm_compute.
Defined.

(** * Properties of the path graph and of its builder *)

(** X14. A [PathGraph] constructed from an input graph has one temporary
    file for every file of the source, named by successive calls of
    [tempFile]; it takes the order of the source and leaves the three
    counters [UNKNOWN].  Afterwards every one of its files exists, every other
    file is as it was, and what had been printed is still there. *)
Theorem PathGraph_create_names_and_files `{Collaborators}
    (source : InputGraph.t) (key_rank : Z -> Z) (w : World)
    (g : PathGraph.t) (w' : World) :
  PathGraph.create source key_rank w = Done g w' ->
  PathGraph.filenames g =
    map (tempFile PathGraph.PREFIX)
        (seq (temp_count w) (InputGraph.files source)) ∧
  PathGraph.k g = InputGraph.k source ∧
  PathGraph.unique g = UNKNOWN ∧
  PathGraph.unsorted g = UNKNOWN ∧
  PathGraph.nondeterministic g = UNKNOWN ∧
  temp_count w' = (temp_count w + InputGraph.files source)%nat ∧
  unwritable w' = unwritable w ∧
  cerr w `prefix_of` cerr w' ∧
  forall name,
    if decide (name ∈ PathGraph.filenames g)
    then is_Some (fs w' !! name)
    else fs w' !! name = fs w !! name.
Proof.
  unfold PathGraph.create. intros Hrun.
  apply create_shards_world in Hrun
    as (Hnames & Horder & Hu & Hs & Hn & Htemp & Hunw & Hcerr & Hfs).
  rewrite length_seq in *. simpl in *.
  split_and!; try done. by rewrite Hnames.
Qed.

Lemma PathGraph_create_names_and_files_witness :
  match PathGraph.create (H := Reference.collaborators)
          {| InputGraph.binary := true; InputGraph.kmer_count := 2;
             InputGraph.kmer_length := 4;
             InputGraph.filenames := ["a.graph"%string; "b.graph"%string];
             InputGraph.sizes := [1; 1] |}
          (fun label => label) two_shards_world with
  | Done g w' =>
      PathGraph.filenames g = [".gcsa0"%string; ".gcsa1"%string] ∧
      PathGraph.k g = 4 ∧ temp_count w' = 2%nat ∧
      is_Some (fs w' !! ".gcsa1"%string) ∧
      fs w' !! "a.graph"%string = fs two_shards_world !! "a.graph"%string
  | _ => False
  end.
Proof.
  destruct (PathGraph.create (H := Reference.collaborators) _ _ two_shards_world)
    as [g w'| | |] eqn:Hrun;
    [|vm_compute in Hrun; discriminate..].
  pose proof (PathGraph_create_names_and_files (H := Reference.collaborators)
                _ _ _ _ _ Hrun)
    as (Hnames & Hk & _ & _ & _ & Htemp & _ & _ & Hfs).
  split_and!; [done..| |].
  - specialize (Hfs ".gcsa1"%string). rewrite Hnames in Hfs.
    by rewrite decide_True in Hfs by (by apply (bool_decide_unpack _)).
  - specialize (Hfs "a.graph"%string). rewrite Hnames in Hfs.
    by rewrite decide_False in Hfs by (by apply (bool_decide_unpack _)).
Defined.

Lemma InputGraph_create_files `{Collaborators} base_names binary_format w g w' :
  InputGraph.create base_names binary_format w = Done g w' ->
  InputGraph.files g = length base_names.
Proof.
  unfold InputGraph.create. intros Hrun.
  apply scan_files_counts in Hrun as [_ (_ & Hnames & _)].
  - unfold InputGraph.files. rewrite Hnames. simpl. by rewrite length_map.
  - simpl. unfold InputGraph.files. simpl.
    rewrite length_map, length_replicate. apply Forall_forall.
    intros file Hin. apply elem_of_seq in Hin. lia.
  - unfold kmer_count_is_sum. simpl. rewrite sum_sizes_replicate_0.
    split; [done|]. by apply Forall_replicate.
Qed.

(** X15. A [PathGraph] constructed from a constructed [InputGraph] has as
    many files as its source, the same per-file sizes, the same total size and
    the same order, and twice as many ranks as the source has k-mers, in
    [size_type] arithmetic. *)
Theorem PathGraph_of_InputGraph_counts `{Collaborators}
    (base_names : list string) (binary_format : bool) (w0 w1 : World)
    (source : InputGraph.t) (key_rank : Z -> Z) (w w' : World) (g : PathGraph.t) :
  InputGraph.create base_names binary_format w0 = Done source w1 ->
  PathGraph.create source key_rank w = Done g w' ->
  PathGraph.files g = InputGraph.files source ∧
  PathGraph.sizes g = InputGraph.sizes source ∧
  PathGraph.size g = InputGraph.size source ∧
  PathGraph.ranks g = wrap (2 * InputGraph.size source) ∧
  PathGraph.k g = InputGraph.k source.
Proof.
  intros Hsource Hrun.
  pose proof (InputGraph_create_files _ _ _ _ _ Hsource) as Hfiles.
  apply InputGraph_create_counts in Hsource as [[Hcount _] Hlen].
  pose proof (PathGraph_create_sizes _ _ _ _ _ Hrun) as [Hsizes|Hne];
    [|by rewrite Hlen, Hfiles in Hne].
  pose proof (PathGraph_create_counts _ _ _ _ _ Hrun) as [[Hp _] [_ Hr]].
  assert (PathGraph.path_count g = InputGraph.kmer_count source) as Hsize
    by (by rewrite Hp, Hsizes, Hcount).
  unfold PathGraph.create in Hrun.
  apply create_shards_world in Hrun as (Hnames & Horder & _).
  unfold PathGraph.files, PathGraph.size, PathGraph.ranks, PathGraph.k,
    InputGraph.size.
  split_and!; [|done|done| |done].
  - by rewrite Hnames, length_app, length_map, !length_seq.
  - by rewrite Hr, Hsize.
Qed.

Lemma PathGraph_of_InputGraph_counts_witness :
  let source := {| InputGraph.binary := true; InputGraph.kmer_count := 2;
                   InputGraph.kmer_length := 4;
                   InputGraph.filenames := ["a.graph"%string; "b.graph"%string];
                   InputGraph.sizes := [1; 1] |} in
  match PathGraph.create (H := Reference.collaborators) source
          (fun label => label) two_shards_world with
  | Done g _ =>
      PathGraph.files g = 2%nat ∧
      PathGraph.sizes g = [1; 1] ∧
      PathGraph.size g = 2 ∧
      PathGraph.ranks g = wrap (2 * 2) ∧
      PathGraph.k g = 4
  | _ => False
  end.
Proof.
  cbv zeta.
  assert (InputGraph.create (H := Reference.collaborators)
            ["a"%string; "b"%string] true two_shards_world =
          Done {| InputGraph.binary := true; InputGraph.kmer_count := 2;
                  InputGraph.kmer_length := 4;
                  InputGraph.filenames := ["a.graph"%string; "b.graph"%string];
                  InputGraph.sizes := [1; 1] |} two_shards_world) as Hsource
    by (by vm_compute).
  destruct (PathGraph.create (H := Reference.collaborators) _ _ two_shards_world)
    as [g w2| | |] eqn:Hrun;
    [|vm_compute in Hrun; discriminate..].
  exact (PathGraph_of_InputGraph_counts (H := Reference.collaborators)
           _ _ _ _ _ _ _ _ _ Hsource Hrun).
Defined.

(** X16. [clear] always returns, with the empty graph: afterwards none of
    the files of the graph exists, every other file is as it was, and no
    diagnostic has been printed. *)
Theorem PathGraph_clear_removes_files `{Collaborators}
    (g : PathGraph.t) (w : World) :
  exists w',
    PathGraph.clear g w =
      Done {| PathGraph.filenames := []; PathGraph.sizes := [];
              PathGraph.rank_counts := []; PathGraph.path_count := 0;
              PathGraph.rank_count := 0; PathGraph.order := 0;
              PathGraph.unique := UNKNOWN; PathGraph.unsorted := UNKNOWN;
              PathGraph.nondeterministic := UNKNOWN |} w' ∧
    cerr w' = cerr w ∧ unwritable w' = unwritable w ∧
    temp_count w' = temp_count w ∧
    forall name, fs w' !! name =
                 if decide (name ∈ PathGraph.filenames g) then None
                 else fs w !! name.
Proof.
  destruct (remove_files_world (PathGraph.filenames g) w)
    as (w' & Hrun & Hrest).
  exists w'. split; [|done]. unfold PathGraph.clear.
  by rewrite (bind_Done _ _ _ _ _ Hrun).
Qed.

Lemma create_empty_world `{Collaborators} file_count path_order w :
  PathGraph.create_empty file_count path_order w =
  Done {| PathGraph.filenames :=
            map (tempFile PathGraph.PREFIX) (seq (temp_count w) file_count);
          PathGraph.sizes := replicate file_count 0;
          PathGraph.rank_counts := replicate file_count 0;
          PathGraph.path_count := 0; PathGraph.rank_count := 0;
          PathGraph.order := path_order;
          PathGraph.unique := 0; PathGraph.unsorted := 0;
          PathGraph.nondeterministic := 0 |}
       {| fs := fs w; unwritable := unwritable w; cerr := cerr w;
          temp_count := temp_count w + file_count |}.
Proof.
  unfold PathGraph.create_empty.
  by rewrite (bind_Done _ _ _ _ _ (temp_files_world file_count w)).
Qed.

(** X17. When none of the temporary names it is handed is unwritable, the
    constructor of a builder returns a graph of [file_count] files with these
    names, all sizes and counters zero and the order given; every one of the
    files exists and is empty afterwards, every other file is as it was, and
    no diagnostic has been printed. *)
Theorem PathGraphBuilder_create_opens_files `{Collaborators}
    (file_count : nat) (path_order : Z) (w : World) :
  let names := map (tempFile PathGraph.PREFIX) (seq (temp_count w) file_count) in
  Forall (fun name => name ∉ unwritable w) names ->
  exists w',
    PathGraphBuilder.create file_count path_order w =
      Done {| PathGraphBuilder.graph :=
                {| PathGraph.filenames := names;
                   PathGraph.sizes := replicate file_count 0;
                   PathGraph.rank_counts := replicate file_count 0;
                   PathGraph.path_count := 0; PathGraph.rank_count := 0;
                   PathGraph.order := path_order;
                   PathGraph.unique := 0; PathGraph.unsorted := 0;
                   PathGraph.nondeterministic := 0 |};
              PathGraphBuilder.files := names |} w' ∧
    cerr w' = cerr w ∧
    temp_count w' = (temp_count w + file_count)%nat ∧
    forall name, fs w' !! name =
                 if decide (name ∈ names) then Some [] else fs w !! name.
Proof.
  intros names Hnames.
  unfold PathGraphBuilder.create.
  rewrite (bind_Done _ _ _ _ _ (create_empty_world file_count path_order w)).
  cbn [PathGraph.filenames]. fold names.
  destruct (open_files_world names
              {| fs := fs w; unwritable := unwritable w; cerr := cerr w;
                 temp_count := temp_count w + file_count |} Hnames)
    as (w' & Hrun & Hcerr & _ & Htemp & Hfs).
  rewrite (bind_Done _ _ _ _ _ Hrun). by exists w'.
Qed.

Lemma PathGraphBuilder_create_opens_files_witness :
  exists w',
    PathGraphBuilder.create (H := Reference.collaborators) 2 3 two_kmers_world =
      Done {| PathGraphBuilder.graph :=
                {| PathGraph.filenames := [".gcsa0"%string; ".gcsa1"%string];
                   PathGraph.sizes := [0; 0];
                   PathGraph.rank_counts := [0; 0];
                   PathGraph.path_count := 0; PathGraph.rank_count := 0;
                   PathGraph.order := 3;
                   PathGraph.unique := 0; PathGraph.unsorted := 0;
                   PathGraph.nondeterministic := 0 |};
              PathGraphBuilder.files := [".gcsa0"%string; ".gcsa1"%string] |} w' ∧
    cerr w' = [] ∧
    temp_count w' = 2%nat ∧
    forall name, fs w' !! name =
                 if decide (name ∈ [".gcsa0"%string; ".gcsa1"%string])
                 then Some [] else fs two_kmers_world !! name.
Proof.
  apply (PathGraphBuilder_create_opens_files (H := Reference.collaborators)
           2 3 two_kmers_world).
  repeat (apply Forall_cons; split; [by apply (bool_decide_unpack _)|]).
  by apply Forall_nil.
Defined.

(** X18. When one of the temporary names is unwritable and those before it
    are not, the constructor of a builder ends the process: it has taken all
    [file_count] names, created the files before the unwritable one, empty,
    and printed that the unwritable one cannot be opened. *)
Theorem PathGraphBuilder_create_locked_file `{Collaborators}
    (file_count : nat) (path_order : Z) (w : World) (i : nat) :
  (i < file_count)%nat ->
  (forall j, (j < i)%nat ->
             tempFile PathGraph.PREFIX (temp_count w + j) ∉ unwritable w) ->
  tempFile PathGraph.PREFIX (temp_count w + i) ∈ unwritable w ->
  exists w',
    PathGraphBuilder.create file_count path_order w = Exit w' ∧
    cerr w' = cerr w ++ [BuilderCannotOpenOutput
                           (tempFile PathGraph.PREFIX (temp_count w + i))] ∧
    temp_count w' = (temp_count w + file_count)%nat ∧
    forall name,
      fs w' !! name =
      if decide (name ∈ map (tempFile PathGraph.PREFIX) (seq (temp_count w) i))
      then Some [] else fs w !! name.
Proof.
  intros Hi Hopened Hlocked.
  unfold PathGraphBuilder.create.
  rewrite (bind_Done _ _ _ _ _ (create_empty_world file_count path_order w)).
  cbn [PathGraph.filenames].
  replace (seq (temp_count w) file_count)
    with (seq (temp_count w) (i + S (file_count - S i)))
    by (f_equal; lia).
  rewrite seq_app, map_app. cbn [seq map].
  set (w0 := {| fs := fs w; unwritable := unwritable w; cerr := cerr w;
                temp_count := temp_count w + file_count |}).
  destruct (open_files_locked
              (map (tempFile PathGraph.PREFIX) (seq (temp_count w) i)) w0
              (tempFile PathGraph.PREFIX (temp_count w + i))
              (map (tempFile PathGraph.PREFIX)
                   (seq (S (temp_count w + i)) (file_count - S i))))
    as (w' & Hrun & Hcerr & Hfs); [|done|].
  { apply Forall_forall. intros name [j [-> Hj]]%list_elem_of_fmap.
    apply elem_of_seq in Hj.
    replace j with (temp_count w + (j - temp_count w))%nat by lia.
    apply Hopened. lia. }
  rewrite (bind_Exit _ _ _ _ Hrun). exists w'. split_and!; [done..| |done].
  change (temp_count w + file_count)%nat with (temp_count w0).
  clear -Hrun. revert Hrun.
  generalize (map (tempFile PathGraph.PREFIX) (seq (temp_count w) i) ++
              tempFile PathGraph.PREFIX (temp_count w + i) ::
              map (tempFile PathGraph.PREFIX)
                (seq (S (temp_count w + i)) (file_count - S i))).
  generalize w0. intros w0' names0 Hrun.
  assert (forall names w1 w2,
            PathGraphBuilder.open_files names w1 = Exit w2 ->
            temp_count w2 = temp_count w1) as Hkeep.
  { induction names as [|n names IH]; intros w1 w2; [done|].
    cbn [PathGraphBuilder.open_files]. unfold bind, open_out.
    case_decide; simpl; [by intros [= <-]|]. intros Hrest.
    by apply IH in Hrest. }
  by apply Hkeep in Hrun.
Qed.

Lemma PathGraphBuilder_create_locked_file_witness :
  exists w',
    PathGraphBuilder.create (H := Reference.collaborators) 3 4 locked_temp_world =
      Exit w' ∧
    cerr w' = [] ++ [BuilderCannotOpenOutput ".gcsa1"] ∧
    temp_count w' = 3%nat ∧
    forall name,
      fs w' !! name =
      if decide (name ∈ [".gcsa0"%string]) then Some []
      else fs locked_temp_world !! name.
Proof.
  apply (PathGraphBuilder_create_locked_file (H := Reference.collaborators)
           3 4 locked_temp_world 1).
  - lia.
  - intros j Hj. assert (j = 0%nat) as -> by lia.
    by apply (bool_decide_unpack _).
  - by apply (bool_decide_unpack _).
Defined.

(** X19. When the files of a graph yield at least one key, [read(keys)]
    returns keys whose labels increase strictly, one key for every label
    among the k-mers read and no other label; this is so when [Key::label]
    grows with the key and [Key::merge] of two keys of one label keeps that
    label. *)
Theorem read_keys_labels_strictly_increase `{Collaborators}
    (g : InputGraph.t) (w : World) (keys : list Z) (w1 : World) :
  InputGraph.read_file_keys g (seq 0 (InputGraph.files g)) [] w = Done keys w1 ->
  keys ≠ [] ->
  (forall a b, a ≤ b -> Key_label a ≤ Key_label b) ->
  (forall a b, Key_label a = Key_label b -> Key_label (Key_merge a b) = Key_label a) ->
  exists merged,
    InputGraph.read_keys g w = Done merged w1 ∧
    Sorted (fun a b => Key_label a < Key_label b) merged ∧
    forall l, l ∈ map Key_label merged <-> l ∈ map Key_label keys.
Proof. apply read_keys_labels. Qed.

Lemma read_keys_labels_strictly_increase_witness :
  let g := {| InputGraph.binary := true; InputGraph.kmer_count := 2;
              InputGraph.kmer_length := 4;
              InputGraph.filenames := ["a.graph"%string; "b.graph"%string];
              InputGraph.sizes := [1; 1] |} in
  exists merged,
    InputGraph.read_keys (H := Reference.collaborators) g two_shards_world =
      Done merged two_shards_world ∧
    Sorted (fun a b => Z.shiftr a 16 < Z.shiftr b 16) merged ∧
    forall l, l ∈ map (fun key => Z.shiftr key 16) merged <->
              l ∈ map (fun key => Z.shiftr key 16) [65537; 131074].
Proof.
  apply (read_keys_labels_strictly_increase (H := Reference.collaborators)
           {| InputGraph.binary := true; InputGraph.kmer_count := 2;
              InputGraph.kmer_length := 4;
              InputGraph.filenames := ["a.graph"%string; "b.graph"%string];
              InputGraph.sizes := [1; 1] |}
           two_shards_world [65537; 131074] two_shards_world).
  - by vm_compute.
  - done.
  - intros a b Hab. simpl. rewrite !Z.shiftr_div_pow2 by lia.
    apply Z.div_le_mono; lia.
  - intros a b _. simpl. rewrite Z.shiftr_lor, Z.shiftr_land.
    change (Z.shiftr 65535 16) with 0. by rewrite Z.land_0_r, Z.lor_0_r.
Defined.

